(** * json-stream-es: the chunk-to-value materializer (JsonDeserializer)

    A shallow embedding of [src/json-deserializer.ts] and of the JavaScript
    operations it relies on, followed by the properties the specification
    states about it, by the same program with its heap made explicit, and
    by further properties of the materializer.  The stages of the pipeline
    whose code is not among the sources (tokenizer, path tracker, selector,
    splitter) are modelled from the specification after that and are marked
    as such. *)

From Stdlib Require Import List String Ascii Bool Arith NArith ZArith Lia.
From Stdlib Require Import DecimalString Sorted Permutation.
Import ListNotations.
Local Open Scope string_scope.
Local Open Scope list_scope.
Set Warnings "-register-all".

(** ** The JavaScript host *)

(** The materializer only stores Number values; the one operation that would
    look inside one is [+=], which formats it, and the tokenizer makes one
    from the text of a numeric literal.  Engines also differ in one point
    the materializer can observe: whether [Object.prototype] carries the
    legacy [__proto__] accessor (Node.js, Bun and browsers: yes; Deno, or
    Node.js run with [--disable-proto=delete]: no). *)
Class Host : Type := {
  number : Type;
  Number_toString : number -> string;
  Number_of_literal : string -> number;
  legacy_proto_accessor : bool
}.

(** The integer a decimal literal denotes (0 when it is not one). *)
Definition integer_of_literal (s : string) : Z :=
  match NilZero.int_of_string s with
  | Some i => Z.of_int i
  | None => 0%Z
  end.

(** A host whose Number values are the integers, with the accessor present
    as in Node.js (the engine the repository's tests run on). *)
Definition IntegerHost : Host :=
  {| number := Z;
     Number_toString := fun z => NilZero.string_of_int (Z.to_int z);
     Number_of_literal := integer_of_literal;
     legacy_proto_accessor := true |}.

(** The same host without the accessor. *)
Definition IntegerHostNoProto : Host :=
  {| number := Z;
     Number_toString := fun z => NilZero.string_of_int (Z.to_int z);
     Number_of_literal := integer_of_literal;
     legacy_proto_accessor := false |}.

Section Materializer.

Context {host : Host}.

(** ** Values *)

(** [JsonPath]: object keys and array indices, root first. *)
Inductive PathSegment : Type :=
| Key (k : string)
| Index (i : N).

Definition JsonPath : Type := list PathSegment.

(** [JsonValue], as the running program has it.  An object is an ordinary
    JavaScript object: besides its own properties (kept here in the order in
    which they were created) it has a prototype, which is [Object.prototype]
    for an object made by the literal [{}] and can only change through the
    [__proto__] accessor. *)
Inductive JsonValue : Type :=
| JString (s : string)
| JNumber (n : number)
| JBoolean (b : bool)
| JNull
| JObject (o : JsObject)
| JArray (items : list JsonValue)
with JsObject : Type :=
| mkObject (proto : Prototype) (props : list (string * JsonValue))
with Prototype : Type :=
| ObjectPrototype
| NullPrototype
| ValuePrototype (v : JsonValue).

Definition proto (o : JsObject) : Prototype :=
  match o with mkObject p _ => p end.

Definition props (o : JsObject) : list (string * JsonValue) :=
  match o with mkObject _ ps => ps end.

(** The object literal [{}]. *)
Definition empty_object : JsObject := mkObject ObjectPrototype [].

(** ** Property keys and property order *)

Definition digit_value (c : ascii) : option N :=
  let n := N_of_ascii c in
  if ((48 <=? n) && (n <=? 57))%N then Some (n - 48)%N else None.

Fixpoint decimal_value (s : string) (acc : N) : option N :=
  match s with
  | EmptyString => Some acc
  | String c s' =>
      match digit_value c with
      | Some d => decimal_value s' (10 * acc + d)%N
      | None => None
      end
  end.

(** A property key is an array index when it is the canonical decimal
    spelling of an integer below 2^32 - 1 (ECMA-262, 6.1.7). *)
Definition array_index (k : string) : option N :=
  match k with
  | EmptyString => None
  | String c rest =>
      if (N_of_ascii c =? 48)%N then
        match rest with EmptyString => Some 0%N | _ => None end
      else
        match decimal_value k 0 with
        | Some n => if (n <? 2 ^ 32 - 1)%N then Some n else None
        | None => None
        end
  end.

Definition is_array_index (k : string) : bool :=
  match array_index k with Some _ => true | None => false end.

Fixpoint insert_index (i : N) (k : string) (l : list (N * string)) : list (N * string) :=
  match l with
  | [] => [(i, k)]
  | (j, k') :: l' => if (i <=? j)%N then (i, k) :: l else (j, k') :: insert_index i k l'
  end.

Fixpoint sort_indices (l : list (N * string)) : list (N * string) :=
  match l with
  | [] => []
  | (i, k) :: l' => insert_index i k (sort_indices l')
  end.

Fixpoint index_keys (ks : list string) : list (N * string) :=
  match ks with
  | [] => []
  | k :: ks' =>
      match array_index k with
      | Some i => (i, k) :: index_keys ks'
      | None => index_keys ks'
      end
  end.

Definition created_keys (o : JsObject) : list string := map fst (props o).

(** [Object.keys(o)], the order in which [JSON.stringify], [for-in] and
    structural comparison see an object's properties
    (OrdinaryOwnPropertyKeys, ECMA-262 10.1.11.1): array indices first, in
    ascending numeric order, then the other keys in order of creation. *)
Definition Object_keys (o : JsObject) : list string :=
  map snd (sort_indices (index_keys (created_keys o)))
  ++ filter (fun k => negb (is_array_index k)) (created_keys o).

Fixpoint lookup {V : Type} (ps : list (string * V)) (k : string) : option V :=
  match ps with
  | [] => None
  | (k', v) :: ps' => if String.eqb k' k then Some v else lookup ps' k
  end.

(** The own property [k] of [o], if it has one. *)
Definition own_property (o : JsObject) (k : string) : option JsonValue :=
  lookup (props o) k.

Definition has_own_property (o : JsObject) (k : string) : bool :=
  match own_property o k with Some _ => true | None => false end.

Fixpoint update {V : Type} (ps : list (string * V)) (k : string) (v : V)
  : list (string * V) :=
  match ps with
  | [] => []
  | (k', v') :: ps' =>
      if String.eqb k' k then (k', v) :: ps' else (k', v') :: update ps' k v
  end.

(** ** Property assignment *)

(** Whether looking [__proto__] up along the prototype chain that starts at
    the value [v] ends at the accessor of [Object.prototype].  An own data
    property of that name on the way shadows it; a chain that ends in [null]
    never reaches it.  Arrays inherit from [Array.prototype] and then from
    [Object.prototype]. *)
Fixpoint reaches_proto_accessor (v : JsonValue) : bool :=
  match v with
  | JObject (mkObject p ps) =>
      match lookup ps "__proto__" with
      | Some _ => false
      | None =>
          match p with
          | ObjectPrototype => legacy_proto_accessor
          | NullPrototype => false
          | ValuePrototype v' => reaches_proto_accessor v'
          end
      end
  | JArray _ => legacy_proto_accessor
  | _ => false
  end.

Definition inherits_proto_accessor (p : Prototype) : bool :=
  match p with
  | ObjectPrototype => legacy_proto_accessor
  | NullPrototype => false
  | ValuePrototype v => reaches_proto_accessor v
  end.

(** The setter of the [__proto__] accessor: an object or [null] becomes the
    receiver's prototype, any other value is ignored. *)
Definition set_prototype (o : JsObject) (v : JsonValue) : JsObject :=
  match v with
  | JObject _ | JArray _ => mkObject (ValuePrototype v) (props o)
  | JNull => mkObject NullPrototype (props o)
  | _ => o
  end.

(** [o[k] = v] on an ordinary object (OrdinarySet, ECMA-262 10.1.9.1): an own
    property is overwritten in place; otherwise the key is looked up along
    the prototype chain, where the only accessor there can be is
    [__proto__]; otherwise a new own property is created. *)
Definition Object_set (o : JsObject) (k : string) (v : JsonValue) : JsObject :=
  if has_own_property o k then mkObject (proto o) (update (props o) k v)
  else if (String.eqb k "__proto__" && inherits_proto_accessor (proto o))%bool
       then set_prototype o v
       else mkObject (proto o) (props o ++ [(k, v)]).

(** ** String concatenation *)

Definition Boolean_toString (b : bool) : string :=
  if b then "true" else "false".

(** [value += text] where [text] is a string: the left operand is converted
    to a string and the two are concatenated.  The conversion of an array or
    an object runs user-visible methods ([toString], [join]) found through
    own properties and the prototype chain; the embedding does not cover it
    ([None]).  No state reachable from the initial one asks for it; see
    [run_initial_total]. *)
Definition plus_assign (value : option JsonValue) (text : string) : option JsonValue :=
  match value with
  | None => Some (JString ("undefined" ++ text))
  | Some (JString s) => Some (JString (s ++ text))
  | Some (JNumber n) => Some (JString (Number_toString n ++ text))
  | Some (JBoolean b) => Some (JString (Boolean_toString b ++ text))
  | Some JNull => Some (JString ("null" ++ text))
  | Some (JObject _) | Some (JArray _) => None
  end.

(** ** Chunks *)

Inductive StringRole : Type := KEY | VALUE.

(** Modelled from the spec: [JsonChunk] and [JsonChunkType] are declared in
    [types.ts], which is not among the sources.  The variants are those of
    the specification's data model and the fields are those the materializer
    reads: [role] on the three string chunks, [value] on [STRING_CHUNK],
    [NUMBER_VALUE] and [BOOLEAN_VALUE]; the [value] of [NULL_VALUE] is
    [null]. *)
Inductive JsonChunk : Type :=
| OBJECT_START
| OBJECT_END
| ARRAY_START
| ARRAY_END
| STRING_START (role : StringRole)
| STRING_CHUNK (role : StringRole) (value : string)
| STRING_END (role : StringRole)
| NUMBER_VALUE (value : number)
| BOOLEAN_VALUE (value : bool)
| NULL_VALUE.

(** [C extends JsonChunk & { path?: JsonPath }]: a chunk with the optional
    path annotation ([None] is [undefined]). *)
Record JsonChunkWithPath : Type := WithPath {
  chunk : JsonChunk;
  chunk_path : option JsonPath
}.

(** ** The state machine *)

(** [AnyState].  [value] is [JsonValue | undefined].  In the program the
    [object] (or [array]) of a frame and the [value] of its [parent] are one
    and the same heap object: [ARRAY_START] and [OBJECT_START] store the
    fresh container in [state.value] and hand the same reference to the new
    frame.  Here the frame holds the container while it is filled, and
    leaving the frame ([ARRAY_END], [OBJECT_END]) reads it back through
    [parent.value].  That this delivers what the program with its heap
    delivers is [heap_run_agree], in the section on the heap. *)
Inductive State : Type :=
| ROOT (value : option JsonValue) (path : option JsonPath)
| OBJECT_PROPERTY (object : JsObject) (key : string) (value : option JsonValue)
    (parent : State)
| ARRAY_ITEM (array : list JsonValue) (value : option JsonValue) (parent : State).

(** [JsonValueAndPath], what the materializer enqueues. *)
Record JsonValueAndPath : Type := Emit {
  value : JsonValue;
  path : option JsonPath
}.

(** [state = { type: ROOT, value: undefined, path: [] }] *)
Definition initial_state : State := ROOT None (Some []).

Definition state_value (st : State) : option JsonValue :=
  match st with
  | ROOT v _ => v
  | OBJECT_PROPERTY _ _ v _ => v
  | ARRAY_ITEM _ v _ => v
  end.

(** [this.state.value = v] *)
Definition set_value (st : State) (v : option JsonValue) : State :=
  match st with
  | ROOT _ p => ROOT v p
  | OBJECT_PROPERTY o k _ parent => OBJECT_PROPERTY o k v parent
  | ARRAY_ITEM a _ parent => ARRAY_ITEM a v parent
  end.

(** [if (this.state.type === StateType.ROOT) this.state.path = chunk.path] *)
Definition set_path_if_root (st : State) (p : option JsonPath) : State :=
  match st with
  | ROOT v _ => ROOT v p
  | _ => st
  end.

(** [handleValueEnd]: the new state and what was enqueued. *)
Definition handleValueEnd (st : State) : State * list JsonValueAndPath :=
  match st with
  | ROOT v p =>
      (ROOT None p,
       match v with
       | Some x => [Emit x p]
       | None => []
       end)
  | OBJECT_PROPERTY o k v parent =>
      (OBJECT_PROPERTY
         (match v with
          | Some x => Object_set o k x
          | None => o
          end) "" None parent, [])
  | ARRAY_ITEM a v parent =>
      (ARRAY_ITEM
         (match v with
          | Some x => a ++ [x]
          | None => a
          end) None parent, [])
  end.

(** [transform]: one chunk.  The result is [None] only where [+=] meets an
    array or an object (see [plus_assign]). *)
Definition transform (st : State) (c : JsonChunkWithPath)
  : option (State * list JsonValueAndPath) :=
  match chunk c with
  | NUMBER_VALUE n =>
      Some (handleValueEnd (set_path_if_root (set_value st (Some (JNumber n))) (chunk_path c)))
  | BOOLEAN_VALUE b =>
      Some (handleValueEnd (set_path_if_root (set_value st (Some (JBoolean b))) (chunk_path c)))
  | NULL_VALUE =>
      Some (handleValueEnd (set_path_if_root (set_value st (Some JNull)) (chunk_path c)))
  | STRING_START VALUE =>
      Some (set_path_if_root (set_value st (Some (JString ""))) (chunk_path c), [])
  | STRING_CHUNK VALUE text =>
      match plus_assign (state_value st) text with
      | Some v => Some (set_value st (Some v), [])
      | None => None
      end
  | STRING_END VALUE =>
      Some (handleValueEnd st)
  | ARRAY_START =>
      Some (ARRAY_ITEM [] None
              (set_path_if_root (set_value st (Some (JArray []))) (chunk_path c)), [])
  | ARRAY_END =>
      match st with
      | ARRAY_ITEM a _ parent => Some (handleValueEnd (set_value parent (Some (JArray a))))
      | _ => Some (st, [])
      end
  | OBJECT_START =>
      Some (OBJECT_PROPERTY empty_object "" None
              (set_path_if_root (set_value st (Some (JObject empty_object))) (chunk_path c)), [])
  | OBJECT_END =>
      match st with
      | OBJECT_PROPERTY o _ _ parent => Some (handleValueEnd (set_value parent (Some (JObject o))))
      | _ => Some (st, [])
      end
  | STRING_CHUNK KEY text =>
      match st with
      | OBJECT_PROPERTY o k v parent => Some (OBJECT_PROPERTY o (k ++ text) v parent, [])
      | _ => Some (st, [])
      end
  | STRING_START KEY | STRING_END KEY =>
      Some (st, [])
  end.

(** Modelled from the spec: [AbstractTransformStream] is declared in
    [utils.ts], which is not among the sources.  It is the platform's
    [TransformStream] with the class's [transform] as its transformer: every
    chunk written is handed to [transform], in order, and what the transformer
    enqueues is what the readable side delivers, in order. *)
Fixpoint run (st : State) (cs : list JsonChunkWithPath)
  : option (State * list JsonValueAndPath) :=
  match cs with
  | [] => Some (st, [])
  | c :: cs' =>
      match transform st c with
      | Some (st', out) =>
          match run st' cs' with
          | Some (st'', out') => Some (st'', out ++ out')
          | None => None
          end
      | None => None
      end
  end.

(** The materializer as a function from its input to its output. *)
Definition JsonDeserializer (cs : list JsonChunkWithPath) : option (list JsonValueAndPath) :=
  match run initial_state cs with
  | Some (_, out) => Some out
  | None => None
  end.

(** ** Well-formed input *)

(** The chunk run of one string: where it starts, its pieces, where it ends.
    Every chunk carries a path annotation of its own; the materializer reads
    only the one on the first chunk of a root-level value, so the others are
    left arbitrary. *)
Record StringRun : Type := {
  start_path : option JsonPath;
  pieces : list (string * option JsonPath);
  end_path : option JsonPath
}.

(** A JSON document as the tokenizer delivers it: the tree of its chunks.
    [chunks_of] lists the chunks in document order, and every well-formed
    chunk run of one value is [chunks_of d] for some [d]. *)
Inductive Doc : Type :=
| DNumber (n : number) (p : option JsonPath)
| DBoolean (b : bool) (p : option JsonPath)
| DNull (p : option JsonPath)
| DString (s : StringRun)
| DArray (p : option JsonPath) (items : list Doc) (q : option JsonPath)
| DObject (p : option JsonPath) (members : list (StringRun * Doc)) (q : option JsonPath).

Definition string_chunks (role : StringRole) (s : StringRun) : list JsonChunkWithPath :=
  WithPath (STRING_START role) (start_path s)
  :: map (fun tp => WithPath (STRING_CHUNK role (fst tp)) (snd tp)) (pieces s)
  ++ [WithPath (STRING_END role) (end_path s)].

(** The text of a string: its pieces, concatenated. *)
Definition text_of (s : StringRun) : string :=
  fold_right String.append "" (map fst (pieces s)).

Fixpoint chunks_of (d : Doc) : list JsonChunkWithPath :=
  match d with
  | DNumber n p => [WithPath (NUMBER_VALUE n) p]
  | DBoolean b p => [WithPath (BOOLEAN_VALUE b) p]
  | DNull p => [WithPath NULL_VALUE p]
  | DString s => string_chunks VALUE s
  | DArray p items q =>
      WithPath ARRAY_START p :: flat_map chunks_of items ++ [WithPath ARRAY_END q]
  | DObject p members q =>
      WithPath OBJECT_START p
      :: flat_map (fun m => string_chunks KEY (fst m) ++ chunks_of (snd m)) members
      ++ [WithPath OBJECT_END q]
  end.

(** The path on the first chunk of a document. *)
Definition first_path (d : Doc) : option JsonPath :=
  match d with
  | DNumber _ p | DBoolean _ p | DNull p | DArray p _ _ | DObject p _ _ => p
  | DString s => start_path s
  end.

(** The value a document stands for in the running program: members are
    assigned to a fresh object in document order. *)
Fixpoint denote (d : Doc) : JsonValue :=
  match d with
  | DNumber n _ => JNumber n
  | DBoolean b _ => JBoolean b
  | DNull _ => JNull
  | DString s => JString (text_of s)
  | DArray _ items _ => JArray (map denote items)
  | DObject _ members _ =>
      JObject (fold_left (fun o m => Object_set o (text_of (fst m)) (denote (snd m)))
                 members empty_object)
  end.

(** What the materializer is to deliver for one root-level document. *)
Definition result_of (d : Doc) : JsonValueAndPath :=
  Emit (denote d) (first_path d).

(** * Properties of the materializer *)

(** ** Running chunk by chunk *)

(** What follows a step: the rest of the input is run from the new state and
    its output comes after the step's. *)
Definition then_run (r : State * list JsonValueAndPath) (cs : list JsonChunkWithPath)
  : option (State * list JsonValueAndPath) :=
  match run (fst r) cs with
  | Some (st', out') => Some (st', snd r ++ out')
  | None => None
  end.

Lemma run_cons st c cs :
  run st (c :: cs) =
  match transform st c with
  | Some r => then_run r cs
  | None => None
  end.
Proof.
  simpl. destruct (transform st c) as [[st' out]|]; reflexivity.
Qed.

Lemma then_run_nil_out st cs : then_run (st, []) cs = run st cs.
Proof.
  unfold then_run; simpl. destruct (run st cs) as [[st' out']|]; reflexivity.
Qed.

Lemma then_run_nil r : then_run r [] = Some r.
Proof.
  destruct r as [st out]. unfold then_run; simpl. now rewrite app_nil_r.
Qed.

Lemma run_app st xs ys :
  run st (xs ++ ys) =
  match run st xs with
  | Some r => then_run r ys
  | None => None
  end.
Proof.
  revert st. induction xs as [|c xs IH]; intros st.
  - simpl. now rewrite then_run_nil_out.
  - rewrite <- app_comm_cons, !run_cons.
    destruct (transform st c) as [[st1 out1]|]; [|reflexivity].
    unfold then_run; simpl. rewrite IH.
    destruct (run st1 xs) as [[st2 out2]|]; simpl; [|reflexivity].
    unfold then_run; simpl.
    destruct (run st2 ys) as [[st3 out3]|]; simpl; [|reflexivity].
    now rewrite app_assoc.
Qed.

Lemma then_run_app r xs ys :
  then_run r (xs ++ ys) =
  match then_run r xs with
  | Some r' => then_run r' ys
  | None => None
  end.
Proof.
  destruct r as [st out]. unfold then_run at 1 2; simpl. rewrite run_app.
  destruct (run st xs) as [[st1 out1]|]; [|reflexivity].
  unfold then_run; simpl.
  destruct (run st1 ys) as [[st2 out2]|]; [|reflexivity].
  now rewrite app_assoc.
Qed.

(** ** Field updates *)

Lemma state_value_set_value st v : state_value (set_value st v) = v.
Proof. now destruct st. Qed.

Lemma state_value_set_path st p :
  state_value (set_path_if_root st p) = state_value st.
Proof. now destruct st. Qed.

Lemma set_value_set_value st v w : set_value (set_value st v) w = set_value st w.
Proof. now destruct st. Qed.

Lemma set_value_set_path st p v :
  set_value (set_path_if_root st p) v = set_path_if_root (set_value st v) p.
Proof. now destruct st. Qed.

Lemma string_append_assoc (a b c : string) : ((a ++ b) ++ c = a ++ (b ++ c))%string.
Proof. induction a as [|x a IH]; simpl; [reflexivity | now rewrite IH]. Qed.

Lemma string_append_nil_r (a : string) : (a ++ "" = a)%string.
Proof. induction a as [|x a IH]; simpl; [reflexivity | now rewrite IH]. Qed.

(** ** Strings *)

Definition value_pieces (ps : list (string * option JsonPath)) : list JsonChunkWithPath :=
  map (fun tp => WithPath (STRING_CHUNK VALUE (fst tp)) (snd tp)) ps.

Definition key_pieces (ps : list (string * option JsonPath)) : list JsonChunkWithPath :=
  map (fun tp => WithPath (STRING_CHUNK KEY (fst tp)) (snd tp)) ps.

Definition join (ps : list (string * option JsonPath)) : string :=
  fold_right String.append "" (map fst ps).

(** Pieces of a value string are appended to the string under construction,
    and nothing is enqueued. *)
Lemma run_value_pieces ps : forall st acc cs,
  state_value st = Some (JString acc) ->
  run st (value_pieces ps ++ cs) =
  run (set_value st (Some (JString (acc ++ join ps)))) cs.
Proof.
  induction ps as [|[t p] ps IH]; intros st acc cs Hv.
  - simpl. unfold join; simpl. rewrite string_append_nil_r.
    rewrite <- Hv. now destruct st.
  - change (value_pieces ((t, p) :: ps) ++ cs)
      with (WithPath (STRING_CHUNK VALUE t) p :: (value_pieces ps ++ cs)).
    rewrite run_cons. unfold transform; simpl. rewrite Hv; simpl.
    rewrite then_run_nil_out.
    rewrite (IH _ (acc ++ t)%string) by apply state_value_set_value.
    rewrite set_value_set_value.
    unfold join; simpl. now rewrite string_append_assoc.
Qed.

(** Pieces of a key are appended to the key under construction. *)
Lemma run_key_pieces ps : forall o k v parent cs,
  run (OBJECT_PROPERTY o k v parent) (key_pieces ps ++ cs) =
  run (OBJECT_PROPERTY o (k ++ join ps) v parent) cs.
Proof.
  induction ps as [|[t p] ps IH]; intros o k v parent cs.
  - simpl. unfold join; simpl. now rewrite string_append_nil_r.
  - change (key_pieces ((t, p) :: ps) ++ cs)
      with (WithPath (STRING_CHUNK KEY t) p :: (key_pieces ps ++ cs)).
    rewrite run_cons. unfold transform; simpl.
    rewrite then_run_nil_out, IH.
    unfold join; simpl. now rewrite string_append_assoc.
Qed.

(** A complete value string: the value is the text, completed once. *)
Lemma run_string_value s st cs :
  run st (string_chunks VALUE s ++ cs) =
  then_run (handleValueEnd
              (set_path_if_root (set_value st (Some (JString (text_of s)))) (start_path s)))
           cs.
Proof.
  unfold string_chunks. rewrite <- app_comm_cons, run_cons.
  unfold transform at 1; simpl chunk; cbv iota beta.
  rewrite then_run_nil_out. fold (value_pieces (pieces s)).
  rewrite <- app_assoc.
  rewrite (run_value_pieces _ _ "")
    by (rewrite state_value_set_path; apply state_value_set_value).
  simpl app. rewrite run_cons. unfold transform; simpl chunk; cbv iota beta.
  rewrite set_value_set_path, set_value_set_value.
  reflexivity.
Qed.

(** A complete key: the key under construction has grown by the text. *)
Lemma run_string_key s o k v parent cs :
  run (OBJECT_PROPERTY o k v parent) (string_chunks KEY s ++ cs) =
  run (OBJECT_PROPERTY o (k ++ text_of s) v parent) cs.
Proof.
  unfold string_chunks. rewrite <- app_comm_cons, run_cons.
  unfold transform at 1; simpl. rewrite then_run_nil_out.
  fold (key_pieces (pieces s)). rewrite <- app_assoc, run_key_pieces.
  simpl app. rewrite run_cons. unfold transform; simpl.
  now rewrite then_run_nil_out.
Qed.

(** ** Complete documents *)

(** Induction over documents, with the hypothesis available for every item
    of an array and every member of an object. *)
Lemma Doc_induction (P : Doc -> Prop) :
  (forall n p, P (DNumber n p)) ->
  (forall b p, P (DBoolean b p)) ->
  (forall p, P (DNull p)) ->
  (forall s, P (DString s)) ->
  (forall p items q, Forall P items -> P (DArray p items q)) ->
  (forall p members q, Forall (fun m => P (snd m)) members -> P (DObject p members q)) ->
  forall d, P d.
Proof.
  intros Hn Hb Hu Hs Ha Ho.
  fix IH 1. intros [n p|b p|p|s|p items q|p members q].
  - apply Hn.
  - apply Hb.
  - apply Hu.
  - apply Hs.
  - apply Ha. induction items as [|d items IHitems]; constructor; [apply IH | exact IHitems].
  - apply Ho. induction members as [|[k d] members IHm]; constructor; [apply IH | exact IHm].
Qed.

(** The members of an object, assigned in document order. *)
Definition assign_members (o : JsObject) (members : list (StringRun * Doc)) : JsObject :=
  fold_left (fun o m => Object_set o (text_of (fst m)) (denote (snd m))) members o.

Definition member_chunks (m : StringRun * Doc) : list JsonChunkWithPath :=
  string_chunks KEY (fst m) ++ chunks_of (snd m).

(** What a complete document does to the machine: its value is stored in the
    current state and completed there, once. *)
Definition completes (d : Doc) : Prop :=
  forall st cs,
    run st (chunks_of d ++ cs) =
    then_run (handleValueEnd
                (set_path_if_root (set_value st (Some (denote d))) (first_path d)))
             cs.

Lemma run_items items :
  Forall completes items ->
  forall a parent cs,
    run (ARRAY_ITEM a None parent) (flat_map chunks_of items ++ cs) =
    run (ARRAY_ITEM (a ++ map denote items) None parent) cs.
Proof.
  induction 1 as [|d items Hd _ IH]; intros a parent cs; simpl.
  - now rewrite app_nil_r.
  - rewrite <- app_assoc, Hd. simpl. rewrite then_run_nil_out, IH.
    now rewrite <- app_assoc.
Qed.

Lemma run_members members :
  Forall (fun m => completes (snd m)) members ->
  forall o parent cs,
    run (OBJECT_PROPERTY o "" None parent) (flat_map member_chunks members ++ cs) =
    run (OBJECT_PROPERTY (assign_members o members) "" None parent) cs.
Proof.
  induction 1 as [|[k d] members Hd _ IH]; intros o parent cs.
  - reflexivity.
  - change (flat_map member_chunks ((k, d) :: members))
      with ((string_chunks KEY k ++ chunks_of d) ++ flat_map member_chunks members).
    rewrite <- !app_assoc, run_string_key. simpl snd in Hd. rewrite Hd.
    cbn [set_value set_path_if_root handleValueEnd].
    rewrite then_run_nil_out. apply IH.
Qed.

Lemma run_chunks_of d : completes d.
Proof.
  induction d as [n p|b p|p|s|p items q IH|p members q IH] using Doc_induction;
    intros st cs.
  - simpl. now destruct (handleValueEnd _).
  - simpl. now destruct (handleValueEnd _).
  - simpl. now destruct (handleValueEnd _).
  - apply run_string_value.
  - simpl chunks_of. rewrite <- app_comm_cons, run_cons.
    unfold transform at 1; simpl chunk; cbv iota beta.
    rewrite then_run_nil_out, <- app_assoc, run_items by exact IH.
    simpl app. rewrite run_cons. unfold transform; simpl chunk; cbv iota beta.
    now rewrite set_value_set_path, set_value_set_value.
  - simpl chunks_of. rewrite <- app_comm_cons, run_cons.
    unfold transform at 1; simpl chunk; cbv iota beta.
    rewrite then_run_nil_out, <- app_assoc.
    fold member_chunks. rewrite run_members by exact IH.
    simpl app. rewrite run_cons. unfold transform; simpl chunk; cbv iota beta.
    now rewrite set_value_set_path, set_value_set_value.
Qed.

(** From a root state, a sequence of complete documents yields their results
    in order. *)
Lemma run_documents ds : forall p cs,
  run (ROOT None p) (flat_map chunks_of ds ++ cs) =
  then_run (ROOT None (last (map first_path ds) p), map result_of ds) cs.
Proof.
  induction ds as [|d ds IH]; intros p cs.
  - simpl. now rewrite then_run_nil_out.
  - change (flat_map chunks_of (d :: ds)) with (chunks_of d ++ flat_map chunks_of ds).
    rewrite <- app_assoc, run_chunks_of.
    cbn [set_value set_path_if_root handleValueEnd].
    unfold then_run at 1. cbn [fst snd]. rewrite IH.
    unfold then_run. cbn [fst snd].
    replace (last (map first_path (d :: ds)) p)
      with (last (map first_path ds) (first_path d))
      by (simpl; destruct (map first_path ds) as [|x l]; [reflexivity|];
          clear; revert x; induction l as [|y l IHl]; intros x;
          [reflexivity | apply (IHl y)]).
    destruct (run _ cs) as [[st' out']|]; reflexivity.
Qed.

(** ** States met from the initial state *)

(** Between two chunks the value under construction in the current frame is
    either absent or a string: every other value is completed by the chunk
    that produced it. *)
Definition value_is_text (st : State) : Prop :=
  match state_value st with
  | None | Some (JString _) => True
  | _ => False
  end.

Lemma handleValueEnd_value st : state_value (fst (handleValueEnd st)) = None.
Proof. now destruct st. Qed.

Lemma transform_total st c :
  value_is_text st ->
  exists st' out, transform st c = Some (st', out) /\ value_is_text st'.
Proof.
  unfold value_is_text. intros Hv.
  destruct c as [[| | | |role|role text|role|n|b|] p]; unfold transform; cbn [chunk chunk_path].
  - eexists _, _; split; [reflexivity | now simpl].
  - destruct st as [v q|o k v parent|a v parent];
      try (eexists _, _; split; [reflexivity | exact Hv]).
    destruct (handleValueEnd (set_value parent (Some (JObject o)))) as [st' out] eqn:E.
    exists st', out; split; [reflexivity|].
    change st' with (fst (st', out)). rewrite <- E. now rewrite handleValueEnd_value.
  - eexists _, _; split; [reflexivity | now simpl].
  - destruct st as [v q|o k v parent|a v parent];
      try (eexists _, _; split; [reflexivity | exact Hv]).
    destruct (handleValueEnd (set_value parent (Some (JArray a)))) as [st' out] eqn:E.
    exists st', out; split; [reflexivity|].
    change st' with (fst (st', out)). rewrite <- E. now rewrite handleValueEnd_value.
  - destruct role; eexists _, _; (split; [reflexivity|]); [exact Hv|].
    now rewrite state_value_set_path, state_value_set_value.
  - destruct role.
    + destruct st; eexists _, _; (split; [reflexivity | exact Hv]).
    + destruct (state_value st) as [[s|n|b| |o|a]|] eqn:E; try contradiction; simpl;
        eexists _, _; (split; [reflexivity|]); now rewrite state_value_set_value.
  - destruct role.
    + eexists _, _; split; [reflexivity | exact Hv].
    + destruct (handleValueEnd st) as [st' out] eqn:E.
      exists st', out; split; [reflexivity|].
      change st' with (fst (st', out)). rewrite <- E. now rewrite handleValueEnd_value.
  - destruct (handleValueEnd _) as [st' out] eqn:E.
    exists st', out; split; [reflexivity|].
    change st' with (fst (st', out)). rewrite <- E. now rewrite handleValueEnd_value.
  - destruct (handleValueEnd _) as [st' out] eqn:E.
    exists st', out; split; [reflexivity|].
    change st' with (fst (st', out)). rewrite <- E. now rewrite handleValueEnd_value.
  - destruct (handleValueEnd _) as [st' out] eqn:E.
    exists st', out; split; [reflexivity|].
    change st' with (fst (st', out)). rewrite <- E. now rewrite handleValueEnd_value.
Qed.

Lemma run_total cs : forall st,
  value_is_text st ->
  exists st' out, run st cs = Some (st', out) /\ value_is_text st'.
Proof.
  induction cs as [|c cs IH]; intros st Hv.
  - exists st, []. now split.
  - destruct (transform_total st c Hv) as (st1 & out1 & E1 & Hv1).
    destruct (IH st1 Hv1) as (st2 & out2 & E2 & Hv2).
    exists st2, (out1 ++ out2). split; [|exact Hv2].
    simpl. now rewrite E1, E2.
Qed.

(** From the initial state every input, well formed or not, is processed to
    its end: the one operation the embedding leaves out is never reached. *)
Lemma run_initial_total cs :
  exists st out, run initial_state cs = Some (st, out).
Proof.
  destruct (run_total cs initial_state I) as (st & out & E & _).
  now exists st, out.
Qed.

(** X2.  Whatever chunks are written, in whatever order, between two chunks
    the value under construction in the innermost frame is absent or a
    string.  So [+=] never meets an array or an object, whose conversion to
    a string could throw, and the materializer runs through every input. *)
Theorem materializer_processes_every_input (cs : list JsonChunkWithPath) :
  exists st outs,
    run initial_state cs = Some (st, outs) /\
    JsonDeserializer cs = Some outs /\
    value_is_text st.
Proof.
  destruct (run_total cs initial_state I) as (st & outs & E & Hv).
  exists st, outs. unfold JsonDeserializer. now rewrite E.
Qed.

(** ** The claims about complete input *)

(** C1.  For every well-formed chunk sequence that holds n complete
    root-level values back to back, the materializer delivers exactly n
    results, one per value and in input order; the path of each result is
    the path recorded on the first chunk of its value (and its value is the
    value the chunks stand for). *)
Theorem materializer_one_result_per_root_value (ds : list Doc) :
  JsonDeserializer (flat_map chunks_of ds) = Some (map result_of ds) /\
  List.length (map result_of ds) = List.length ds /\
  map path (map result_of ds) = map first_path ds.
Proof.
  split; [|split].
  - unfold JsonDeserializer, initial_state.
    rewrite <- (app_nil_r (flat_map chunks_of ds)), run_documents, then_run_nil.
    reflexivity.
  - apply length_map.
  - rewrite map_map. reflexivity.
Qed.

(** ** Chunks that do not fit the state *)

(** The chunks the specification calls structurally violating: an
    [OBJECT_END] outside [OBJECT_PROPERTY], an [ARRAY_END] outside
    [ARRAY_ITEM], a piece of a key outside [OBJECT_PROPERTY]. *)
Definition structural_violation (st : State) (c : JsonChunk) : bool :=
  match c, st with
  | OBJECT_END, OBJECT_PROPERTY _ _ _ _ => false
  | OBJECT_END, _ => true
  | ARRAY_END, ARRAY_ITEM _ _ _ => false
  | ARRAY_END, _ => true
  | STRING_CHUNK KEY _, OBJECT_PROPERTY _ _ _ _ => false
  | STRING_CHUNK KEY _, _ => true
  | _, _ => false
  end.

(** A chunk is fatal in a state when nothing is delivered any more once it
    has been met, whatever follows. *)
Definition fatal (st : State) (c : JsonChunkWithPath) : Prop :=
  forall cs st' out, run st (c :: cs) = Some (st', out) -> out = [].

(** C6, as the code has it.  A structurally violating chunk is skipped: the
    guard of its branch fails, no other branch takes it, the state is left
    as it was and nothing is enqueued; the chunks after it are processed as
    if it had not been there. *)
Theorem structural_violation_is_skipped st c p cs :
  structural_violation st c = true ->
  transform st (WithPath c p) = Some (st, []) /\
  run st (WithPath c p :: cs) = run st cs.
Proof.
  intros Hviol.
  assert (E : transform st (WithPath c p) = Some (st, [])).
  { destruct c as [| | | |role|role text|role|n|b|]; try discriminate;
      try (destruct role; try discriminate);
      destruct st; try discriminate; reflexivity. }
  split; [exact E|].
  rewrite run_cons, E. apply then_run_nil_out.
Qed.

(** ** String values *)

(** C7.  A string value delivered as a start chunk, any number of pieces and
    an end chunk yields the concatenation of the pieces, however the text is
    cut into pieces: two runs with the same text (and the same path on their
    first chunk) leave the machine in the same state with the same output.
    Value completion happens once, at the end chunk: up to there the state
    only holds the text, and nothing has been stored or enqueued. *)
Theorem string_value_independent_of_partition st (s s' : StringRun) :
  text_of s = text_of s' ->
  start_path s = start_path s' ->
  run st (string_chunks VALUE s) = run st (string_chunks VALUE s') /\
  run st (string_chunks VALUE s) =
    Some (handleValueEnd
            (set_path_if_root (set_value st (Some (JString (text_of s)))) (start_path s))) /\
  run st (removelast (string_chunks VALUE s)) =
    Some (set_path_if_root (set_value st (Some (JString (text_of s)))) (start_path s), []).
Proof.
  intros Htext Hpath.
  assert (Hrun : forall r,
    run st (string_chunks VALUE r) =
    Some (handleValueEnd
            (set_path_if_root (set_value st (Some (JString (text_of r)))) (start_path r)))).
  { intros r. rewrite <- (app_nil_r (string_chunks VALUE r)), run_string_value.
    apply then_run_nil. }
  split; [|split].
  - now rewrite !Hrun, Htext, Hpath.
  - apply Hrun.
  - unfold string_chunks. rewrite app_comm_cons, removelast_last.
    rewrite run_cons. unfold transform; simpl chunk; cbv iota beta.
    rewrite then_run_nil_out. fold (value_pieces (pieces s)).
    rewrite <- (app_nil_r (value_pieces (pieces s))).
    rewrite (run_value_pieces _ _ "")
      by (rewrite state_value_set_path; apply state_value_set_value).
    simpl run. now rewrite set_value_set_path, set_value_set_value.
Qed.

(** ** Incomplete input *)

(** Where a cut falls in the chunks of a sequence of items: after some
    complete items, and then either nowhere or strictly inside the next. *)
Lemma flat_map_cut {A B} (f : A -> list B) (l : list A) : forall pre post,
  flat_map f l = pre ++ post ->
  exists l1 l2 q,
    l = l1 ++ l2 /\ pre = flat_map f l1 ++ q /\
    (q = [] \/ exists x l2' r, l2 = x :: l2' /\ f x = q ++ r /\ r <> []).
Proof.
  induction l as [|x l IH]; intros pre post E.
  - simpl in E. symmetry in E. apply app_eq_nil in E as [-> ->].
    exists [], [], []. repeat split. now left.
  - simpl in E. apply app_eq_app in E as [m [[E1 E2]|[E1 E2]]].
    + (* the cut is inside [f x] or at its end *)
      destruct m as [|b m].
      * rewrite app_nil_r in E1. simpl in E2. subst post.
        exists [x], l, []. repeat split.
        -- simpl. now rewrite !app_nil_r.
        -- now left.
      * exists [], (x :: l), pre. repeat split.
        right. exists x, l, (b :: m). repeat split; [exact E1 | discriminate].
    + (* the cut is after [f x] *)
      destruct (IH _ _ E2) as (l1 & l2 & q & -> & -> & Hq).
      exists (x :: l1), l2, q. repeat split.
      * subst pre. simpl. now rewrite app_assoc.
      * exact Hq.
Qed.

Definition is_value_piece (c : JsonChunkWithPath) : Prop :=
  exists text, chunk c = STRING_CHUNK VALUE text.

Definition is_key_chunk (c : JsonChunkWithPath) : Prop :=
  match chunk c with
  | STRING_START KEY | STRING_CHUNK KEY _ | STRING_END KEY => True
  | _ => False
  end.

Lemma value_pieces_quiet q : forall st acc,
  Forall is_value_piece q ->
  state_value st = Some (JString acc) ->
  exists st', run st q = Some (st', []).
Proof.
  induction q as [|c q IH]; intros st acc Hq Hv.
  - now exists st.
  - inversion Hq as [|? ? [text Hc] Hq']; subst.
    rewrite run_cons. unfold transform. rewrite Hc, Hv. simpl.
    rewrite then_run_nil_out.
    apply (IH _ (acc ++ text)%string Hq'), state_value_set_value.
Qed.

Lemma key_chunks_quiet q : forall o k v parent,
  Forall is_key_chunk q ->
  exists k', run (OBJECT_PROPERTY o k v parent) q = Some (OBJECT_PROPERTY o k' v parent, []).
Proof.
  induction q as [|c q IH]; intros o k v parent Hq.
  - now exists k.
  - inversion Hq as [|? ? Hc Hq']; subst.
    rewrite run_cons. unfold transform. unfold is_key_chunk in Hc.
    destruct (chunk c) as [| | | |[|]|[|] text|[|]|n|b|]; try contradiction;
      rewrite then_run_nil_out; apply IH, Hq'.
Qed.

Lemma Forall_prefix {A} (P : A -> Prop) (pre post : list A) :
  Forall P (pre ++ post) -> Forall P pre.
Proof. intros H. now apply Forall_app in H. Qed.

Lemma string_chunks_key_are_key_chunks s : Forall is_key_chunk (string_chunks KEY s).
Proof.
  unfold string_chunks. constructor; [exact I|].
  apply Forall_app; split.
  - apply Forall_forall. intros c Hc. apply in_map_iff in Hc as (tp & <- & _). exact I.
  - constructor; [exact I | constructor].
Qed.

(** A cut that leaves the last chunk out is a cut of what comes before it. *)
Lemma cut_before_last {A} (xs : list A) (e : A) pre post :
  xs ++ [e] = pre ++ post -> post <> [] ->
  exists post', post = post' ++ [e] /\ xs = pre ++ post'.
Proof.
  intros E Hpost.
  destruct (exists_last Hpost) as (post' & e' & ->).
  rewrite app_assoc in E. apply app_inj_tail in E as [E ->].
  now exists post'.
Qed.

(** What a proper beginning of a document does: the machine takes it without
    failing and without enqueueing anything. *)
Definition quiet_when_cut (d : Doc) : Prop :=
  forall st pre post,
    chunks_of d = pre ++ post -> post <> [] ->
    exists st', run st pre = Some (st', []).

Lemma string_value_quiet_when_cut s : quiet_when_cut (DString s).
Proof.
  intros st pre post E Hpost. simpl in E. unfold string_chunks in E.
  destruct pre as [|c pre].
  - now exists st.
  - simpl in E. injection E as <- E.
    apply cut_before_last in E as (post' & -> & E); [|exact Hpost].
    rewrite run_cons. unfold transform; simpl chunk; cbv iota beta.
    rewrite then_run_nil_out.
    apply (value_pieces_quiet pre _ "").
    + apply (Forall_prefix _ pre post'). rewrite <- E.
      apply Forall_forall. intros c Hc. apply in_map_iff in Hc as (tp & <- & _).
      now exists (fst tp).
    + rewrite state_value_set_path. apply state_value_set_value.
Qed.

Lemma items_quiet_when_cut items :
  Forall quiet_when_cut items ->
  forall a parent pre post,
    flat_map chunks_of items = pre ++ post ->
    exists st', run (ARRAY_ITEM a None parent) pre = Some (st', []).
Proof.
  intros Hitems a parent pre post E.
  apply flat_map_cut in E as (l1 & l2 & q & -> & -> & Hq).
  rewrite run_items by (apply Forall_forall; intros; apply run_chunks_of).
  destruct Hq as [->|(x & l2' & r & -> & Ex & Hr)].
  - eexists. reflexivity.
  - apply Forall_app in Hitems as [_ Hx]. inversion Hx as [|? ? Hx' _]; subst.
    apply (Hx' _ q r Ex Hr).
Qed.

Lemma members_quiet_when_cut members :
  Forall (fun m => quiet_when_cut (snd m)) members ->
  forall o parent pre post,
    flat_map member_chunks members = pre ++ post ->
    exists st', run (OBJECT_PROPERTY o "" None parent) pre = Some (st', []).
Proof.
  intros Hm o parent pre post E.
  apply flat_map_cut in E as (l1 & l2 & q & -> & -> & Hq).
  rewrite run_members by (apply Forall_forall; intros; apply run_chunks_of).
  destruct Hq as [->|([k d] & l2' & r & -> & Ex & Hr)].
  - eexists. reflexivity.
  - apply Forall_app in Hm as [_ Hx]. inversion Hx as [|? ? Hd _]; subst.
    cbn [snd] in Hd. unfold member_chunks in Ex; cbn [fst snd] in Ex.
    apply app_eq_app in Ex as [m [[E1 E2]|[E1 E2]]].
    + (* the cut is inside the key *)
      destruct (key_chunks_quiet q (assign_members o l1) "" None parent) as [k' Hk'].
      { apply (Forall_prefix _ q m). rewrite <- E1.
        apply string_chunks_key_are_key_chunks. }
      eexists. exact Hk'.
    + (* the cut is inside the value *)
      subst q. rewrite run_string_key.
      apply (Hd _ m r); [exact E2 | exact Hr].
Qed.

Lemma document_quiet_when_cut d : quiet_when_cut d.
Proof.
  induction d as [n p|b p|p|s|p items q IH|p members q IH] using Doc_induction.
  1-3: intros st pre post E Hpost; simpl in E;
    destruct pre as [|c pre]; [now exists st|];
    injection E as _ E; symmetry in E; apply app_eq_nil in E as [_ ->];
    now contradiction Hpost.
  - apply string_value_quiet_when_cut.
  - intros st pre post E Hpost. simpl in E.
    destruct pre as [|c pre]; [now exists st|].
    simpl in E. injection E as <- E.
    apply cut_before_last in E as (post' & -> & E); [|exact Hpost].
    rewrite run_cons. unfold transform; simpl chunk; cbv iota beta.
    rewrite then_run_nil_out.
    apply (items_quiet_when_cut items IH _ _ pre post' E).
  - intros st pre post E Hpost. simpl in E.
    destruct pre as [|c pre]; [now exists st|].
    simpl in E. injection E as <- E.
    apply cut_before_last in E as (post' & -> & E); [|exact Hpost].
    rewrite run_cons. unfold transform; simpl chunk; cbv iota beta.
    rewrite then_run_nil_out.
    apply (members_quiet_when_cut members IH _ _ pre post' E).
Qed.

(** The chunks that complete a root-level value: a primitive or the end of
    a string met in [ROOT], and the end chunk that leaves a container whose
    parent is [ROOT]. *)
Definition completes_root_value (st : State) (c : JsonChunk) : Prop :=
  match st, c with
  | ROOT _ _, (NUMBER_VALUE _ | BOOLEAN_VALUE _ | NULL_VALUE | STRING_END VALUE) => True
  | OBJECT_PROPERTY _ _ _ (ROOT _ _), OBJECT_END => True
  | ARRAY_ITEM _ _ (ROOT _ _), ARRAY_END => True
  | _, _ => False
  end.

Lemma handleValueEnd_emits st st' out :
  handleValueEnd st = (st', out) -> out <> [] ->
  exists v p w, st = ROOT w p /\ out = [Emit v p] /\ st' = ROOT None p.
Proof.
  destruct st as [[v|] p|o k v parent|a v parent]; simpl; intros [= <- <-] Hout;
    try now contradiction Hout.
  now exists v, p, (Some v).
Qed.

Lemma emission_completes_root_value st c st' out :
  transform st c = Some (st', out) -> out <> [] ->
  completes_root_value st (chunk c) /\
  exists v p, out = [Emit v p] /\ st' = ROOT None p.
Proof.
  intros E Hout. unfold transform in E.
  destruct (chunk c) as [| | | |role|role text|role|n|b|].
  - injection E as <- <-. now contradiction Hout.
  - destruct st as [w p|o k w parent|a w parent];
      try (injection E as <- <-; now contradiction Hout).
    injection E as E.
    destruct (handleValueEnd_emits _ _ _ E Hout) as (v & p & w' & Hp & -> & ->).
    destruct parent; try discriminate. split; [exact I | now exists v, p].
  - injection E as <- <-. now contradiction Hout.
  - destruct st as [w p|o k w parent|a w parent];
      try (injection E as <- <-; now contradiction Hout).
    injection E as E.
    destruct (handleValueEnd_emits _ _ _ E Hout) as (v & p & w' & Hp & -> & ->).
    destruct parent; try discriminate. split; [exact I | now exists v, p].
  - destruct role; injection E as <- <-; now contradiction Hout.
  - destruct role.
    + destruct st; injection E as <- <-; now contradiction Hout.
    + destruct (plus_assign _ _); [|discriminate].
      injection E as <- <-. now contradiction Hout.
  - destruct role; [injection E as <- <-; now contradiction Hout|].
    injection E as E.
    destruct (handleValueEnd_emits _ _ _ E Hout) as (v & p & w' & -> & -> & ->).
    split; [exact I | now exists v, p].
  - injection E as E.
    destruct (handleValueEnd_emits _ _ _ E Hout) as (v & p & w' & Hp & -> & ->).
    destruct st; try discriminate. split; [exact I | now exists v, p].
  - injection E as E.
    destruct (handleValueEnd_emits _ _ _ E Hout) as (v & p & w' & Hp & -> & ->).
    destruct st; try discriminate. split; [exact I | now exists v, p].
  - injection E as E.
    destruct (handleValueEnd_emits _ _ _ E Hout) as (v & p & w' & Hp & -> & ->).
    destruct st; try discriminate. split; [exact I | now exists v, p].
Qed.

Lemma firstn_app_exact {A} (l1 l2 : list A) : firstn (List.length l1) (l1 ++ l2) = l1.
Proof.
  induction l1 as [|x l1 IH]; simpl; [now destruct l2 | now rewrite IH].
Qed.

(** C5.  No partially built value is ever delivered.  Whatever the input, a
    chunk makes the materializer enqueue something only if it completes a
    root-level value, and then exactly that one value is enqueued and the
    machine is back in [ROOT] with nothing under construction.  And on
    well-formed input, after any beginning [pre] of the chunk sequence, what
    has been delivered are the results of the first k root-level values,
    whose chunks lie entirely within [pre]. *)
Theorem no_partial_value_is_emitted :
  (forall st c st' out,
      transform st c = Some (st', out) -> out <> [] ->
      completes_root_value st (chunk c) /\
      exists v p, out = [Emit v p] /\ st' = ROOT None p) /\
  (forall ds pre post,
      flat_map chunks_of ds = pre ++ post ->
      exists k q,
        pre = flat_map chunks_of (firstn k ds) ++ q /\
        JsonDeserializer pre = Some (map result_of (firstn k ds))).
Proof.
  split; [exact emission_completes_root_value|].
  intros ds pre post E.
  apply flat_map_cut in E as (l1 & l2 & q & -> & -> & Hq).
  exists (List.length l1), q. rewrite firstn_app_exact. split; [reflexivity|].
  unfold JsonDeserializer, initial_state. rewrite run_documents.
  destruct Hq as [->|(x & l2' & r & -> & Ex & Hr)].
  - now rewrite then_run_nil.
  - destruct (document_quiet_when_cut x (ROOT None (last (map first_path l1) (Some []))) q r Ex Hr)
      as [st' Hrun].
    unfold then_run. cbn [fst snd]. rewrite Hrun. now rewrite app_nil_r.
Qed.

(** ** Objects *)

(** The keys of a sequence of assignments, each at the place of its first
    occurrence. *)
Definition add_key (ks : list string) (k : string) : list string :=
  if existsb (String.eqb k) ks then ks else ks ++ [k].

Definition first_occurrences (ks : list string) : list string :=
  fold_left add_key ks [].

Definition member_key (m : StringRun * Doc) : string := text_of (fst m).

(** The value of the last member named [k], if there is one. *)
Definition last_value (members : list (StringRun * Doc)) (k : string) : option JsonValue :=
  fold_left (fun acc m => if String.eqb (member_key m) k then Some (denote (snd m)) else acc)
            members None.

Lemma lookup_update {V} (ps : list (string * V)) k v k' :
  lookup (update ps k v) k' =
  if String.eqb k k' then match lookup ps k with Some _ => Some v | None => None end
  else lookup ps k'.
Proof.
  induction ps as [|[k0 v0] ps IH]; simpl.
  - now destruct (String.eqb k k').
  - destruct (String.eqb k0 k) eqn:E0; simpl.
    + apply String.eqb_eq in E0 as ->.
      destruct (String.eqb k k') eqn:E; [reflexivity|]. reflexivity.
    + destruct (String.eqb k0 k') eqn:E1.
      * apply String.eqb_eq in E1 as ->.
        rewrite String.eqb_sym, E0. reflexivity.
      * exact IH.
Qed.

Lemma lookup_app_one {V} (ps : list (string * V)) k v k' :
  lookup (ps ++ [(k, v)]) k' =
  match lookup ps k' with
  | Some x => Some x
  | None => if String.eqb k k' then Some v else None
  end.
Proof.
  induction ps as [|[k0 v0] ps IH]; simpl; [reflexivity|].
  now destruct (String.eqb k0 k').
Qed.

Lemma map_fst_update {V} (ps : list (string * V)) k v :
  map fst (update ps k v) = map fst ps.
Proof.
  induction ps as [|[k0 v0] ps IH]; simpl; [reflexivity|].
  destruct (String.eqb k0 k); simpl; [reflexivity | now rewrite IH].
Qed.

Lemma lookup_existsb {V} (ps : list (string * V)) k :
  match lookup ps k with Some _ => true | None => false end
  = existsb (String.eqb k) (map fst ps).
Proof.
  induction ps as [|[k0 v0] ps IH]; simpl; [reflexivity|].
  rewrite (String.eqb_sym k k0). now destruct (String.eqb k0 k).
Qed.

(** Assignment to a key other than [__proto__] touches only the own
    properties: the named property is overwritten in place or created after
    the others. *)
Lemma Object_set_plain o k v :
  k <> "__proto__" ->
  proto (Object_set o k v) = proto o /\
  created_keys (Object_set o k v) = add_key (created_keys o) k /\
  forall k', own_property (Object_set o k v) k' =
             if String.eqb k k' then Some v else own_property o k'.
Proof.
  intros Hk. apply String.eqb_neq in Hk.
  unfold Object_set, add_key, created_keys, has_own_property, own_property.
  rewrite Hk; simpl andb; cbv iota.
  rewrite <- lookup_existsb.
  destruct (lookup (props o) k) as [x|] eqn:E; simpl.
  - repeat split; [apply map_fst_update|].
    intros k'. rewrite lookup_update, E. reflexivity.
  - repeat split.
    + now rewrite map_app.
    + intros k'. rewrite lookup_app_one.
      destruct (String.eqb k k') eqn:E'.
      * apply String.eqb_eq in E' as <-. now rewrite E.
      * now destruct (lookup (props o) k').
Qed.

(** The same for any key, when the assignment does not go through the
    accessor: the object has the property already, or does not inherit the
    accessor, or the key is another. *)
Lemma Object_set_stores o k v :
  k <> "__proto__" \/ has_own_property o k = true \/ inherits_proto_accessor (proto o) = false ->
  proto (Object_set o k v) = proto o /\
  created_keys (Object_set o k v) = add_key (created_keys o) k /\
  forall k', own_property (Object_set o k v) k' =
             if String.eqb k k' then Some v else own_property o k'.
Proof.
  intros [Hk|[Hown|Hinh]]; [now apply Object_set_plain|..].
  - unfold Object_set, add_key, created_keys, has_own_property, own_property in *.
    rewrite <- lookup_existsb.
    destruct (lookup (props o) k) as [x|] eqn:E; [|discriminate]. simpl.
    repeat split; [apply map_fst_update|].
    intros k'. rewrite lookup_update, E. reflexivity.
  - unfold Object_set, add_key, created_keys, has_own_property, own_property.
    rewrite Hinh, andb_false_r. rewrite <- lookup_existsb.
    destruct (lookup (props o) k) as [x|] eqn:E; simpl.
    + repeat split; [apply map_fst_update|].
      intros k'. rewrite lookup_update, E. reflexivity.
    + repeat split.
      * now rewrite map_app.
      * intros k'. rewrite lookup_app_one.
        destruct (String.eqb k k') eqn:E'.
        -- apply String.eqb_eq in E' as <-. now rewrite E.
        -- now destruct (lookup (props o) k').
Qed.

(** C2.  Value completion in each of the three states.  In [ROOT] the value
    is enqueued with the recorded path, if there is one, and the value is
    reset.  In [ARRAY_ITEM] the value, if there is one, becomes the last
    item of the array, and the value is reset.  In [OBJECT_PROPERTY] key and
    value are reset, no other property changes, and the value, if there is
    one, is afterwards the own property of the object under the key built so
    far, with one exception: under the key [__proto__], on an object that
    has no own property of that name and inherits the accessor, the
    assignment [object[key] = value] creates no property and the value is
    not stored under its key.  That is the case of [{"__proto__": false}]
    on a host with the accessor. *)
Theorem handleValueEnd_stores_under_the_key_unless_proto :
  (forall x p, handleValueEnd (ROOT (Some x) p) = (ROOT None p, [Emit x p])) /\
  (forall p, handleValueEnd (ROOT None p) = (ROOT None p, [])) /\
  (forall a x parent,
      handleValueEnd (ARRAY_ITEM a (Some x) parent) = (ARRAY_ITEM (a ++ [x]) None parent, [])) /\
  (forall a parent,
      handleValueEnd (ARRAY_ITEM a None parent) = (ARRAY_ITEM a None parent, [])) /\
  (forall o k parent,
      handleValueEnd (OBJECT_PROPERTY o k None parent) = (OBJECT_PROPERTY o "" None parent, [])) /\
  (forall o k x parent,
      exists o',
        handleValueEnd (OBJECT_PROPERTY o k (Some x) parent)
          = (OBJECT_PROPERTY o' "" None parent, []) /\
        (forall k', k' <> k -> own_property o' k' = own_property o k') /\
        (k <> "__proto__" \/ has_own_property o k = true
         \/ inherits_proto_accessor (proto o) = false ->
         own_property o' k = Some x /\ proto o' = proto o /\
         created_keys o' = add_key (created_keys o) k) /\
        (k = "__proto__" -> has_own_property o k = false ->
         inherits_proto_accessor (proto o) = true ->
         own_property o' k = None /\ props o' = props o)) /\
  (legacy_proto_accessor = true ->
   forall b parent,
     handleValueEnd (OBJECT_PROPERTY empty_object "__proto__" (Some (JBoolean b)) parent)
       = (OBJECT_PROPERTY empty_object "" None parent, []) /\
     own_property empty_object "__proto__" = None).
Proof.
  split; [reflexivity|]. split; [reflexivity|]. split; [reflexivity|].
  split; [reflexivity|]. split; [reflexivity|]. split.
  - intros o k x parent. exists (Object_set o k x).
    split; [reflexivity|]. split; [|split].
    + intros k' Hk'.
      destruct (String.eqb k "__proto__" && inherits_proto_accessor (proto o))%bool eqn:Eacc;
        destruct (has_own_property o k) eqn:Eown.
      * destruct (Object_set_stores o k x (or_intror (or_introl Eown))) as (_ & _ & H).
        rewrite H. apply String.eqb_neq in Hk'. now rewrite String.eqb_sym, Hk'.
      * unfold Object_set. rewrite Eown, Eacc. unfold own_property.
        destruct o as [P ps]. now destruct x.
      * destruct (Object_set_stores o k x (or_intror (or_introl Eown))) as (_ & _ & H).
        rewrite H. apply String.eqb_neq in Hk'. now rewrite String.eqb_sym, Hk'.
      * apply andb_false_iff in Eacc as [Ek|Einh].
        -- apply String.eqb_neq in Ek.
           destruct (Object_set_stores o k x (or_introl Ek)) as (_ & _ & H).
           rewrite H. apply String.eqb_neq in Hk'. now rewrite String.eqb_sym, Hk'.
        -- destruct (Object_set_stores o k x (or_intror (or_intror Einh))) as (_ & _ & H).
           rewrite H. apply String.eqb_neq in Hk'. now rewrite String.eqb_sym, Hk'.
    + intros Hstored. destruct (Object_set_stores o k x Hstored) as (Hp & Hc & H).
      split; [|split; [exact Hp | exact Hc]]. now rewrite H, String.eqb_refl.
    + intros -> Hown Hinh. unfold Object_set. rewrite Hown, Hinh. simpl.
      unfold has_own_property, own_property in *.
      destruct o as [P ps]. cbn [props] in *.
      destruct (lookup ps "__proto__") eqn:E; [discriminate|].
      now destruct x.
  - intros Hhost b parent. unfold handleValueEnd, Object_set. simpl. now rewrite Hhost.
Qed.

Lemma assign_members_plain members : forall o,
  Forall (fun m => member_key m <> "__proto__") members ->
  proto (assign_members o members) = proto o /\
  created_keys (assign_members o members)
    = fold_left add_key (map member_key members) (created_keys o) /\
  forall k, own_property (assign_members o members) k =
            fold_left (fun acc m => if String.eqb (member_key m) k
                                    then Some (denote (snd m)) else acc)
                      members (own_property o k).
Proof.
  induction members as [|m members IH]; intros o Hm.
  - now repeat split.
  - inversion Hm as [|? ? Hk Hm']; subst.
    destruct (Object_set_plain o (member_key m) (denote (snd m)) Hk) as (Hp & Hc & Ho).
    destruct (IH (Object_set o (member_key m) (denote (snd m))) Hm') as (Hp' & Hc' & Ho').
    unfold assign_members in *. simpl fold_left.
    fold (member_key m).
    repeat split.
    + now rewrite Hp', Hp.
    + now rewrite Hc', Hc.
    + intros k. now rewrite Ho', Ho.
Qed.

Lemma existsb_eqb_In k ks : existsb (String.eqb k) ks = true <-> In k ks.
Proof.
  rewrite existsb_exists. split.
  - intros (x & Hx & E). apply String.eqb_eq in E. now subst.
  - intros H. exists k. split; [exact H | apply String.eqb_refl].
Qed.

Lemma add_key_spec ks k :
  (NoDup ks -> NoDup (add_key ks k)) /\
  (forall k', In k' (add_key ks k) <-> In k' ks \/ k' = k).
Proof.
  unfold add_key. destruct (existsb (String.eqb k) ks) eqn:E.
  - apply existsb_eqb_In in E. split; [trivial|].
    intros k'. split; [now left | intros [H| ->]; assumption].
  - split.
    + intros Hnd. apply NoDup_app; [exact Hnd | repeat constructor; now intros [] |].
      intros x Hx [<-|[]]. apply existsb_eqb_In in Hx. congruence.
    + intros k'. rewrite in_app_iff. simpl. intuition.
Qed.

Lemma fold_add_key_spec ks : forall init,
  (NoDup init -> NoDup (fold_left add_key ks init)) /\
  (forall k, In k (fold_left add_key ks init) <-> In k init \/ In k ks).
Proof.
  induction ks as [|k0 ks IH]; intros init; simpl.
  - split; [trivial | intuition].
  - destruct (IH (add_key init k0)) as [Hnd Hin].
    destruct (add_key_spec init k0) as [Hnd0 Hin0].
    split; [auto|].
    intros k. rewrite Hin, Hin0. intuition.
Qed.

(** *** The order of [Object.keys] *)

Lemma insert_index_perm i k l : Permutation (insert_index i k l) ((i, k) :: l).
Proof.
  induction l as [|[j k'] l IH]; simpl; [reflexivity|].
  destruct (i <=? j)%N; [reflexivity|].
  rewrite IH. apply perm_swap.
Qed.

Lemma sort_indices_perm l : Permutation (sort_indices l) l.
Proof.
  induction l as [|[i k] l IH]; simpl; [reflexivity|].
  rewrite insert_index_perm. now constructor.
Qed.

Lemma insert_index_sorted i k l :
  StronglySorted N.le (map fst l) ->
  StronglySorted N.le (map fst (insert_index i k l)).
Proof.
  induction l as [|[j k'] l IH]; simpl; intros Hs.
  - repeat constructor.
  - inversion Hs as [|? ? Hs' Hall]; subst.
    destruct (i <=? j)%N eqn:E; simpl.
    + apply N.leb_le in E. constructor; [exact Hs|].
      constructor; [exact E|].
      eapply Forall_impl; [|exact Hall]. intros x Hx. simpl in Hx. lia.
    + apply N.leb_gt in E. constructor; [now apply IH|].
      assert (Hperm : Permutation (map fst (insert_index i k l)) (i :: map fst l))
        by (rewrite insert_index_perm; reflexivity).
      apply Forall_forall. intros x Hx.
      apply (Permutation_in _ Hperm) in Hx as [<-|Hx]; [lia|].
      rewrite Forall_forall in Hall. now apply Hall.
Qed.

Lemma sort_indices_sorted l : StronglySorted N.le (map fst (sort_indices l)).
Proof.
  induction l as [|[i k] l IH]; simpl; [constructor | now apply insert_index_sorted].
Qed.

Lemma index_keys_spec ks :
  map snd (index_keys ks) = filter is_array_index ks /\
  Forall (fun ik => array_index (snd ik) = Some (fst ik)) (index_keys ks).
Proof.
  induction ks as [|k ks [IH1 IH2]]; simpl; [now split|].
  unfold is_array_index. destruct (array_index k) as [i|] eqn:E; simpl.
  - split; [now rewrite IH1 | now constructor].
  - now split.
Qed.

Lemma filter_split_perm {A} (f : A -> bool) (l : list A) :
  Permutation (filter f l ++ filter (fun x => negb (f x)) l) l.
Proof.
  induction l as [|x l IH]; simpl; [reflexivity|].
  destruct (f x); simpl.
  - now constructor.
  - rewrite <- Permutation_middle. now constructor.
Qed.

(** [Object.keys] lists every own property once. *)
Lemma Object_keys_perm o : Permutation (Object_keys o) (created_keys o).
Proof.
  unfold Object_keys.
  rewrite (sort_indices_perm (index_keys (created_keys o))).
  destruct (index_keys_spec (created_keys o)) as [-> _].
  apply filter_split_perm.
Qed.

(** C4, as the code has it.  In the object built from members none of which
    is named [__proto__], every key is listed once by [Object.keys]; the
    keys listed are those of the members; the value under a key is that of
    the last member with that key; and the order is: first the keys that are
    array indices, in ascending numeric order, then the other keys in the
    order in which they first occur among the members. *)
Theorem object_keys_and_last_write p members q :
  Forall (fun m => member_key m <> "__proto__") members ->
  exists o,
    JsonDeserializer (chunks_of (DObject p members q)) = Some [Emit (JObject o) p] /\
    NoDup (Object_keys o) /\
    (forall k, In k (Object_keys o) <-> In k (map member_key members)) /\
    (forall k, own_property o k = last_value members k) /\
    exists indices,
      Object_keys o =
        map snd indices
        ++ filter (fun k => negb (is_array_index k))
                  (first_occurrences (map member_key members)) /\
      StronglySorted N.le (map fst indices) /\
      Forall (fun ik => array_index (snd ik) = Some (fst ik)) indices.
Proof.
  intros Hm.
  exists (assign_members empty_object members).
  destruct (assign_members_plain members empty_object Hm) as (_ & Hkeys & Hown).
  destruct (fold_add_key_spec (map member_key members) []) as [Hnd Hin].
  simpl created_keys in Hkeys.
  split; [|split; [|split; [|split]]].
  - pose proof (materializer_one_result_per_root_value [DObject p members q]) as [H _].
    simpl flat_map in H. rewrite app_nil_r in H. exact H.
  - apply (Permutation_NoDup (l := created_keys (assign_members empty_object members))).
    + symmetry. apply Object_keys_perm.
    + rewrite Hkeys. apply Hnd. constructor.
  - intros k. split; intros H.
    + apply (Permutation_in _ (Object_keys_perm _)) in H.
      rewrite Hkeys in H. apply Hin in H as [[]|H]. exact H.
    + apply (Permutation_in _ (Permutation_sym (Object_keys_perm _))).
      rewrite Hkeys. apply Hin. now right.
  - intros k. rewrite Hown. reflexivity.
  - exists (sort_indices (index_keys (created_keys (assign_members empty_object members)))).
    split; [|split].
    + unfold Object_keys. now rewrite Hkeys.
    + apply sort_indices_sorted.
    + apply (Permutation_Forall (Permutation_sym (sort_indices_perm _))).
      apply index_keys_spec.
Qed.

End Materializer.

(** * Lists updated in place *)

(** [l[i] = f(l[i])], and nothing when [i] is out of range. *)
Fixpoint update_nth {A} (i : nat) (f : A -> A) (l : list A) : list A :=
  match l, i with
  | [], _ => []
  | x :: l', O => f x :: l'
  | x :: l', S i' => x :: update_nth i' f l'
  end.

Lemma update_nth_length {A} (f : A -> A) (l : list A) : forall i,
  List.length (update_nth i f l) = List.length l.
Proof.
  induction l as [|x l IH]; intros [|i]; simpl; auto.
Qed.

Lemma nth_error_update_nth {A} (f : A -> A) l : forall j i,
  nth_error (update_nth j f l) i =
  if Nat.eqb i j then option_map f (nth_error l i) else nth_error l i.
Proof.
  induction l as [|x l IH]; intros [|j] [|i]; simpl; try reflexivity.
  - now destruct (Nat.eqb i j).
  - apply IH.
Qed.

Lemma nth_error_snoc {A} (l : list A) (x : A) i y :
  nth_error (l ++ [x]) i = Some y ->
  (i < List.length l /\ nth_error l i = Some y) \/ (i = List.length l /\ y = x).
Proof.
  intros H. destruct (Nat.lt_ge_cases i (List.length l)) as [Hlt|Hge].
  - left. split; [exact Hlt|]. now rewrite nth_error_app1 in H.
  - right. rewrite nth_error_app2 in H by exact Hge.
    destruct (i - List.length l) as [|k] eqn:E; simpl in H.
    + split; [lia | congruence].
    + now destruct k.
Qed.

(** * The materializer over a heap *)

(** In the program, arrays and objects are heap objects and the state holds
    references to them: the container a frame fills is the very object its
    parent holds as [value].  This section gives the materializer with the
    heap made explicit, where leaving a frame is, as in the source, just
    [this.state = this.state.parent], and shows that it delivers what
    [transform] delivers. *)

Section Heap.

Context {host : Host}.

(** A value as the program holds it: a primitive, or the address of an
    object or of an array. *)
Inductive Reference : Type :=
| RString (s : string)
| RNumber (n : number)
| RBoolean (b : bool)
| RNull
| RObject (a : nat)
| RArray (a : nat).

Inductive HeapPrototype : Type :=
| HObjectPrototype
| HNullPrototype
| HValuePrototype (r : Reference).

Inductive HeapObject : Type :=
| HObject (p : HeapPrototype) (ps : list (string * Reference))
| HArray (items : list Reference).

(** The heap: the objects allocated so far; an address is a position. *)
Definition Heap : Type := list HeapObject.

(** [AnyState] with references. *)
Inductive HeapState : Type :=
| HROOT (value : option Reference) (path : option JsonPath)
| HOBJECT_PROPERTY (object : nat) (key : string) (value : option Reference)
    (parent : HeapState)
| HARRAY_ITEM (array : nat) (value : option Reference) (parent : HeapState).

Definition heap_state_value (st : HeapState) : option Reference :=
  match st with
  | HROOT v _ => v
  | HOBJECT_PROPERTY _ _ v _ => v
  | HARRAY_ITEM _ v _ => v
  end.

Definition heap_set_value (st : HeapState) (v : option Reference) : HeapState :=
  match st with
  | HROOT _ p => HROOT v p
  | HOBJECT_PROPERTY o k _ parent => HOBJECT_PROPERTY o k v parent
  | HARRAY_ITEM a _ parent => HARRAY_ITEM a v parent
  end.

Definition heap_set_path_if_root (st : HeapState) (p : option JsonPath) : HeapState :=
  match st with
  | HROOT v _ => HROOT v p
  | _ => st
  end.

(** Whether the lookup of [__proto__] that starts at [r] ends at the
    accessor; [fuel] bounds the length of the prototype chain. *)
Fixpoint heap_reaches_proto_accessor (fuel : nat) (h : Heap) (r : Reference) : bool :=
  match fuel with
  | O => false
  | S fuel' =>
      match r with
      | RObject a =>
          match nth_error h a with
          | Some (HObject p ps) =>
              match lookup ps "__proto__" with
              | Some _ => false
              | None =>
                  match p with
                  | HObjectPrototype => legacy_proto_accessor
                  | HNullPrototype => false
                  | HValuePrototype r' => heap_reaches_proto_accessor fuel' h r'
                  end
              end
          | _ => false
          end
      | RArray _ => legacy_proto_accessor
      | _ => false
      end
  end.

Definition heap_inherits_proto_accessor (h : Heap) (p : HeapPrototype) : bool :=
  match p with
  | HObjectPrototype => legacy_proto_accessor
  | HNullPrototype => false
  | HValuePrototype r => heap_reaches_proto_accessor (List.length h) h r
  end.

Definition heap_set_prototype (p : HeapPrototype) (r : Reference) : HeapPrototype :=
  match r with
  | RObject _ | RArray _ => HValuePrototype r
  | RNull => HNullPrototype
  | _ => p
  end.

(** [o[k] = r] on the object at an address. *)
Definition heap_assign (h : Heap) (k : string) (r : Reference) (o : HeapObject) : HeapObject :=
  match o with
  | HObject p ps =>
      match lookup ps k with
      | Some _ => HObject p (update ps k r)
      | None =>
          if (String.eqb k "__proto__" && heap_inherits_proto_accessor h p)%bool
          then HObject (heap_set_prototype p r) ps
          else HObject p (ps ++ [(k, r)])
      end
  | HArray _ => o
  end.

(** [a.push(r)] on the array at an address. *)
Definition heap_push (r : Reference) (o : HeapObject) : HeapObject :=
  match o with
  | HArray items => HArray (items ++ [r])
  | HObject _ _ => o
  end.

Definition heap_handleValueEnd (h : Heap) (st : HeapState)
  : Heap * HeapState * list (Reference * option JsonPath) :=
  match st with
  | HROOT v p =>
      (h, HROOT None p,
       match v with
       | Some x => [(x, p)]
       | None => []
       end)
  | HOBJECT_PROPERTY o k v parent =>
      (match v with
       | Some x => update_nth o (heap_assign h k x) h
       | None => h
       end, HOBJECT_PROPERTY o "" None parent, [])
  | HARRAY_ITEM a v parent =>
      (match v with
       | Some x => update_nth a (heap_push x) h
       | None => h
       end, HARRAY_ITEM a None parent, [])
  end.

Definition heap_plus_assign (value : option Reference) (text : string) : option Reference :=
  match value with
  | None => Some (RString ("undefined" ++ text))
  | Some (RString s) => Some (RString (s ++ text))
  | Some (RNumber n) => Some (RString (Number_toString n ++ text))
  | Some (RBoolean b) => Some (RString (Boolean_toString b ++ text))
  | Some RNull => Some (RString ("null" ++ text))
  | Some (RObject _) | Some (RArray _) => None
  end.

(** [transform], line by line: [ARRAY_START] and [OBJECT_START] allocate
    the container, store its address in [state.value] and hand the same
    address to the new frame; [ARRAY_END] and [OBJECT_END] go back to the
    parent, which still holds that address. *)
Definition heap_transform (h : Heap) (st : HeapState) (c : JsonChunkWithPath)
  : option (Heap * HeapState * list (Reference * option JsonPath)) :=
  match chunk c with
  | NUMBER_VALUE n =>
      Some (heap_handleValueEnd h
              (heap_set_path_if_root (heap_set_value st (Some (RNumber n))) (chunk_path c)))
  | BOOLEAN_VALUE b =>
      Some (heap_handleValueEnd h
              (heap_set_path_if_root (heap_set_value st (Some (RBoolean b))) (chunk_path c)))
  | NULL_VALUE =>
      Some (heap_handleValueEnd h
              (heap_set_path_if_root (heap_set_value st (Some RNull)) (chunk_path c)))
  | STRING_START VALUE =>
      Some (h, heap_set_path_if_root (heap_set_value st (Some (RString ""))) (chunk_path c), [])
  | STRING_CHUNK VALUE text =>
      match heap_plus_assign (heap_state_value st) text with
      | Some v => Some (h, heap_set_value st (Some v), [])
      | None => None
      end
  | STRING_END VALUE =>
      Some (heap_handleValueEnd h st)
  | ARRAY_START =>
      Some (h ++ [HArray []],
            HARRAY_ITEM (List.length h) None
              (heap_set_path_if_root
                 (heap_set_value st (Some (RArray (List.length h)))) (chunk_path c)), [])
  | ARRAY_END =>
      match st with
      | HARRAY_ITEM _ _ parent => Some (heap_handleValueEnd h parent)
      | _ => Some (h, st, [])
      end
  | OBJECT_START =>
      Some (h ++ [HObject HObjectPrototype []],
            HOBJECT_PROPERTY (List.length h) "" None
              (heap_set_path_if_root
                 (heap_set_value st (Some (RObject (List.length h)))) (chunk_path c)), [])
  | OBJECT_END =>
      match st with
      | HOBJECT_PROPERTY _ _ _ parent => Some (heap_handleValueEnd h parent)
      | _ => Some (h, st, [])
      end
  | STRING_CHUNK KEY text =>
      match st with
      | HOBJECT_PROPERTY o k v parent => Some (h, HOBJECT_PROPERTY o (k ++ text) v parent, [])
      | _ => Some (h, st, [])
      end
  | STRING_START KEY | STRING_END KEY =>
      Some (h, st, [])
  end.

Fixpoint heap_run (h : Heap) (st : HeapState) (cs : list JsonChunkWithPath)
  : option (Heap * HeapState * list (Reference * option JsonPath)) :=
  match cs with
  | [] => Some (h, st, [])
  | c :: cs' =>
      match heap_transform h st c with
      | Some (h', st', out) =>
          match heap_run h' st' cs' with
          | Some (h'', st'', out') => Some (h'', st'', out ++ out')
          | None => None
          end
      | None => None
      end
  end.

Definition initial_heap_state : HeapState := HROOT None (Some []).

(** ** What a reference stands for *)

(** [reifies h live v r]: followed through the heap [h], the reference [r]
    is the value [v], and no object on the way is one of the containers
    under construction, whose addresses are [live]. *)
Fixpoint reifies (h : Heap) (live : list nat) (v : JsonValue) (r : Reference) {struct v} : Prop :=
  match v with
  | JString s => r = RString s
  | JNumber n => r = RNumber n
  | JBoolean b => r = RBoolean b
  | JNull => r = RNull
  | JArray vs =>
      exists a items,
        r = RArray a /\ ~ In a live /\ nth_error h a = Some (HArray items) /\
        (fix all (vs : list JsonValue) (items : list Reference) {struct vs} : Prop :=
           match vs, items with
           | [], [] => True
           | v' :: vs', i :: items' => reifies h live v' i /\ all vs' items'
           | _, _ => False
           end) vs items
  | JObject (mkObject P ps) =>
      exists a p hps,
        r = RObject a /\ ~ In a live /\ nth_error h a = Some (HObject p hps) /\
        match P with
        | ObjectPrototype => p = HObjectPrototype
        | NullPrototype => p = HNullPrototype
        | ValuePrototype v' => exists r', p = HValuePrototype r' /\ reifies h live v' r'
        end /\
        (fix all (ps : list (string * JsonValue)) (hps : list (string * Reference))
             {struct ps} : Prop :=
           match ps, hps with
           | [], [] => True
           | (k, v') :: ps', (k', i) :: hps' => k = k' /\ reifies h live v' i /\ all ps' hps'
           | _, _ => False
           end) ps hps
  end.

(** The same, for the contents of a container. *)
Definition items_reify (h : Heap) (live : list nat) (vs : list JsonValue)
    (items : list Reference) : Prop :=
  Forall2 (reifies h live) vs items.

Definition props_reify (h : Heap) (live : list nat) (ps : list (string * JsonValue))
    (hps : list (string * Reference)) : Prop :=
  Forall2 (fun kv ki => fst kv = fst ki /\ reifies h live (snd kv) (snd ki)) ps hps.

Definition proto_reifies (h : Heap) (live : list nat) (P : Prototype) (p : HeapPrototype)
  : Prop :=
  match P with
  | ObjectPrototype => p = HObjectPrototype
  | NullPrototype => p = HNullPrototype
  | ValuePrototype v => exists r, p = HValuePrototype r /\ reifies h live v r
  end.

Lemma reifies_array h live vs r :
  reifies h live (JArray vs) r <->
  exists a items,
    r = RArray a /\ ~ In a live /\ nth_error h a = Some (HArray items) /\
    items_reify h live vs items.
Proof.
  assert (E : forall vs items,
    (fix all (vs : list JsonValue) (items : list Reference) {struct vs} : Prop :=
       match vs, items with
       | [], [] => True
       | v' :: vs', i :: items' => reifies h live v' i /\ all vs' items'
       | _, _ => False
       end) vs items <-> items_reify h live vs items).
  { clear. induction vs as [|v vs IH]; intros [|i items]; split; intros H;
      try contradiction; try (now constructor); try (now inversion H).
    - destruct H as [H1 H2]. constructor; [exact H1 | now apply IH].
    - inversion H; subst. split; [assumption | now apply IH]. }
  simpl. split; intros (a & items & H1 & H2 & H3 & H4); exists a, items;
    repeat split; auto; now apply E.
Qed.

Lemma reifies_object h live P ps r :
  reifies h live (JObject (mkObject P ps)) r <->
  exists a p hps,
    r = RObject a /\ ~ In a live /\ nth_error h a = Some (HObject p hps) /\
    proto_reifies h live P p /\ props_reify h live ps hps.
Proof.
  assert (E : forall ps hps,
    (fix all (ps : list (string * JsonValue)) (hps : list (string * Reference))
         {struct ps} : Prop :=
       match ps, hps with
       | [], [] => True
       | (k, v') :: ps', (k', i) :: hps' => k = k' /\ reifies h live v' i /\ all ps' hps'
       | _, _ => False
       end) ps hps <-> props_reify h live ps hps).
  { clear. induction ps as [|[k v] ps IH]; intros [|[k' i] hps]; split; intros H;
      try contradiction; try (now constructor); try (now inversion H).
    - destruct H as (H1 & H2 & H3). constructor; [now split | now apply IH].
    - inversion H as [|? ? ? ? [H1 H2] H3]; subst. simpl in *.
      split; [assumption | split; [assumption | now apply IH]]. }
  simpl. split; intros (a & p & hps & H1 & H2 & H3 & H4 & H5); exists a, p, hps;
    repeat split; auto; now apply E.
Qed.

(** Induction over values, with the hypothesis for the items of an array,
    the properties of an object and the value that is its prototype. *)
Lemma JsonValue_induction (Q : JsonValue -> Prop) :
  (forall s, Q (JString s)) ->
  (forall n, Q (JNumber n)) ->
  (forall b, Q (JBoolean b)) ->
  Q JNull ->
  (forall P ps,
      match P with ValuePrototype v => Q v | _ => True end ->
      Forall (fun kv => Q (snd kv)) ps -> Q (JObject (mkObject P ps))) ->
  (forall vs, Forall Q vs -> Q (JArray vs)) ->
  forall v, Q v.
Proof.
  intros Hs Hn Hb Hu Ho Ha.
  fix IH 1. intros [s|n|b| |[P ps]|vs].
  - apply Hs.
  - apply Hn.
  - apply Hb.
  - apply Hu.
  - apply Ho.
    + destruct P as [| |v]; [exact I | exact I | apply IH].
    + induction ps as [|[k v] ps IHps]; constructor; [apply IH | exact IHps].
  - apply Ha. induction vs as [|v vs IHvs]; constructor; [apply IH | exact IHvs].
Qed.

(** What stands stays, when the heap changes only at live addresses and
    grows, and the live addresses are among the old ones and the new. *)
Lemma reifies_frame h live h' live' v : forall r,
  (forall a o, ~ In a live -> nth_error h a = Some o -> nth_error h' a = Some o) ->
  (forall a, In a live' -> In a live \/ List.length h <= a) ->
  reifies h live v r -> reifies h' live' v r.
Proof.
  intros r Hheap Hlive. revert r.
  induction v as [s|n|b| |P ps IHP IHps|vs IHvs] using JsonValue_induction; intros r H;
    try exact H.
  - apply reifies_object in H as (a & p & hps & -> & Ha & Hnth & HP & Hps).
    apply reifies_object. exists a, p, hps.
    split; [reflexivity | split; [|split; [now apply Hheap | split]]].
    + intros Hin. apply Hlive in Hin as [Hin|Hge]; [contradiction|].
      assert (Hsome : nth_error h a <> None) by congruence.
      apply nth_error_Some in Hsome. lia.
    + destruct P as [| |v]; try exact HP.
      destruct HP as (r' & -> & Hr'). exists r'. split; [reflexivity | now apply IHP].
    + clear Hnth. revert hps Hps. induction IHps as [|[k v] ps Hv _ IH]; intros hps Hps;
        inversion Hps as [|? [k' i] ? ? [Hk Hi] Hrest]; subst; constructor.
      * split; [exact Hk | now apply Hv].
      * now apply IH.
  - apply reifies_array in H as (a & items & -> & Ha & Hnth & Hitems).
    apply reifies_array. exists a, items.
    split; [reflexivity | split; [|split; [now apply Hheap|]]].
    + intros Hin. apply Hlive in Hin as [Hin|Hge]; [contradiction|].
      assert (Hsome : nth_error h a <> None) by congruence.
      apply nth_error_Some in Hsome. lia.
    + clear Hnth. revert items Hitems. induction IHvs as [|v vs Hv _ IH]; intros items Hitems;
        inversion Hitems; subst; constructor; [now apply Hv | now apply IH].
Qed.

(** A reference stands for one value at most. *)
Lemma reifies_functional h live v : forall v' r,
  reifies h live v r -> reifies h live v' r -> v = v'.
Proof.
  induction v as [s|n|b| |P ps IHP IHps|vs IHvs] using JsonValue_induction;
    intros v' r H H'.
  - simpl in H. subst r. destruct v' as [s'|n'|b'| |[P' ps']|vs']; simpl in H';
      try discriminate; try congruence.
    + destruct H' as (a & p & hps & E & _). discriminate.
    + destruct H' as (a & items & E & _). discriminate.
  - simpl in H. subst r. destruct v' as [s'|n'|b'| |[P' ps']|vs']; simpl in H';
      try discriminate; try congruence.
    + destruct H' as (a & p & hps & E & _). discriminate.
    + destruct H' as (a & items & E & _). discriminate.
  - simpl in H. subst r. destruct v' as [s'|n'|b'| |[P' ps']|vs']; simpl in H';
      try discriminate; try congruence.
    + destruct H' as (a & p & hps & E & _). discriminate.
    + destruct H' as (a & items & E & _). discriminate.
  - simpl in H. subst r. destruct v' as [s'|n'|b'| |[P' ps']|vs']; simpl in H';
      try discriminate; try congruence.
    + destruct H' as (a & p & hps & E & _). discriminate.
    + destruct H' as (a & items & E & _). discriminate.
  - apply reifies_object in H as (a & p & hps & -> & Ha & Hnth & HP & Hps).
    destruct v' as [s'|n'|b'| |[P' ps']|vs']; try (simpl in H'; discriminate).
    + apply reifies_object in H' as (a' & p' & hps' & E & _ & Hnth' & HP' & Hps').
      injection E as <-. rewrite Hnth in Hnth'. injection Hnth' as <- <-.
      f_equal. f_equal.
      * destruct P as [| |v], P' as [| |v']; simpl in HP, HP'; try congruence.
        -- destruct HP' as (r' & E & _). congruence.
        -- destruct HP' as (r' & E & _). congruence.
        -- destruct HP as (r' & E & _). congruence.
        -- destruct HP as (r' & E & _). congruence.
        -- destruct HP as (r1 & E1 & H1), HP' as (r2 & E2 & H2).
           assert (r2 = r1) by congruence. subst r2. f_equal. exact (IHP v' r1 H1 H2).
      * clear Hnth HP HP'. revert ps' hps Hps Hps'.
        induction IHps as [|[k v] ps Hv _ IH]; intros ps' hps Hps Hps'.
        -- inversion Hps; subst. now inversion Hps'.
        -- inversion Hps as [|? [k1 r1] ? hps1 [Hk1 Hr1] Hrest1]; subst.
           inversion Hps' as [|[k2 v2] ? ps2 ? [Hk2 Hr2] Hrest2]; subst.
           simpl in *. subst. f_equal.
           ++ f_equal. exact (Hv v2 r1 Hr1 Hr2).
           ++ exact (IH ps2 hps1 Hrest1 Hrest2).
    + apply reifies_array in H' as (a' & items & E & _). discriminate.
  - apply reifies_array in H as (a & items & -> & Ha & Hnth & Hitems).
    destruct v' as [s'|n'|b'| |[P' ps']|vs']; try (simpl in H'; discriminate).
    + apply reifies_object in H' as (a' & p' & hps' & E & _). discriminate.
    + apply reifies_array in H' as (a' & items' & E & _ & Hnth' & Hitems').
      injection E as <-. rewrite Hnth in Hnth'. injection Hnth' as <-.
      f_equal. clear Hnth. revert vs' items Hitems Hitems'.
      induction IHvs as [|v vs Hv _ IH]; intros vs' items Hitems Hitems'.
      * inversion Hitems; subst. now inversion Hitems'.
      * inversion Hitems as [|? r1 ? items1 Hr1 Hrest1]; subst.
        inversion Hitems' as [|v2 ? vs2 ? Hr2 Hrest2]; subst.
        f_equal; [exact (Hv v2 r1 Hr1 Hr2) | exact (IH vs2 items1 Hrest1 Hrest2)].
Qed.

Lemma items_reify_frame h live h' live' vs items :
  (forall a o, ~ In a live -> nth_error h a = Some o -> nth_error h' a = Some o) ->
  (forall a, In a live' -> In a live \/ List.length h <= a) ->
  items_reify h live vs items -> items_reify h' live' vs items.
Proof.
  intros Hheap Hlive H. induction H; constructor; [|assumption].
  eapply reifies_frame; eassumption.
Qed.

Lemma props_reify_frame h live h' live' ps hps :
  (forall a o, ~ In a live -> nth_error h a = Some o -> nth_error h' a = Some o) ->
  (forall a, In a live' -> In a live \/ List.length h <= a) ->
  props_reify h live ps hps -> props_reify h' live' ps hps.
Proof.
  intros Hheap Hlive H. induction H as [|kv ki ps hps [Hk Hv] _ IH]; constructor;
    [|assumption].
  split; [exact Hk | eapply reifies_frame; eassumption].
Qed.

Lemma proto_reifies_frame h live h' live' P p :
  (forall a o, ~ In a live -> nth_error h a = Some o -> nth_error h' a = Some o) ->
  (forall a, In a live' -> In a live \/ List.length h <= a) ->
  proto_reifies h live P p -> proto_reifies h' live' P p.
Proof.
  intros Hheap Hlive H. destruct P as [| |v]; try exact H.
  destruct H as (r & -> & Hr). exists r. split; [reflexivity|].
  eapply reifies_frame; eassumption.
Qed.

(** The properties of an object and of what stands for it have the same
    keys, in the same order. *)
Lemma lookup_reify h live ps hps k :
  props_reify h live ps hps ->
  match lookup ps k, lookup hps k with
  | Some v, Some r => reifies h live v r
  | None, None => True
  | _, _ => False
  end.
Proof.
  intros H. induction H as [|[k1 v] [k2 r] ps hps [Hk Hv] _ IH]; simpl; [exact I|].
  simpl in Hk, Hv. subst k2. destruct (String.eqb k1 k); [exact Hv | exact IH].
Qed.

Lemma update_reify h live ps hps k v r :
  props_reify h live ps hps -> reifies h live v r ->
  props_reify h live (update ps k v) (update hps k r).
Proof.
  intros H Hr. induction H as [|[k1 v1] [k2 r2] ps hps [Hk Hv] Hrest IH]; simpl;
    [constructor|].
  simpl in Hk, Hv. subst k2. destruct (String.eqb k1 k).
  - constructor; [now split | exact Hrest].
  - constructor; [now split | exact IH].
Qed.

(** ** The prototype chain *)

(** The address a reference holds, if it is one. *)
Definition address (r : Reference) : option nat :=
  match r with
  | RObject a | RArray a => Some a
  | _ => None
  end.

(** A prototype was allocated after the object whose prototype it is: the
    only prototypes there are, are values assigned under [__proto__], each
    one completed while the object that receives it was open. *)
Definition proto_ordered (h : Heap) : Prop :=
  forall a r ps b,
    nth_error h a = Some (HObject (HValuePrototype r) ps) -> address r = Some b -> a < b.

(** So the chain that starts at an address is shorter than what lies above
    the address, which is what [fuel] has to cover. *)
Lemma reaches_proto_accessor_reify h live :
  proto_ordered h ->
  forall v r fuel,
    reifies h live v r ->
    (forall a, address r = Some a -> List.length h <= a + fuel) ->
    heap_reaches_proto_accessor fuel h r = reaches_proto_accessor v.
Proof.
  intros Hord.
  induction v as [s|n|b| |P ps IHP _|vs _] using JsonValue_induction; intros r fuel H Hfuel.
  - simpl in H. subst r. now destruct fuel.
  - simpl in H. subst r. now destruct fuel.
  - simpl in H. subst r. now destruct fuel.
  - simpl in H. subst r. now destruct fuel.
  - apply reifies_object in H as (a & p & hps & -> & Ha & Hnth & HP & Hps).
    assert (Hlt : a < List.length h) by (apply nth_error_Some; congruence).
    specialize (Hfuel a eq_refl) as Hf.
    destruct fuel as [|fuel]; [lia|].
    simpl. rewrite Hnth.
    pose proof (lookup_reify h live ps hps "__proto__" Hps) as Hl.
    destruct (lookup ps "__proto__"), (lookup hps "__proto__"); try contradiction;
      [reflexivity|].
    destruct P as [| |v]; simpl in HP.
    + now subst p.
    + now subst p.
    + destruct HP as (r' & -> & Hr'). apply IHP; [exact Hr'|].
      intros b Hb. pose proof (Hord a r' hps b Hnth Hb). lia.
  - apply reifies_array in H as (a & items & -> & Ha & Hnth & _).
    assert (Hlt : a < List.length h) by (apply nth_error_Some; congruence).
    specialize (Hfuel a eq_refl) as Hf.
    destruct fuel as [|fuel]; [lia | reflexivity].
Qed.

Lemma inherits_proto_accessor_reify h live P p :
  proto_ordered h -> proto_reifies h live P p ->
  heap_inherits_proto_accessor h p = inherits_proto_accessor P.
Proof.
  intros Hord H. destruct P as [| |v]; simpl in H.
  - now subst p.
  - now subst p.
  - destruct H as (r & -> & Hr). simpl.
    apply (reaches_proto_accessor_reify h live Hord v r _ Hr). intros a _. lia.
Qed.

(** ** The two materializers, side by side *)

(** The containers under construction: one per frame. *)
Fixpoint open_containers (st : HeapState) : list nat :=
  match st with
  | HROOT _ _ => []
  | HOBJECT_PROPERTY o _ _ parent => o :: open_containers parent
  | HARRAY_ITEM a _ parent => a :: open_containers parent
  end.

(** The frames agree: the container of each frame holds what the frame of
    [State] holds, and the parent's [value] is the address of that
    container.  Nothing is said of the [value] of the innermost frame. *)
Inductive frames (h : Heap) (live : list nat) : HeapState -> State -> Prop :=
| frames_root hv v p :
    frames h live (HROOT hv p) (ROOT v p)
| frames_object o p hps P ps k hv v hparent parent :
    nth_error h o = Some (HObject p hps) ->
    proto_reifies h live P p ->
    props_reify h live ps hps ->
    Forall (fun b => b < o) (open_containers hparent) ->
    heap_state_value hparent = Some (RObject o) ->
    frames h live hparent parent ->
    frames h live (HOBJECT_PROPERTY o k hv hparent) (OBJECT_PROPERTY (mkObject P ps) k v parent)
| frames_array a items vs hv v hparent parent :
    nth_error h a = Some (HArray items) ->
    items_reify h live vs items ->
    Forall (fun b => b < a) (open_containers hparent) ->
    heap_state_value hparent = Some (RArray a) ->
    frames h live hparent parent ->
    frames h live (HARRAY_ITEM a hv hparent) (ARRAY_ITEM vs v parent).

Definition value_reifies (h : Heap) (live : list nat) (hv : option Reference)
    (v : option JsonValue) : Prop :=
  match hv, v with
  | Some r, Some x => reifies h live x r
  | None, None => True
  | _, _ => False
  end.

(** What a frame holds as [value] was allocated after its container. *)
Definition above (live : list nat) (hv : option Reference) : Prop :=
  forall r b, hv = Some r -> address r = Some b -> Forall (fun a => a < b) live.

(** The states agree. *)
Definition agree (h : Heap) (hst : HeapState) (st : State) : Prop :=
  frames h (open_containers hst) hst st /\
  value_reifies h (open_containers hst) (heap_state_value hst) (state_value st) /\
  above (open_containers hst) (heap_state_value hst) /\
  proto_ordered h.

(** What was delivered agrees. *)
Definition same_result (h : Heap) (live : list nat) (hout : Reference * option JsonPath)
    (out : JsonValueAndPath) : Prop :=
  snd hout = path out /\ reifies h live (value out) (fst hout).

Lemma open_containers_set_value hst hv :
  open_containers (heap_set_value hst hv) = open_containers hst.
Proof. now destruct hst. Qed.

Lemma open_containers_set_path hst p :
  open_containers (heap_set_path_if_root hst p) = open_containers hst.
Proof. now destruct hst. Qed.

Lemma heap_state_value_set_value hst hv :
  heap_state_value (heap_set_value hst hv) = hv.
Proof. now destruct hst. Qed.

Lemma heap_state_value_set_path hst p :
  heap_state_value (heap_set_path_if_root hst p) = heap_state_value hst.
Proof. now destruct hst. Qed.

Lemma heap_set_value_same hst : heap_set_value hst (heap_state_value hst) = hst.
Proof. now destruct hst. Qed.

Lemma frames_set_value h live hst st hv v :
  frames h live hst st -> frames h live (heap_set_value hst hv) (set_value st v).
Proof.
  intros H. inversion H; subst; simpl; econstructor; eassumption.
Qed.

Lemma frames_set_path h live hst st p :
  frames h live hst st ->
  frames h live (heap_set_path_if_root hst p) (set_path_if_root st p).
Proof.
  intros H. inversion H; subst; simpl; econstructor; eassumption.
Qed.

(** The frames stay in agreement when the heap keeps what is at their
    containers and at the addresses that are not live. *)
Lemma frames_frame h live h' live' hst st :
  (forall a o, In a (open_containers hst) \/ ~ In a live ->
               nth_error h a = Some o -> nth_error h' a = Some o) ->
  (forall a, In a live' -> In a live \/ List.length h <= a) ->
  frames h live hst st -> frames h' live' hst st.
Proof.
  intros Hheap Hlive H. induction H as
    [hv v p
    |o p hps P ps k hv v hparent parent Hnth HP Hps Hlt Hval _ IH
    |a items vs hv v hparent parent Hnth Hitems Hlt Hval _ IH].
  - constructor.
  - apply frames_object with (p := p) (hps := hps); auto.
    + apply Hheap; [left; now left | exact Hnth].
    + apply (proto_reifies_frame h live); auto.
    + apply (props_reify_frame h live); auto.
    + apply IH. intros a x [Hin|Hout]; apply Hheap; auto. left. now right.
  - apply frames_array with (items := items); auto.
    + apply Hheap; [left; now left | exact Hnth].
    + apply (items_reify_frame h live); auto.
    + apply IH. intros b x [Hin|Hout]; apply Hheap; auto. left. now right.
Qed.

Lemma agree_set h hst st hv v p :
  agree h hst st ->
  value_reifies h (open_containers hst) hv v ->
  above (open_containers hst) hv ->
  agree h (heap_set_path_if_root (heap_set_value hst hv) p)
          (set_path_if_root (set_value st v) p).
Proof.
  intros (Hf & _ & _ & Hord) Hv Ha. unfold agree.
  rewrite open_containers_set_path, open_containers_set_value,
    heap_state_value_set_path, heap_state_value_set_value,
    state_value_set_path, state_value_set_value.
  repeat split; auto. now apply frames_set_path, frames_set_value.
Qed.

(** ** Assignment to a property *)

Lemma set_prototype_reify h live P ps p x r :
  proto_reifies h live P p -> reifies h live x r ->
  proto_reifies h live (proto (set_prototype (mkObject P ps) x)) (heap_set_prototype p r) /\
  props (set_prototype (mkObject P ps) x) = ps.
Proof.
  intros HP Hr. destruct x as [s|n|b| |o|vs].
  - simpl in Hr. subst r. now split.
  - simpl in Hr. subst r. now split.
  - simpl in Hr. subst r. now split.
  - simpl in Hr. subst r. now split.
  - destruct o as [P' ps']. pose proof Hr as Hr'.
    apply reifies_object in Hr as (a & p' & hps' & -> & _).
    split; [|reflexivity]. exists (RObject a). now split.
  - pose proof Hr as Hr'.
    apply reifies_array in Hr as (a & items & -> & _).
    split; [|reflexivity]. exists (RArray a). now split.
Qed.

Lemma props_reify_app h live ps hps k x r :
  props_reify h live ps hps -> reifies h live x r ->
  props_reify h live (ps ++ [(k, x)]) (hps ++ [(k, r)]).
Proof.
  intros H Hr. apply Forall2_app; [exact H|]. constructor; [now split | constructor].
Qed.

Lemma heap_assign_reify h live P ps p hps k x r :
  proto_ordered h ->
  proto_reifies h live P p -> props_reify h live ps hps -> reifies h live x r ->
  exists p' hps',
    heap_assign h k r (HObject p hps) = HObject p' hps' /\
    proto_reifies h live (proto (Object_set (mkObject P ps) k x)) p' /\
    props_reify h live (props (Object_set (mkObject P ps) k x)) hps' /\
    (p' = p \/ p' = heap_set_prototype p r).
Proof.
  intros Hord HP Hps Hr.
  unfold heap_assign, Object_set, has_own_property, own_property. cbn [proto props].
  pose proof (lookup_reify h live ps hps k Hps) as Hl.
  rewrite (inherits_proto_accessor_reify h live P p Hord HP).
  destruct (lookup ps k), (lookup hps k); try contradiction.
  - eexists _, _. split; [reflexivity|]. cbn [proto props].
    split; [exact HP | split; [now apply update_reify | now left]].
  - destruct (String.eqb k "__proto__" && inherits_proto_accessor P)%bool.
    + destruct (set_prototype_reify h live P ps p x r HP Hr) as [H1 H2].
      eexists _, _. split; [reflexivity|]. rewrite H2.
      split; [exact H1 | split; [exact Hps | now right]].
    + eexists _, _. split; [reflexivity|]. cbn [proto props].
      split; [exact HP | split; [now apply props_reify_app | now left]].
Qed.

(** ** One step *)

Lemma nth_error_update_nth_other {A} (f : A -> A) (l : list A) i j :
  i <> j -> nth_error (update_nth j f l) i = nth_error l i.
Proof.
  intros H. rewrite nth_error_update_nth.
  destruct (Nat.eqb_spec i j); [contradiction | reflexivity].
Qed.

Lemma nth_error_update_nth_same {A} (f : A -> A) (l : list A) i x :
  nth_error l i = Some x -> nth_error (update_nth i f l) i = Some (f x).
Proof.
  intros H. rewrite nth_error_update_nth, Nat.eqb_refl, H. reflexivity.
Qed.

(** The heap after a step keeps what is not live, and does not shrink. *)
Definition keeps (h : Heap) (live : list nat) (h' : Heap) : Prop :=
  (forall a x, ~ In a live -> nth_error h a = Some x -> nth_error h' a = Some x) /\
  List.length h <= List.length h'.

Lemma same_result_frame h live h' live' houts outs :
  keeps h live h' ->
  (forall a, In a live' -> In a live \/ List.length h <= a) ->
  Forall2 (same_result h live) houts outs ->
  Forall2 (same_result h' live') houts outs.
Proof.
  intros [Hk _] Hlive H. induction H as [|ho o houts outs [Hp Hr] _ IH]; constructor;
    [|exact IH].
  split; [exact Hp | now apply (reifies_frame h live)].
Qed.

Lemma proto_ordered_update h o p hps p' hps' live r :
  proto_ordered h ->
  nth_error h o = Some (HObject p hps) ->
  p' = p \/ p' = heap_set_prototype p r ->
  above (o :: live) (Some r) ->
  proto_ordered (update_nth o (fun _ => HObject p' hps') h).
Proof.
  intros Hord Hnth Hp' Ha a r0 ps0 b Hn Hb.
  destruct (Nat.eq_dec a o) as [->|Hne].
  - rewrite (nth_error_update_nth_same _ _ _ _ Hnth) in Hn.
    injection Hn as Hn1 Hn2.
    destruct Hp' as [->| ->].
    + subst p. exact (Hord o r0 hps b Hnth Hb).
    + destruct r; simpl in Hn1;
        try (subst p; exact (Hord o r0 hps b Hnth Hb)); try discriminate;
        injection Hn1 as <-;
        pose proof (Ha _ b eq_refl Hb) as Hall; now inversion Hall.
  - rewrite nth_error_update_nth_other in Hn by exact Hne.
    exact (Hord a r0 ps0 b Hn Hb).
Qed.

Lemma update_nth_ext {A} (f g : A -> A) (l : list A) i x :
  nth_error l i = Some x -> f x = g x -> update_nth i f l = update_nth i g l.
Proof.
  revert i. induction l as [|y l IH]; intros [|i] H E; simpl in *; try reflexivity.
  - injection H as ->. now rewrite E.
  - f_equal. now apply IH.
Qed.

(** [handleValueEnd] on states that agree gives states that agree, and
    delivers the same. *)
Lemma heap_handleValueEnd_agree h hst st :
  agree h hst st ->
  let R := heap_handleValueEnd h hst in
  let T := handleValueEnd st in
  agree (fst (fst R)) (snd (fst R)) (fst T) /\
  Forall2 (same_result (fst (fst R)) (open_containers hst)) (snd R) (snd T) /\
  open_containers (snd (fst R)) = open_containers hst /\
  keeps h (open_containers hst) (fst (fst R)).
Proof.
  intros (Hf & Hv & Ha & Hord).
  inversion Hf as
    [hv v p
    |o p hps P ps k hv v hparent parent Hnth HP Hps Hlt Hval Hpar
    |a items vs hv v hparent parent Hnth Hitems Hlt Hval Hpar]; subst; simpl in *.
  - destruct hv as [r|], v as [x|]; try contradiction; simpl.
    + repeat split; auto; try constructor; try constructor; auto.
    + repeat split; auto; try constructor.
  - destruct hv as [r|], v as [x|]; try contradiction; simpl.
    + set (live := o :: open_containers hparent) in *.
      destruct (heap_assign_reify h live P ps p hps k x r Hord HP Hps Hv)
        as (p' & hps' & E & HP' & Hps' & Hp').
      destruct (Object_set (mkObject P ps) k x) as [P' ps'] eqn:EO.
      cbn [proto props] in HP', Hps'.
      rewrite (update_nth_ext (heap_assign h k r) (fun _ => HObject p' hps') h o _ Hnth E).
      set (h' := update_nth o (fun _ => HObject p' hps') h).
      assert (Hk : forall a y, a <> o -> nth_error h a = Some y -> nth_error h' a = Some y).
      { intros a y Hne Hy. unfold h'. now rewrite nth_error_update_nth_other. }
      assert (Hk' : forall a y, ~ In a live -> nth_error h a = Some y -> nth_error h' a = Some y).
      { intros a y Hin. apply Hk. intros ->. apply Hin. now left. }
      assert (Hl : forall a, In a live -> In a live \/ List.length h <= a) by (intros; now left).
      repeat split.
      * apply frames_object with (p := p') (hps := hps'); auto.
        -- unfold h'. now rewrite (nth_error_update_nth_same _ _ _ _ Hnth).
        -- now apply (proto_reifies_frame h live).
        -- now apply (props_reify_frame h live).
        -- apply (frames_frame h live); auto.
           intros a y [Hin|Hout]; [|now apply Hk'].
           apply Hk. rewrite Forall_forall in Hlt. specialize (Hlt a Hin). lia.
      * intros ? ? ?; discriminate.
      * unfold h'. now apply (proto_ordered_update h o p hps p' hps' (open_containers hparent) r).
      * constructor.
      * exact Hk'.
      * unfold h'. now rewrite update_nth_length.
    + repeat split; auto; try constructor.
      apply frames_object with (p := p) (hps := hps); auto.
  - destruct hv as [r|], v as [x|]; try contradiction; simpl.
    + set (live := a :: open_containers hparent) in *.
      rewrite (update_nth_ext (heap_push r) (fun _ => HArray (items ++ [r])) h a _ Hnth eq_refl).
      set (h' := update_nth a (fun _ => HArray (items ++ [r])) h).
      assert (Hk : forall b y, b <> a -> nth_error h b = Some y -> nth_error h' b = Some y).
      { intros b y Hne Hy. unfold h'. now rewrite nth_error_update_nth_other. }
      assert (Hk' : forall b y, ~ In b live -> nth_error h b = Some y -> nth_error h' b = Some y).
      { intros b y Hin. apply Hk. intros ->. apply Hin. now left. }
      assert (Hl : forall b, In b live -> In b live \/ List.length h <= b) by (intros; now left).
      repeat split.
      * apply frames_array with (items := items ++ [r]); auto.
        -- unfold h'. now rewrite (nth_error_update_nth_same _ _ _ _ Hnth).
        -- apply (items_reify_frame h live); auto.
           apply Forall2_app; [exact Hitems | now repeat constructor].
        -- apply (frames_frame h live); auto.
           intros b y [Hin|Hout]; [|now apply Hk'].
           apply Hk. rewrite Forall_forall in Hlt. specialize (Hlt b Hin). lia.
      * intros ? ? ?; discriminate.
      * intros b r0 ps0 c Hn Hc. destruct (Nat.eq_dec b a) as [->|Hne].
        -- unfold h' in Hn. rewrite (nth_error_update_nth_same _ _ _ _ Hnth) in Hn.
           discriminate.
        -- unfold h' in Hn. rewrite nth_error_update_nth_other in Hn by exact Hne.
           exact (Hord b r0 ps0 c Hn Hc).
      * constructor.
      * exact Hk'.
      * unfold h'. now rewrite update_nth_length.
    + repeat split; auto; constructor.
Qed.

Lemma agree_set_value h hst st hv v :
  agree h hst st ->
  value_reifies h (open_containers hst) hv v ->
  above (open_containers hst) hv ->
  agree h (heap_set_value hst hv) (set_value st v).
Proof.
  intros (Hf & _ & _ & Hord) Hv Ha. unfold agree.
  rewrite open_containers_set_value, heap_state_value_set_value, state_value_set_value.
  repeat split; auto. now apply frames_set_value.
Qed.

Lemma keeps_refl h live : keeps h live h.
Proof. split; auto. Qed.

Lemma frames_bound h live hst st :
  frames h live hst st -> Forall (fun a => a < List.length h) (open_containers hst).
Proof.
  intros H. induction H; simpl; constructor; auto; apply nth_error_Some; congruence.
Qed.

(** The end of a value, with what was delivered before. *)
Lemma value_end_agree h hst st houts outs :
  agree h hst st ->
  Forall2 (same_result h (open_containers hst)) houts outs ->
  match heap_handleValueEnd h hst, handleValueEnd st with
  | (h', hst', ho), (st', o) =>
      agree h' hst' st' /\
      Forall2 (same_result h' (open_containers hst')) (houts ++ ho) (outs ++ o)
  end.
Proof.
  intros Hagree Houts.
  pose proof (heap_handleValueEnd_agree h hst st Hagree) as (H1 & H2 & H3 & H4).
  destruct (heap_handleValueEnd h hst) as [[h' hst'] ho].
  destruct (handleValueEnd st) as [st' o]. simpl in *.
  split; [exact H1|]. rewrite H3. apply Forall2_app; [|exact H2].
  apply (same_result_frame h (open_containers hst)); auto.
Qed.

(** Allocation keeps what there is. *)
Lemma keeps_alloc h live x : keeps h live (h ++ [x]).
Proof.
  split.
  - intros a y _ H. rewrite nth_error_app1; [exact H|]. apply nth_error_Some. congruence.
  - rewrite length_app. lia.
Qed.

Lemma proto_ordered_alloc h x :
  proto_ordered h ->
  match x with HObject (HValuePrototype _) _ => False | _ => True end ->
  proto_ordered (h ++ [x]).
Proof.
  intros Hord Hx a r ps b Hn Hb.
  apply nth_error_snoc in Hn as [[_ Hn]|[_ Hn]].
  - exact (Hord a r ps b Hn Hb).
  - subst x. contradiction.
Qed.

(** Entering a container: the frame that was innermost now holds the
    address of the new container, which the new frame fills. *)
Lemma frames_enter h hst st x v p :
  frames h (open_containers hst) hst st ->
  frames (h ++ [x]) (List.length h :: open_containers hst)
    (heap_set_path_if_root
       (heap_set_value hst (Some (match x with
                                  | HObject _ _ => RObject (List.length h)
                                  | HArray _ => RArray (List.length h)
                                  end))) p)
    (set_path_if_root (set_value st v) p).
Proof.
  intros Hf. apply frames_set_path, frames_set_value.
  apply (frames_frame h (open_containers hst)); auto.
  - intros a y _ H. now apply (keeps_alloc h [] x).
  - intros a [<-|Hin]; [right; lia | now left].
Qed.

(** Leaving a container: its address, which the parent holds, now stands
    for what the frame had collected. *)
Lemma agree_leave h a hparent parent x :
  frames h (a :: open_containers hparent) hparent parent ->
  Forall (fun b => b < a) (open_containers hparent) ->
  proto_ordered h ->
  forall r, heap_state_value hparent = Some r ->
  address r = Some a ->
  (forall live', (forall b, In b live' -> In b (a :: open_containers hparent)) ->
                 ~ In a live' -> reifies h live' x r) ->
  agree h hparent (set_value parent (Some x)).
Proof.
  intros Hf Hlt Hord r Hval Hr Hx. unfold agree.
  assert (Hnot : ~ In a (open_containers hparent)).
  { intros Hin. rewrite Forall_forall in Hlt. specialize (Hlt a Hin). lia. }
  rewrite Hval, state_value_set_value. repeat split; auto.
  - assert (H : frames h (open_containers hparent)
                 (heap_set_value hparent (heap_state_value hparent))
                 (set_value parent (Some x))).
    { apply frames_set_value.
      apply (frames_frame h (a :: open_containers hparent)); auto.
      intros b Hin. left. now right. }
    now rewrite heap_set_value_same in H.
  - apply Hx; [intros b Hin; now right | exact Hnot].
  - intros r' b E Hb. injection E as <-. rewrite Hr in Hb. now injection Hb as <-.
Qed.

Lemma plus_assign_reify h live hv v text :
  value_reifies h live hv v ->
  match heap_plus_assign hv text, plus_assign v text with
  | Some r, Some x => reifies h live x r /\ address r = None
  | None, None => True
  | _, _ => False
  end.
Proof.
  intros H. destruct hv as [r|], v as [x|]; try contradiction; simpl in *.
  - destruct x as [s|n|b| |[P ps]|vs].
    + simpl in H. subst r. now split.
    + simpl in H. subst r. now split.
    + simpl in H. subst r. now split.
    + simpl in H. subst r. now split.
    + apply reifies_object in H as (a & p & hps & -> & _). exact I.
    + apply reifies_array in H as (a & items & -> & _). exact I.
  - now split.
Qed.

Lemma above_primitive live r : address r = None -> above live (Some r).
Proof. intros H r' b E Hb. injection E as <-. congruence. Qed.

(** [transform] on states that agree: both go on or neither does, the new
    states agree and the same was delivered. *)
Lemma heap_transform_agree h hst st c houts outs :
  agree h hst st ->
  Forall2 (same_result h (open_containers hst)) houts outs ->
  match heap_transform h hst c, transform st c with
  | Some (h', hst', ho), Some (st', o) =>
      agree h' hst' st' /\
      Forall2 (same_result h' (open_containers hst')) (houts ++ ho) (outs ++ o)
  | None, None => True
  | _, _ => False
  end.
Proof.
  intros Hagree Houts.
  assert (Hprim : forall r x p,
    reifies h (open_containers hst) x r -> address r = None ->
    match heap_handleValueEnd h (heap_set_path_if_root (heap_set_value hst (Some r)) p),
          handleValueEnd (set_path_if_root (set_value st (Some x)) p) with
    | (h', hst', ho), (st', o) =>
        agree h' hst' st' /\
        Forall2 (same_result h' (open_containers hst')) (houts ++ ho) (outs ++ o)
    end).
  { intros r x p Hr Hprim. apply value_end_agree.
    - apply agree_set; [exact Hagree | exact Hr | now apply above_primitive].
    - now rewrite open_containers_set_path, open_containers_set_value. }
  destruct c as [[| | | |role|role text|role|n|b|] p]; unfold heap_transform, transform;
    cbn [chunk chunk_path].
  - (* OBJECT_START *)
    pose proof Hagree as (Hf & Hv & Ha & Hord).
    rewrite !app_nil_r. split.
    + unfold agree. cbn [open_containers heap_state_value state_value]. repeat split.
      * apply frames_object with (p := HObjectPrototype) (hps := []).
        -- now rewrite nth_error_app2, Nat.sub_diag by lia.
        -- reflexivity.
        -- constructor.
        -- rewrite open_containers_set_path, open_containers_set_value.
           exact (frames_bound _ _ _ _ Hf).
        -- now rewrite heap_state_value_set_path, heap_state_value_set_value.
        -- rewrite open_containers_set_path, open_containers_set_value.
           exact (frames_enter h hst st (HObject HObjectPrototype []) _ p Hf).
      * intros ? ? ?; discriminate.
      * now apply proto_ordered_alloc.
    + cbn [open_containers]. rewrite open_containers_set_path, open_containers_set_value.
      apply (same_result_frame h (open_containers hst)); auto using keeps_alloc.
      intros a [<-|Hin]; [right; lia | now left].
  - (* OBJECT_END *)
    pose proof Hagree as (Hf & Hv & Ha & Hord).
    inversion Hf as
      [hv v q
      |o p' hps P ps k hv v hparent parent Hnth HP Hps Hlt Hval Hpar
      |a items vs hv v hparent parent Hnth Hitems Hlt Hval Hpar]; subst.
    + rewrite !app_nil_r. now split.
    + cbn [open_containers] in *. apply value_end_agree.
      * apply (agree_leave h o hparent parent _ Hpar Hlt Hord _ Hval eq_refl).
        intros live' Hsub Hnot. apply reifies_object. exists o, p', hps.
        repeat split; auto.
        -- apply (proto_reifies_frame h (o :: open_containers hparent)); auto.
        -- apply (props_reify_frame h (o :: open_containers hparent)); auto.
      * apply (same_result_frame h (o :: open_containers hparent)); auto using keeps_refl.
        intros b Hin. left. now right.
    + rewrite !app_nil_r. now split.
  - (* ARRAY_START *)
    pose proof Hagree as (Hf & Hv & Ha & Hord).
    rewrite !app_nil_r. split.
    + unfold agree. cbn [open_containers heap_state_value state_value]. repeat split.
      * apply frames_array with (items := []).
        -- now rewrite nth_error_app2, Nat.sub_diag by lia.
        -- constructor.
        -- rewrite open_containers_set_path, open_containers_set_value.
           exact (frames_bound _ _ _ _ Hf).
        -- now rewrite heap_state_value_set_path, heap_state_value_set_value.
        -- rewrite open_containers_set_path, open_containers_set_value.
           exact (frames_enter h hst st (HArray []) _ p Hf).
      * intros ? ? ?; discriminate.
      * now apply proto_ordered_alloc.
    + cbn [open_containers]. rewrite open_containers_set_path, open_containers_set_value.
      apply (same_result_frame h (open_containers hst)); auto using keeps_alloc.
      intros a [<-|Hin]; [right; lia | now left].
  - (* ARRAY_END *)
    pose proof Hagree as (Hf & Hv & Ha & Hord).
    inversion Hf as
      [hv v q
      |o p' hps P ps k hv v hparent parent Hnth HP Hps Hlt Hval Hpar
      |a items vs hv v hparent parent Hnth Hitems Hlt Hval Hpar]; subst.
    + rewrite !app_nil_r. now split.
    + rewrite !app_nil_r. now split.
    + cbn [open_containers] in *. apply value_end_agree.
      * apply (agree_leave h a hparent parent _ Hpar Hlt Hord _ Hval eq_refl).
        intros live' Hsub Hnot. apply reifies_array. exists a, items.
        repeat split; auto.
        apply (items_reify_frame h (a :: open_containers hparent)); auto.
      * apply (same_result_frame h (a :: open_containers hparent)); auto using keeps_refl.
        intros b Hin. left. now right.
  - (* STRING_START *)
    destruct role.
    + rewrite !app_nil_r. now split.
    + rewrite !app_nil_r. split.
      * apply agree_set; [exact Hagree | reflexivity | now apply above_primitive].
      * now rewrite open_containers_set_path, open_containers_set_value.
  - (* STRING_CHUNK *)
    destruct role.
    + pose proof Hagree as (Hf & Hv & Ha & Hord).
      inversion Hf as
        [hv v q
        |o p' hps P ps k hv v hparent parent Hnth HP Hps Hlt Hval Hpar
        |a items vs hv v hparent parent Hnth Hitems Hlt Hval Hpar]; subst;
        rewrite !app_nil_r; (split; [|exact Houts]); try exact Hagree.
      unfold agree. repeat split; auto.
      now apply frames_object with (p := p') (hps := hps).
    + pose proof Hagree as (Hf & Hv & Ha & Hord).
      pose proof (plus_assign_reify h (open_containers hst) _ _ text Hv) as Hplus.
      destruct (heap_plus_assign (heap_state_value hst) text) as [r|],
               (plus_assign (state_value st) text) as [x|]; try contradiction; [|exact I].
      destruct Hplus as [Hr Hprim']. rewrite !app_nil_r. split.
      * apply agree_set_value; [exact Hagree | exact Hr | now apply above_primitive].
      * now rewrite open_containers_set_value.
  - (* STRING_END *)
    destruct role.
    + rewrite !app_nil_r. now split.
    + now apply value_end_agree.
  - (* NUMBER_VALUE *)
    now apply Hprim.
  - (* BOOLEAN_VALUE *)
    now apply Hprim.
  - (* NULL_VALUE *)
    now apply Hprim.
Qed.

Lemma agree_initial : agree [] initial_heap_state initial_state.
Proof.
  unfold agree, initial_heap_state, initial_state. simpl. repeat split.
  - constructor.
  - intros ? ? ?; discriminate.
  - intros a r ps b H. now destruct a.
Qed.

(** The whole input, with what was delivered before. *)
Lemma heap_run_agree cs : forall h hst st houts outs,
  agree h hst st ->
  Forall2 (same_result h (open_containers hst)) houts outs ->
  match heap_run h hst cs, run st cs with
  | Some (h', hst', ho), Some (st', o) =>
      agree h' hst' st' /\
      Forall2 (same_result h' (open_containers hst')) (houts ++ ho) (outs ++ o)
  | None, None => True
  | _, _ => False
  end.
Proof.
  induction cs as [|c cs IH]; intros h hst st houts outs Hagree Houts.
  - simpl. rewrite !app_nil_r. now split.
  - simpl.
    pose proof (heap_transform_agree h hst st c houts outs Hagree Houts) as Hstep.
    destruct (heap_transform h hst c) as [[[h1 hst1] ho1]|],
             (transform st c) as [[st1 o1]|]; try contradiction; [|exact I].
    destruct Hstep as [Hagree1 Houts1].
    pose proof (IH h1 hst1 st1 _ _ Hagree1 Houts1) as Hrest.
    destruct (heap_run h1 hst1 cs) as [[[h2 hst2] ho2]|],
             (run st1 cs) as [[st2 o2]|]; try contradiction; [|exact I].
    now rewrite !app_assoc.
Qed.

(** X1.  The materializer over the heap and [JsonDeserializer] deliver the
    same: for every input both run to the end, with as many results and the
    same paths, and each reference delivered is, in the final heap, the
    value [JsonDeserializer] delivers in its place. *)
Theorem heap_materializer_delivers_the_same (cs : list JsonChunkWithPath) :
  exists h hst houts outs,
    heap_run [] initial_heap_state cs = Some (h, hst, houts) /\
    JsonDeserializer cs = Some outs /\
    Forall2 (same_result h (open_containers hst)) houts outs.
Proof.
  pose proof (heap_run_agree cs [] initial_heap_state initial_state [] []
                agree_initial (Forall2_nil _)) as H.
  destruct (run_initial_total cs) as (st & outs & E).
  unfold JsonDeserializer. rewrite E in *.
  destruct (heap_run [] initial_heap_state cs) as [[[h hst] houts]|]; [|contradiction].
  exists h, hst, houts, outs. simpl in H. now repeat split.
Qed.

End Heap.

(** * Further properties of the materializer *)

Section Behaviour.

Context {host : Host}.

(** ** Pieces of strings *)

(** One piece of text, or the same text in two pieces: the same state. *)
Lemma transform_split_chunk st role a b p p1 p2 :
  run st [WithPath (STRING_CHUNK role (a ++ b)) p] =
  run st [WithPath (STRING_CHUNK role a) p1; WithPath (STRING_CHUNK role b) p2].
Proof.
  destruct role.
  - destruct st as [v q|o k v parent|vs v parent]; try reflexivity.
    simpl. now rewrite string_append_assoc.
  - unfold run, transform; cbn [chunk chunk_path].
    destruct (state_value st) as [[s|n|x| |o|vs]|] eqn:E; cbn [plus_assign app];
      try reflexivity;
      rewrite state_value_set_value; cbn [plus_assign app];
      now rewrite set_value_set_value, string_append_assoc.
Qed.

(** X3.  Where a piece of a string is cut does not matter, for a key as for
    a value and wherever the piece stands in the input, well formed or not:
    a [STRING_CHUNK] may be replaced by two that carry its text in two parts
    (whatever their paths), and what is delivered is the same. *)
Theorem string_chunk_may_be_split_anywhere role a b p p1 p2
    (before after : list JsonChunkWithPath) :
  JsonDeserializer (before ++ WithPath (STRING_CHUNK role (a ++ b)) p :: after) =
  JsonDeserializer (before ++ WithPath (STRING_CHUNK role a) p1
                           :: WithPath (STRING_CHUNK role b) p2 :: after).
Proof.
  unfold JsonDeserializer.
  change (WithPath (STRING_CHUNK role (a ++ b)) p :: after)
    with ([WithPath (STRING_CHUNK role (a ++ b)) p] ++ after).
  change (WithPath (STRING_CHUNK role a) p1 :: WithPath (STRING_CHUNK role b) p2 :: after)
    with ([WithPath (STRING_CHUNK role a) p1; WithPath (STRING_CHUNK role b) p2] ++ after).
  rewrite !run_app.
  destruct (run initial_state before) as [[st out]|]; [|reflexivity].
  unfold then_run. cbn [fst snd].
  rewrite !run_app, (transform_split_chunk st role a b p p1 p2). reflexivity.
Qed.

(** X12.  A piece of a value string that arrives with no string open, after
    complete documents or at the very beginning, is appended to [undefined]:
    the end of the string then delivers the text ["undefined"] followed by
    the pieces, with the path of the document before it (the empty path when
    there is none). *)
Theorem value_piece_with_no_string_open ds t p ps q :
  JsonDeserializer
    (flat_map chunks_of ds ++ value_pieces ((t, p) :: ps) ++ [WithPath (STRING_END VALUE) q])
  = Some (map result_of ds
          ++ [Emit (JString ("undefined" ++ join ((t, p) :: ps)))
                   (last (map first_path ds) (Some []))]).
Proof.
  unfold JsonDeserializer, initial_state. rewrite run_documents.
  unfold then_run. cbn [fst snd].
  change (value_pieces ((t, p) :: ps) ++ [WithPath (STRING_END VALUE) q])
    with (WithPath (STRING_CHUNK VALUE t) p
          :: (value_pieces ps ++ [WithPath (STRING_END VALUE) q])).
  rewrite run_cons. unfold transform at 1. cbn [chunk chunk_path state_value plus_assign].
  rewrite then_run_nil_out.
  rewrite (run_value_pieces ps _ ("undefined" ++ t)) by reflexivity.
  cbn [set_value]. rewrite run_cons. unfold transform. cbn [chunk handleValueEnd].
  rewrite then_run_nil. unfold join. cbn [map fst fold_right snd].
  now rewrite string_append_assoc.
Qed.

(** ** Paths *)

(** Two states that differ at most in the path recorded at the root. *)
Fixpoint same_but_path (st st' : State) : Prop :=
  match st, st' with
  | ROOT v _, ROOT v' _ => v = v'
  | OBJECT_PROPERTY o k v parent, OBJECT_PROPERTY o' k' v' parent' =>
      o = o' /\ k = k' /\ v = v' /\ same_but_path parent parent'
  | ARRAY_ITEM a v parent, ARRAY_ITEM a' v' parent' =>
      a = a' /\ v = v' /\ same_but_path parent parent'
  | _, _ => False
  end.

Lemma same_but_path_value st st' :
  same_but_path st st' -> state_value st = state_value st'.
Proof.
  destruct st, st'; simpl; try contradiction; intuition.
Qed.

Lemma same_but_path_set st st' v p p' :
  same_but_path st st' ->
  same_but_path (set_path_if_root (set_value st v) p) (set_path_if_root (set_value st' v) p').
Proof.
  destruct st, st'; simpl; try contradiction; intuition.
Qed.

Lemma same_but_path_set_value st st' v :
  same_but_path st st' -> same_but_path (set_value st v) (set_value st' v).
Proof.
  destruct st, st'; simpl; try contradiction; intuition.
Qed.

Lemma same_but_path_handleValueEnd st st' :
  same_but_path st st' ->
  same_but_path (fst (handleValueEnd st)) (fst (handleValueEnd st')) /\
  map value (snd (handleValueEnd st)) = map value (snd (handleValueEnd st')).
Proof.
  destruct st as [v p|o k v parent|a v parent], st' as [v' p'|o' k' v' parent'|a' v' parent'];
    simpl; try contradiction.
  - intros <-. now destruct v.
  - intros (<- & <- & <- & H). now destruct v.
  - intros (<- & <- & H). now destruct v.
Qed.

(** One chunk, with one path or another, on states that differ in the
    recorded path at most. *)
Lemma transform_same_but_path st st' c p p' :
  same_but_path st st' ->
  match transform st (WithPath c p), transform st' (WithPath c p') with
  | Some (s, o), Some (s', o') => same_but_path s s' /\ map value o = map value o'
  | None, None => True
  | _, _ => False
  end.
Proof.
  intros H.
  assert (Hend : forall s s', same_but_path s s' ->
            match handleValueEnd s, handleValueEnd s' with
            | (s1, o1), (s1', o1') => same_but_path s1 s1' /\ map value o1 = map value o1'
            end).
  { intros s s' Hs. pose proof (same_but_path_handleValueEnd s s' Hs) as Hp.
    now destruct (handleValueEnd s), (handleValueEnd s'). }
  destruct c as [| | | |role|role text|role|n|b|]; unfold transform; cbn [chunk chunk_path].
  - split; [|reflexivity]. simpl. repeat split; auto. now apply same_but_path_set.
  - destruct st as [v q|o k v parent|a v parent], st' as [v' q'|o' k' v' parent'|a' v' parent'];
      simpl in H; try contradiction; try (split; [exact H | reflexivity]).
    destruct H as (<- & _ & _ & H). apply Hend. now apply same_but_path_set_value.
  - split; [|reflexivity]. simpl. repeat split; auto. now apply same_but_path_set.
  - destruct st as [v q|o k v parent|a v parent], st' as [v' q'|o' k' v' parent'|a' v' parent'];
      simpl in H; try contradiction; try (split; [exact H | reflexivity]).
    destruct H as (<- & _ & H). apply Hend. now apply same_but_path_set_value.
  - destruct role; (split; [|reflexivity]); [exact H | now apply same_but_path_set].
  - destruct role.
    + destruct st as [v q|o k v parent|a v parent],
               st' as [v' q'|o' k' v' parent'|a' v' parent'];
        simpl in H; try contradiction; (split; [|reflexivity]); try exact H.
      destruct H as (<- & <- & <- & H). simpl. auto.
    + rewrite <- (same_but_path_value st st' H).
      destruct (plus_assign (state_value st) text); [|exact I].
      split; [now apply same_but_path_set_value | reflexivity].
  - destruct role; [split; [exact H | reflexivity] | now apply Hend].
  - apply Hend. now apply same_but_path_set.
  - apply Hend. now apply same_but_path_set.
  - apply Hend. now apply same_but_path_set.
Qed.

Lemma run_same_but_path cs : forall cs' st st',
  map chunk cs = map chunk cs' ->
  same_but_path st st' ->
  match run st cs, run st' cs' with
  | Some (s, o), Some (s', o') => same_but_path s s' /\ map value o = map value o'
  | None, None => True
  | _, _ => False
  end.
Proof.
  induction cs as [|[c p] cs IH]; intros [|[c' p'] cs'] st st' E H; try discriminate.
  - simpl. now split.
  - simpl in E. injection E as <- E. simpl.
    pose proof (transform_same_but_path st st' c p p' H) as Hstep.
    destruct (transform st (WithPath c p)) as [[s1 o1]|],
             (transform st' (WithPath c p')) as [[s1' o1']|]; try contradiction; [|exact I].
    destruct Hstep as [H1 Ho1].
    pose proof (IH cs' s1 s1' E H1) as Hrest.
    destruct (run s1 cs) as [[s2 o2]|], (run s1' cs') as [[s2' o2']|];
      try contradiction; [|exact I].
    destruct Hrest as [H2 Ho2]. split; [exact H2|].
    now rewrite !map_app, Ho1, Ho2.
Qed.

(** X10.  The values delivered do not depend on the paths the chunks carry:
    two inputs with the same chunks, annotated with whatever paths or with
    none, give the same values in the same order. *)
Theorem values_do_not_depend_on_paths (cs cs' : list JsonChunkWithPath) :
  map chunk cs = map chunk cs' ->
  option_map (map value) (JsonDeserializer cs)
  = option_map (map value) (JsonDeserializer cs').
Proof.
  intros E. unfold JsonDeserializer.
  pose proof (run_same_but_path cs cs' initial_state initial_state E eq_refl) as H.
  destruct (run initial_state cs) as [[s o]|], (run initial_state cs') as [[s' o']|];
    try contradiction; [|reflexivity].
  simpl. now rewrite (proj2 H).
Qed.

(** X11.  Inputs one after the other: when complete documents are followed
    by any chunks at all, the documents are delivered as they are, and after
    them the values that the chunks that follow give on a materializer of
    their own. *)
Theorem documents_then_any_input (ds : list Doc) (cs : list JsonChunkWithPath) :
  exists rest outs,
    JsonDeserializer (flat_map chunks_of ds ++ cs) = Some (map result_of ds ++ rest) /\
    JsonDeserializer cs = Some outs /\
    map value rest = map value outs.
Proof.
  unfold JsonDeserializer, initial_state. rewrite run_documents.
  set (q := last (map first_path ds) (Some [])).
  pose proof (run_same_but_path cs cs (ROOT None q) (ROOT None (Some [])) eq_refl eq_refl) as H.
  destruct (run_total cs (ROOT None (Some [])) I) as (s' & outs & E' & _).
  rewrite E' in *. unfold then_run. cbn [fst snd].
  destruct (run (ROOT None q) cs) as [[s rest]|]; [|contradiction].
  exists rest, outs. now repeat split.
Qed.

(** ** What has been delivered *)

Lemma Forall2_app_left {A B} (R : A -> B -> Prop) (a : list A) : forall b c d,
  List.length a = List.length c -> Forall2 R (a ++ b) (c ++ d) -> Forall2 R a c.
Proof.
  induction a as [|x a IH]; intros b [|y c] d Hlen H; try discriminate.
  - constructor.
  - simpl in H. inversion H; subst. constructor; [assumption|].
    apply (IH b c d); [now injection Hlen | assumption].
Qed.

(** X4.  What has been delivered is not touched again: whatever chunks come
    after, every reference delivered so far is, in the heap as it is then,
    the value it was when it was delivered. *)
Theorem delivered_values_are_not_modified (cs later : list JsonChunkWithPath) :
  exists h hst houts outs h' hst' houts',
    heap_run [] initial_heap_state cs = Some (h, hst, houts) /\
    heap_run h hst later = Some (h', hst', houts') /\
    Forall2 (same_result h (open_containers hst)) houts outs /\
    Forall2 (same_result h' (open_containers hst')) houts outs.
Proof.
  pose proof (heap_run_agree cs [] initial_heap_state initial_state [] []
                agree_initial (Forall2_nil _)) as H1.
  destruct (run_total cs initial_state I) as (st1 & outs1 & E1 & Hv1).
  rewrite E1 in H1.
  destruct (heap_run [] initial_heap_state cs) as [[[h1 hst1] houts1]|] eqn:R1;
    [|contradiction].
  destruct H1 as [Ha1 Ho1]. simpl in Ho1.
  pose proof (heap_run_agree later h1 hst1 st1 houts1 outs1 Ha1 Ho1) as H2.
  destruct (run_total later st1 Hv1) as (st2 & outs2 & E2 & _).
  rewrite E2 in H2.
  destruct (heap_run h1 hst1 later) as [[[h2 hst2] houts2]|] eqn:R2; [|contradiction].
  destruct H2 as [_ Ho2].
  exists h1, hst1, houts1, outs1, h2, hst2, houts2.
  split; [reflexivity | split; [exact R2 | split; [exact Ho1|]]].
  apply (Forall2_app_left _ houts1 houts2 outs1 outs2); [|exact Ho2].
  exact (Forall2_length Ho1).
Qed.

(** ** From a value to its chunks and back *)

(** One complete document, alone on the input. *)
Lemma JsonDeserializer_document d :
  JsonDeserializer (chunks_of d) = Some [result_of d].
Proof.
  unfold JsonDeserializer, initial_state.
  rewrite <- (app_nil_r (chunks_of d)), run_chunks_of.
  cbn [set_value set_path_if_root handleValueEnd]. reflexivity.
Qed.

(** A document that spells a value: every string in one piece, the members
    of an object in the order of its own properties, [p] on every chunk. *)
Fixpoint encode (p : option JsonPath) (v : JsonValue) : Doc :=
  match v with
  | JString s => DString {| start_path := p; pieces := [(s, p)]; end_path := p |}
  | JNumber n => DNumber n p
  | JBoolean b => DBoolean b p
  | JNull => DNull p
  | JArray vs => DArray p (map (encode p) vs) p
  | JObject (mkObject _ ps) =>
      DObject p
        (map (fun kv => ({| start_path := p; pieces := [(fst kv, p)]; end_path := p |},
                         encode p (snd kv))) ps)
        p
  end.

Fixpoint distinct (ks : list string) : bool :=
  match ks with
  | [] => true
  | k :: ks' => negb (existsb (String.eqb k) ks') && distinct ks'
  end.

(** The values JSON text stands for: every object has [Object.prototype] as
    its prototype and no key twice, and, where the host has the accessor,
    no key [__proto__]. *)
Fixpoint plain (v : JsonValue) : bool :=
  match v with
  | JObject (mkObject P ps) =>
      match P with ObjectPrototype => true | _ => false end
      && distinct (map fst ps)
      && forallb (fun kv => negb (legacy_proto_accessor && String.eqb (fst kv) "__proto__")
                            && plain (snd kv)) ps
  | JArray vs => forallb plain vs
  | _ => true
  end.

Lemma lookup_none_existsb {V} (ps : list (string * V)) k :
  existsb (String.eqb k) (map fst ps) = false -> lookup ps k = None.
Proof.
  intros H. pose proof (lookup_existsb ps k) as E. rewrite H in E.
  now destruct (lookup ps k).
Qed.

(** Assigning properties that are not there yet, none of them through the
    accessor, creates them one after the other. *)
Lemma assign_new_properties ps : forall acc,
  distinct (map fst (acc ++ ps)) = true ->
  forallb (fun kv => negb (legacy_proto_accessor && String.eqb (fst kv) "__proto__")) ps
    = true ->
  fold_left (fun o kv => Object_set o (fst kv) (snd kv)) ps (mkObject ObjectPrototype acc)
  = mkObject ObjectPrototype (acc ++ ps).
Proof.
  induction ps as [|[k v] ps IH]; intros acc Hd Hk.
  - simpl. now rewrite app_nil_r.
  - simpl in Hk. apply andb_prop in Hk as [Hk Hks].
    assert (Hnew : lookup acc k = None).
    { apply lookup_none_existsb. clear - Hd.
      induction acc as [|[k0 v0] acc IHacc]; [reflexivity|].
      simpl in Hd. apply andb_prop in Hd as [H1 H2]. simpl.
      rewrite IHacc by exact H2. rewrite map_app, existsb_app in H1. simpl in H1.
      destruct (String.eqb k k0) eqn:E; [|reflexivity].
      apply String.eqb_eq in E as ->. rewrite String.eqb_refl in H1.
      rewrite orb_true_r in H1. discriminate. }
    cbn [fold_left fst snd].
    unfold Object_set at 2, has_own_property, own_property. cbn [props proto].
    rewrite Hnew. cbn [inherits_proto_accessor].
    rewrite andb_comm. apply negb_true_iff in Hk. rewrite Hk.
    rewrite IH; [now rewrite <- app_assoc | now rewrite <- app_assoc | exact Hks].
Qed.

Lemma text_of_one_piece p q r s :
  text_of {| start_path := p; pieces := [(s, q)]; end_path := r |} = s.
Proof. unfold text_of. simpl. apply string_append_nil_r. Qed.

Lemma denote_encode p v : plain v = true -> denote (encode p v) = v.
Proof.
  induction v as [s|n|b| |P ps _ IHps|vs IHvs] using JsonValue_induction; intros Hv;
    try reflexivity.
  - simpl. now rewrite text_of_one_piece.
  - simpl in Hv. apply andb_prop in Hv as [Hv Hall]. apply andb_prop in Hv as [HP Hd].
    destruct P; try discriminate.
    cbn [encode denote]. f_equal.
    assert (Hkeys : forallb (fun kv => negb (legacy_proto_accessor
                                              && String.eqb (fst kv) "__proto__")) ps = true).
    { rewrite forallb_forall in *. intros kv Hin.
      specialize (Hall kv Hin). now apply andb_prop in Hall. }
    pose proof (assign_new_properties ps [] Hd Hkeys) as E. cbn [app] in E.
    rewrite <- E. unfold empty_object.
    generalize (mkObject ObjectPrototype []). clear Hd Hkeys E.
    induction IHps as [|[k v] ps Hv _ IH]; intros o; [reflexivity|].
    simpl in Hall. apply andb_prop in Hall as [Hkv Hall].
    apply andb_prop in Hkv as [_ Hpv].
    cbn [map fold_left fst snd] in *. rewrite text_of_one_piece, (Hv Hpv). apply IH, Hall.
  - simpl in Hv. cbn [encode denote]. f_equal.
    induction IHvs as [|v vs Hv' _ IH]; [reflexivity|].
    simpl in Hv. apply andb_prop in Hv as [H1 H2].
    simpl. now rewrite (Hv' H1), (IH H2).
Qed.

Lemma first_path_encode p v : first_path (encode p v) = p.
Proof. destruct v as [s|n|b| |[P ps]|vs]; reflexivity. Qed.

(** X5.  From a value to its chunks and back: the chunks that spell a plain
    value, alone on the input, make the materializer deliver that value,
    once, with the path of the first chunk. *)
Theorem plain_value_is_delivered_as_it_is (p : option JsonPath) (v : JsonValue) :
  plain v = true ->
  JsonDeserializer (chunks_of (encode p v)) = Some [Emit v p].
Proof.
  intros Hv. rewrite JsonDeserializer_document. unfold result_of.
  now rewrite (denote_encode p v Hv), first_path_encode.
Qed.

(** ** Objects, and the key [__proto__] *)

(** The mapping a JSON object stands for: a key is bound once, at the place
    of its first occurrence, to the value of its last. *)
Definition put (ps : list (string * JsonValue)) (k : string) (v : JsonValue)
  : list (string * JsonValue) :=
  match lookup ps k with
  | Some _ => update ps k v
  | None => ps ++ [(k, v)]
  end.

(** The value a document stands for when read as JSON, objects as mappings
    and nothing else. *)
Fixpoint standard (d : Doc) : JsonValue :=
  match d with
  | DNumber n _ => JNumber n
  | DBoolean b _ => JBoolean b
  | DNull _ => JNull
  | DString s => JString (text_of s)
  | DArray _ items _ => JArray (map standard items)
  | DObject _ members _ =>
      JObject (mkObject ObjectPrototype
                 (fold_left (fun ps m => put ps (text_of (fst m)) (standard (snd m)))
                            members []))
  end.

(** No assignment of the document goes through the accessor: no member, at
    any depth, is named [__proto__], or the host has no accessor. *)
Fixpoint proto_free (d : Doc) : bool :=
  match d with
  | DArray _ items _ => forallb proto_free items
  | DObject _ members _ =>
      forallb (fun m => negb (legacy_proto_accessor && String.eqb (text_of (fst m)) "__proto__")
                        && proto_free (snd m)) members
  | _ => true
  end.

Lemma Object_set_put ps k v :
  negb (legacy_proto_accessor && String.eqb k "__proto__") = true ->
  Object_set (mkObject ObjectPrototype ps) k v = mkObject ObjectPrototype (put ps k v).
Proof.
  intros Hk. apply negb_true_iff in Hk.
  unfold Object_set, put, has_own_property, own_property. cbn [props proto].
  destruct (lookup ps k); [reflexivity|].
  cbn [inherits_proto_accessor]. now rewrite andb_comm, Hk.
Qed.

Lemma denote_standard d : proto_free d = true -> denote d = standard d.
Proof.
  induction d as [n p|b p|p|s|p items q IH|p members q IH] using Doc_induction;
    intros Hd; try reflexivity.
  - simpl in *. f_equal.
    induction IH as [|d items Hd' _ IHitems]; [reflexivity|].
    simpl in Hd. apply andb_prop in Hd as [H1 H2].
    simpl. now rewrite (Hd' H1), (IHitems H2).
  - cbn [denote standard]. f_equal. unfold empty_object.
    generalize (@nil (string * JsonValue)).
    simpl in Hd. induction IH as [|[k d] members Hd' _ IHm]; intros ps; [reflexivity|].
    simpl in Hd. apply andb_prop in Hd as [H1 H2]. apply andb_prop in H1 as [Hk Hpd].
    cbn [fold_left fst snd] in *.
    rewrite (Object_set_put ps _ _ Hk), (Hd' Hpd). apply IHm, H2.
Qed.

(** X6.  Read as JSON: for a document in which no member at any depth is
    named [__proto__] (or on a host without the accessor), the materializer
    delivers the value the document stands for, every object a mapping with
    [Object.prototype] as its prototype, each key once, bound to the value
    of its last occurrence. *)
Theorem document_without_proto_key_is_read_as_json (d : Doc) :
  proto_free d = true ->
  JsonDeserializer (chunks_of d) = Some [Emit (standard d) (first_path d)].
Proof.
  intros Hd. rewrite JsonDeserializer_document. unfold result_of.
  now rewrite (denote_standard d Hd).
Qed.

(** X7.  On a host with the accessor, a member named [__proto__] that
    follows members of other names creates no property: it makes its value
    the prototype of the object delivered when that value is an object or an
    array, cuts the prototype chain when it is [null], and is dropped when
    it is a string, a number or a boolean. *)
Theorem proto_member_sets_the_prototype p members (k : StringRun) (d : Doc) q :
  legacy_proto_accessor = true ->
  text_of k = "__proto__" ->
  Forall (fun m => member_key m <> "__proto__") members ->
  exists o,
    JsonDeserializer (chunks_of (DObject p (members ++ [(k, d)]) q))
      = Some [Emit (JObject o) p] /\
    props o = props (assign_members empty_object members) /\
    own_property o "__proto__" = None /\
    proto o = match denote d with
              | JObject _ | JArray _ => ValuePrototype (denote d)
              | JNull => NullPrototype
              | _ => ObjectPrototype
              end.
Proof.
  intros Hhost Hk Hm.
  destruct (assign_members_plain members empty_object Hm) as (Hp & _ & Hown).
  assert (Hnone : own_property (assign_members empty_object members) "__proto__" = None).
  { rewrite Hown. simpl own_property. clear - Hm.
    induction Hm as [|m members Hk _ IH]; [reflexivity|].
    cbn [fold_left]. apply String.eqb_neq in Hk. now rewrite Hk. }
  exists (set_prototype (assign_members empty_object members) (denote d)).
  split; [|split; [|split]].
  - rewrite JsonDeserializer_document. unfold result_of. cbn [denote first_path].
    do 2 f_equal. f_equal.
    rewrite fold_left_app. cbn [fold_left fst snd]. rewrite Hk.
    fold (assign_members empty_object members).
    unfold Object_set, has_own_property. rewrite Hnone, Hp. cbn [proto empty_object].
    cbn [inherits_proto_accessor]. now rewrite Hhost.
  - destruct (assign_members empty_object members) as [P ps].
    now destruct (denote d).
  - unfold own_property in *.
    destruct (assign_members empty_object members) as [P ps].
    now destruct (denote d).
  - destruct (assign_members empty_object members) as [P ps]. cbn [proto] in Hp.
    subst P. now destruct (denote d).
Qed.

(** ** Members that are not well formed *)

(** The chunks of a run of key strings, and their text. *)
Definition keys_chunks (ks : list StringRun) : list JsonChunkWithPath :=
  flat_map (string_chunks KEY) ks.

Definition keys_text (ks : list StringRun) : string :=
  fold_right String.append "" (map text_of ks).

(** A member as the materializer takes it: any number of key strings, then
    a value. *)
Definition loose_member_chunks (m : list StringRun * Doc) : list JsonChunkWithPath :=
  keys_chunks (fst m) ++ chunks_of (snd m).

Lemma run_keys ks : forall o k v parent cs,
  run (OBJECT_PROPERTY o k v parent) (keys_chunks ks ++ cs) =
  run (OBJECT_PROPERTY o (k ++ keys_text ks) v parent) cs.
Proof.
  induction ks as [|s ks IH]; intros o k v parent cs.
  - simpl. unfold keys_text. simpl. now rewrite string_append_nil_r.
  - unfold keys_chunks. cbn [flat_map]. fold (keys_chunks ks).
    rewrite <- app_assoc, run_string_key, IH.
    unfold keys_text. cbn [map fold_right]. now rewrite string_append_assoc.
Qed.

Lemma run_loose_members ms : forall o parent cs,
  run (OBJECT_PROPERTY o "" None parent) (flat_map loose_member_chunks ms ++ cs) =
  run (OBJECT_PROPERTY
         (fold_left (fun o m => Object_set o (keys_text (fst m)) (denote (snd m))) ms o)
         "" None parent) cs.
Proof.
  induction ms as [|[ks d] ms IH]; intros o parent cs; [reflexivity|].
  cbn [flat_map]. unfold loose_member_chunks at 1. cbn [fst snd].
  rewrite <- !app_assoc, run_keys, run_chunks_of.
  cbn [set_value set_path_if_root handleValueEnd].
  rewrite then_run_nil_out. cbn [append]. apply IH.
Qed.

(** X8.  The key of a member is the text of all the key strings met since
    the value before it: with no key string the value is stored under the
    empty key, several key strings in a row are one key, and key strings
    after the last value of the object are dropped with it. *)
Theorem member_key_is_the_key_text_since_the_last_value
    p (ms : list (list StringRun * Doc)) (trailing : list StringRun) q :
  JsonDeserializer
    (WithPath OBJECT_START p
     :: flat_map loose_member_chunks ms ++ keys_chunks trailing ++ [WithPath OBJECT_END q])
  = Some [Emit (JObject (fold_left (fun o m => Object_set o (keys_text (fst m))
                                                 (denote (snd m))) ms empty_object)) p].
Proof.
  unfold JsonDeserializer, initial_state.
  rewrite run_cons. unfold transform at 1. cbn [chunk chunk_path set_value set_path_if_root].
  rewrite then_run_nil_out, run_loose_members, run_keys. cbn [append].
  rewrite run_cons. unfold transform. cbn [chunk chunk_path set_value handleValueEnd].
  reflexivity.
Qed.

(** ** No object in two places *)

(** The addresses held by a reference, by a heap object, by the heap. *)
Definition ref_addresses (r : Reference) : list nat :=
  match address r with
  | Some a => [a]
  | None => []
  end.

Definition cell_addresses (c : HeapObject) : list nat :=
  match c with
  | HObject p ps =>
      match p with HValuePrototype r => ref_addresses r | _ => [] end
      ++ flat_map (fun kr => ref_addresses (snd kr)) ps
  | HArray items => flat_map ref_addresses items
  end.

Definition heap_addresses (h : Heap) : list nat := flat_map cell_addresses h.

Definition value_addresses (hv : option Reference) : list nat :=
  match hv with
  | Some r => ref_addresses r
  | None => []
  end.

Definition result_addresses (houts : list (Reference * option JsonPath)) : list nat :=
  flat_map (fun o => ref_addresses (fst o)) houts.

(** Every place that holds an array or an object for good: the items of the
    arrays, the values and the prototypes of the objects, the value under
    construction in the innermost frame, and what has been delivered.  (The
    [value] of an outer frame is the container of the frame inside it, still
    under construction.) *)
Definition held (h : Heap) (hst : HeapState) (houts : list (Reference * option JsonPath))
  : list nat :=
  heap_addresses h ++ value_addresses (heap_state_value hst) ++ result_addresses houts.

Definition occ (l : list nat) (a : nat) : nat := count_occ Nat.eq_dec l a.

Lemma occ_app l1 l2 a : occ (l1 ++ l2) a = occ l1 a + occ l2 a.
Proof. apply count_occ_app. Qed.

Lemma heap_addresses_update f (h : Heap) a : forall i c,
  nth_error h i = Some c ->
  occ (heap_addresses (update_nth i f h)) a + occ (cell_addresses c) a =
  occ (heap_addresses h) a + occ (cell_addresses (f c)) a.
Proof.
  induction h as [|x h IH]; intros [|i] c H; try discriminate.
  - simpl in H. injection H as ->. unfold heap_addresses. simpl.
    rewrite !occ_app. lia.
  - simpl in H. unfold heap_addresses in *. simpl. rewrite !occ_app.
    specialize (IH i c H). lia.
Qed.

Lemma occ_update ps k r a :
  occ (flat_map (fun kr : string * Reference => ref_addresses (snd kr)) (update ps k r)) a
  <= occ (flat_map (fun kr : string * Reference => ref_addresses (snd kr)) ps) a
     + occ (ref_addresses r) a.
Proof.
  induction ps as [|[k0 r0] ps IH]; simpl; [lia|].
  destruct (String.eqb k0 k); simpl; rewrite !occ_app; simpl; lia.
Qed.

(** An assignment adds at most the value assigned to what the object
    holds. *)
Lemma occ_heap_assign h k r c a :
  occ (cell_addresses (heap_assign h k r c)) a
  <= occ (cell_addresses c) a + occ (ref_addresses r) a.
Proof.
  destruct c as [p ps|items]; [|simpl; lia].
  unfold heap_assign. destruct (lookup ps k).
  - simpl. rewrite !occ_app. pose proof (occ_update ps k r a). lia.
  - destruct (String.eqb k "__proto__" && heap_inherits_proto_accessor h p)%bool.
    + simpl. rewrite !occ_app.
      destruct r; simpl; try lia; destruct p; simpl; lia.
    + simpl. rewrite flat_map_app, !occ_app. simpl. rewrite app_nil_r. lia.
Qed.

(** Nothing is held twice, no container under construction is held, and
    what is held has been allocated. *)
Definition held_once (h : Heap) (hst : HeapState)
    (houts : list (Reference * option JsonPath)) : Prop :=
  forall a,
    occ (held h hst houts) a <= 1 /\
    (In a (open_containers hst) -> occ (held h hst houts) a = 0) /\
    (0 < occ (held h hst houts) a -> a < List.length h).

(** A step that adds nothing to what is held keeps [held_once]. *)
Lemma held_once_less h hst houts h' hst' houts' :
  held_once h hst houts ->
  (forall a, occ (held h' hst' houts') a <= occ (held h hst houts) a) ->
  (forall a, In a (open_containers hst') ->
             In a (open_containers hst) \/ occ (held h hst houts) a = 0) ->
  List.length h <= List.length h' ->
  held_once h' hst' houts'.
Proof.
  intros H Hle Hlive Hlen a. destruct (H a) as (H1 & H2 & H3).
  specialize (Hle a). repeat split.
  - lia.
  - intros Hin. destruct (Hlive a Hin) as [Hin'|H0]; [specialize (H2 Hin')|]; lia.
  - intros Hpos. assert (a < List.length h) by (apply H3; lia). lia.
Qed.

Lemma held_set_value h hst hv houts a :
  occ (held h (heap_set_value hst hv) houts) a + occ (value_addresses (heap_state_value hst)) a
  = occ (held h hst houts) a + occ (value_addresses hv) a.
Proof.
  unfold held. rewrite heap_state_value_set_value, !occ_app. lia.
Qed.

Lemma held_set_path h hst p houts :
  held h (heap_set_path_if_root hst p) houts = held h hst houts.
Proof. unfold held. now rewrite heap_state_value_set_path. Qed.

Lemma update_nth_none {A} (f : A -> A) (l : list A) : forall i,
  nth_error l i = None -> update_nth i f l = l.
Proof.
  induction l as [|x l IH]; intros [|i] H; try reflexivity; try discriminate.
  simpl in *. now rewrite IH.
Qed.

(** Changing one heap object adds to what the heap holds at most what it
    adds to what the object holds. *)
Lemma heap_addresses_change f (h : Heap) i extra a :
  (forall c, occ (cell_addresses (f c)) a <= occ (cell_addresses c) a + extra) ->
  occ (heap_addresses (update_nth i f h)) a <= occ (heap_addresses h) a + extra.
Proof.
  intros Hf. destruct (nth_error h i) as [c|] eqn:E.
  - pose proof (heap_addresses_update f h a i c E). specialize (Hf c). lia.
  - rewrite update_nth_none by exact E. lia.
Qed.

Lemma occ_heap_push r c a :
  occ (cell_addresses (heap_push r c)) a <= occ (cell_addresses c) a + occ (ref_addresses r) a.
Proof.
  destruct c as [p ps|items]; simpl; [lia|].
  rewrite flat_map_app, occ_app. simpl. rewrite app_nil_r. lia.
Qed.

Lemma result_addresses_app houts ho a :
  occ (result_addresses (houts ++ ho)) a
  = occ (result_addresses houts) a + occ (result_addresses ho) a.
Proof. unfold result_addresses. now rewrite flat_map_app, occ_app. Qed.

(** The end of a value moves it to where it is kept. *)
Lemma held_once_handleValueEnd h hst houts :
  held_once h hst houts ->
  match heap_handleValueEnd h hst with
  | (h', hst', ho) => held_once h' hst' (houts ++ ho)
  end.
Proof.
  intros H. destruct hst as [hv p|o k hv parent|a hv parent]; simpl.
  - apply (held_once_less h (HROOT hv p) houts); auto.
    intros a. unfold held. cbn [heap_state_value value_addresses].
    rewrite !occ_app, result_addresses_app.
    destruct hv as [r|]; simpl; [rewrite app_nil_r|]; cbn [occ count_occ]; lia.
  - apply (held_once_less h (HOBJECT_PROPERTY o k hv parent) houts); auto.
    + intros a. unfold held. cbn [heap_state_value value_addresses].
      rewrite app_nil_r, !occ_app.
      destruct hv as [r|]; simpl value_addresses; [|cbn [occ count_occ]; lia].
      pose proof (heap_addresses_change (heap_assign h k r) h o _ a
                    (fun c => occ_heap_assign h k r c a)).
      cbn [occ count_occ]. lia.
    + destruct hv; [rewrite update_nth_length|]; lia.
  - apply (held_once_less h (HARRAY_ITEM a hv parent) houts); auto.
    + intros b. unfold held. cbn [heap_state_value value_addresses].
      rewrite app_nil_r, !occ_app.
      destruct hv as [r|]; simpl value_addresses; [|cbn [occ count_occ]; lia].
      pose proof (heap_addresses_change (heap_push r) h a _ b
                    (fun c => occ_heap_push r c b)).
      cbn [occ count_occ]. lia.
    + destruct hv; [rewrite update_nth_length|]; lia.
Qed.

(** A new value for the innermost frame that is no array and no object. *)
Lemma held_once_set_primitive h hst houts r p :
  held_once h hst houts -> address r = None ->
  held_once h (heap_set_path_if_root (heap_set_value hst (Some r)) p) houts.
Proof.
  intros H Hr. apply (held_once_less h hst houts); auto.
  - intros a. rewrite held_set_path.
    pose proof (held_set_value h hst (Some r) houts a) as E.
    unfold value_addresses at 2, ref_addresses in E. rewrite Hr in E.
    cbn [occ count_occ] in E. lia.
  - intros a. rewrite open_containers_set_path, open_containers_set_value. now left.
Qed.

(** Entering a container. *)
Lemma held_once_enter h hst houts c r p :
  held_once h hst houts -> cell_addresses c = [] ->
  held_once (h ++ [c])
    match c with
    | HObject _ _ =>
        HOBJECT_PROPERTY (List.length h) "" None
          (heap_set_path_if_root (heap_set_value hst (Some r)) p)
    | HArray _ =>
        HARRAY_ITEM (List.length h) None
          (heap_set_path_if_root (heap_set_value hst (Some r)) p)
    end houts.
Proof.
  intros H Hc. apply (held_once_less h hst houts); auto.
  - intros a. unfold held, heap_addresses. rewrite flat_map_app. simpl flat_map.
    rewrite Hc, !occ_app.
    replace (occ (value_addresses (heap_state_value
               match c with
               | HObject _ _ => HOBJECT_PROPERTY _ _ _ _
               | HArray _ => HARRAY_ITEM _ _ _
               end)) a) with 0 by (now destruct c).
    cbn [occ count_occ app]. lia.
  - intros a Hin.
    assert (Hin' : a = List.length h \/ In a (open_containers hst)).
    { destruct c; simpl in Hin;
        rewrite open_containers_set_path, open_containers_set_value in Hin;
        destruct Hin as [<-|Hin]; auto. }
    destruct Hin' as [->|Hin']; [|now left].
    right. destruct (H (List.length h)) as (_ & _ & H3).
    destruct (occ (held h hst houts) (List.length h)); [reflexivity|].
    assert (List.length h < List.length h) by (apply H3; lia). lia.
  - rewrite length_app. simpl. lia.
Qed.

(** Leaving a container: it becomes the value of the frame around it. *)
Lemma held_once_leave h hst hparent a houts :
  held_once h hst houts ->
  open_containers hst = a :: open_containers hparent ->
  heap_state_value hparent = Some (match nth_error h a with
                                   | Some (HArray _) => RArray a
                                   | _ => RObject a
                                   end) ->
  ~ In a (open_containers hparent) ->
  a < List.length h ->
  held_once h hparent houts.
Proof.
  intros H Hopen Hval Hnot Hlt x. destruct (H x) as (H1 & H2 & H3).
  rewrite Hopen in H2.
  assert (E : occ (value_addresses (heap_state_value hparent)) x
              = if Nat.eq_dec a x then 1 else 0).
  { rewrite Hval. destruct (nth_error h a) as [[| ]|]; simpl;
      unfold ref_addresses; simpl; now destruct (Nat.eq_dec a x). }
  unfold held in *. rewrite !occ_app in *. rewrite E.
  destruct (Nat.eq_dec a x) as [->|Hne].
  - assert (H0 : occ (heap_addresses h) x
                 + (occ (value_addresses (heap_state_value hst)) x
                    + occ (result_addresses houts) x) = 0) by (apply H2; now left).
    repeat split; intros; try lia. contradiction.
  - repeat split.
    + assert (In x (open_containers hparent) \/ ~ In x (open_containers hparent)) as [Hin|Hout]
        by (destruct (in_dec Nat.eq_dec x (open_containers hparent)); auto).
      * assert (H0 : occ (heap_addresses h) x
                     + (occ (value_addresses (heap_state_value hst)) x
                        + occ (result_addresses houts) x) = 0) by (apply H2; now right).
        lia.
      * lia.
    + intros Hin.
      assert (H0 : occ (heap_addresses h) x
                   + (occ (value_addresses (heap_state_value hst)) x
                      + occ (result_addresses houts) x) = 0) by (apply H2; now right).
      lia.
    + intros Hpos. apply H3. lia.
Qed.

Lemma held_once_transform h hst st c houts :
  agree h hst st -> held_once h hst houts ->
  match heap_transform h hst c with
  | Some (h', hst', ho) => held_once h' hst' (houts ++ ho)
  | None => True
  end.
Proof.
  intros Hagree H. pose proof Hagree as (Hf & _).
  assert (Hend : forall a hparent,
            open_containers hst = a :: open_containers hparent ->
            heap_state_value hparent = Some (match nth_error h a with
                                             | Some (HArray _) => RArray a
                                             | _ => RObject a
                                             end) ->
            Forall (fun b => b < a) (open_containers hparent) ->
            a < List.length h ->
            match heap_handleValueEnd h hparent with
            | (h', hst', ho) => held_once h' hst' (houts ++ ho)
            end).
  { intros a hparent Hopen Hval Hlt Ha. apply held_once_handleValueEnd.
    apply (held_once_leave h hst hparent a); auto.
    intros Hin. rewrite Forall_forall in Hlt. specialize (Hlt a Hin). lia. }
  destruct c as [[| | | |role|role text|role|n|b|] p]; unfold heap_transform;
    cbn [chunk chunk_path].
  - rewrite app_nil_r.
    exact (held_once_enter h hst houts (HObject HObjectPrototype []) _ p H eq_refl).
  - inversion Hf as
      [hv v q
      |o p' hps P ps k hv v hparent parent Hnth HP Hps Hlt Hval Hpar
      |a items vs hv v hparent parent Hnth Hitems Hlt Hval Hpar]; subst;
      try (rewrite app_nil_r; exact H).
    destruct (heap_handleValueEnd h hparent) as [[h' hst'] ho] eqn:E.
    pose proof (Hend o hparent eq_refl) as Hgo. rewrite Hnth, E in Hgo.
    apply Hgo; auto. apply nth_error_Some. congruence.
  - rewrite app_nil_r.
    exact (held_once_enter h hst houts (HArray []) _ p H eq_refl).
  - inversion Hf as
      [hv v q
      |o p' hps P ps k hv v hparent parent Hnth HP Hps Hlt Hval Hpar
      |a items vs hv v hparent parent Hnth Hitems Hlt Hval Hpar]; subst;
      try (rewrite app_nil_r; exact H).
    destruct (heap_handleValueEnd h hparent) as [[h' hst'] ho] eqn:E.
    pose proof (Hend a hparent eq_refl) as Hgo. rewrite Hnth, E in Hgo.
    apply Hgo; auto. apply nth_error_Some. congruence.
  - destruct role; rewrite app_nil_r; [exact H|].
    now apply held_once_set_primitive.
  - destruct role.
    + destruct hst; rewrite app_nil_r; exact H.
    + destruct (heap_plus_assign (heap_state_value hst) text) as [r|] eqn:E; [|exact I].
      rewrite app_nil_r.
      assert (Hr : address r = None).
      { destruct (heap_state_value hst) as [[]|]; simpl in E; try discriminate;
          now injection E as <-. }
      pose proof (held_once_set_primitive h hst houts r None H Hr) as H'.
      intros a. specialize (H' a).
      rewrite held_set_path, open_containers_set_path in H'. exact H'.
  - destruct role; [rewrite app_nil_r; exact H|].
    now apply held_once_handleValueEnd.
  - pose proof (held_once_handleValueEnd h
                  (heap_set_path_if_root (heap_set_value hst (Some (RNumber n))) p) houts
                  (held_once_set_primitive h hst houts (RNumber n) p H eq_refl)) as H'.
    now destruct (heap_handleValueEnd _ _) as [[h' hst'] ho].
  - pose proof (held_once_handleValueEnd h
                  (heap_set_path_if_root (heap_set_value hst (Some (RBoolean b))) p) houts
                  (held_once_set_primitive h hst houts (RBoolean b) p H eq_refl)) as H'.
    now destruct (heap_handleValueEnd _ _) as [[h' hst'] ho].
  - pose proof (held_once_handleValueEnd h
                  (heap_set_path_if_root (heap_set_value hst (Some RNull)) p) houts
                  (held_once_set_primitive h hst houts RNull p H eq_refl)) as H'.
    now destruct (heap_handleValueEnd _ _) as [[h' hst'] ho].
Qed.

Lemma held_once_run cs : forall h hst st houts,
  agree h hst st -> held_once h hst houts ->
  match heap_run h hst cs with
  | Some (h', hst', ho) => held_once h' hst' (houts ++ ho)
  | None => True
  end.
Proof.
  induction cs as [|c cs IH]; intros h hst st houts Hagree H.
  - simpl. now rewrite app_nil_r.
  - simpl.
    pose proof (heap_transform_agree h hst st c [] [] Hagree (Forall2_nil _)) as Hstep.
    pose proof (held_once_transform h hst st c houts Hagree H) as Hheld.
    destruct (heap_transform h hst c) as [[[h1 hst1] ho1]|]; [|exact I].
    destruct (transform st c) as [[st1 o1]|]; [|contradiction].
    destruct Hstep as [Hagree1 _].
    pose proof (IH h1 hst1 st1 _ Hagree1 Hheld) as Hrest.
    destruct (heap_run h1 hst1 cs) as [[[h2 hst2] ho2]|]; [|exact I].
    now rewrite app_assoc.
Qed.

(** X9.  No array and no object is ever in two places.  After any input each
    one is held at most once: as an item of one array, as the value of one
    property or the prototype of one object, as the value under
    construction, or as one result delivered.  So two values delivered have
    no part in common, and no value has the same part twice. *)
Theorem no_object_is_held_twice (cs : list JsonChunkWithPath) :
  exists h hst houts,
    heap_run [] initial_heap_state cs = Some (h, hst, houts) /\
    NoDup (held h hst houts).
Proof.
  assert (H0 : held_once [] initial_heap_state []).
  { intros a. cbn. repeat split; intros; try lia; contradiction. }
  pose proof (held_once_run cs [] initial_heap_state initial_state [] agree_initial H0) as H.
  pose proof (heap_run_agree cs [] initial_heap_state initial_state [] []
                agree_initial (Forall2_nil _)) as Hsome.
  destruct (run_initial_total cs) as (st & outs & E). rewrite E in Hsome.
  destruct (heap_run [] initial_heap_state cs) as [[[h hst] houts]|]; [|contradiction].
  exists h, hst, houts. split; [reflexivity|].
  apply (NoDup_count_occ Nat.eq_dec). intros a. exact (proj1 (H a)).
Qed.

End Behaviour.

(** * The stages whose code is not among the sources *)

(** Modelled from the spec: the limits of section 5.  [buffer_limit] is the
    number of chunks the buffer of a sub-stream holds before the splitter
    stops reading from its upstream; [hand_off] is the number of items that
    may wait between a stage and the next before the stage stops taking
    items of its own ("conceptually: one pending item between producer and
    consumer").  The specification gives no numbers, and the platform's
    streams have queue sizes of their own: both are parameters here.  A
    read is answered from the buffer, so that with a limit of 0 nothing
    gets through. *)
Class Limits : Type := {
  buffer_limit : nat;
  hand_off : nat
}.

Section Pipeline.

Context {host : Host} {limits : Limits}.

(** Modelled from the spec: the failures of section 7.  [ParseError] carries
    a reason and the offset within the overall input; [SourceAbort] is the
    failure of the input sequence itself. *)
Inductive StreamError : Type :=
| ParseError (reason : string) (offset : N)
| SourceAbort (reason : string).

(** ** Tokenizer *)

Inductive Container : Type := InObject | InArray.

(** What may come next between two tokens. *)
Inductive Expect : Type :=
| AnyValue
| ValueOrClose
| KeyOrClose
| AnyKey
| Colon
| CommaOrClose.

(** Modelled from the spec: the scanner state of the tokenizer (section
    4.1): between tokens, inside a string, after a backslash, inside a
    [\u] escape, accumulating a numeric literal, matching a keyword. *)
Inductive Scanner : Type :=
| Between (e : Expect)
| InString (role : StringRole)
| InEscape (role : StringRole)
| InUnicode (role : StringRole) (digits : list N)
| InNumber (literal : string)
| InKeyword (rest : string) (token : JsonChunk).

(** Modelled from the spec: the state of [JsonParser], whose code is not
    among the sources: the stack of open containers (innermost first), the
    scanner state, and the offset within the overall input. *)
Record Tokenizer : Type := {
  stack : list Container;
  scanner : Scanner;
  offset : N
}.

Definition initial_tokenizer : Tokenizer :=
  {| stack := []; scanner := Between AnyValue; offset := 0 |}.

Definition quote : ascii := ascii_of_nat 34.
Definition backslash : ascii := ascii_of_nat 92.

Definition is_whitespace (c : ascii) : bool :=
  let n := N_of_ascii c in
  ((n =? 32) || (n =? 9) || (n =? 10) || (n =? 13))%N.

Definition is_digit (c : ascii) : bool :=
  match digit_value c with Some _ => true | None => false end.

(** The characters a numeric literal is made of. *)
Definition is_number_char (c : ascii) : bool :=
  (is_digit c || Ascii.eqb c "-" || Ascii.eqb c "+" || Ascii.eqb c "."
   || Ascii.eqb c "e" || Ascii.eqb c "E")%bool.

Fixpoint skip_digits (s : string) : string :=
  match s with
  | String c s' => if is_digit c then skip_digits s' else s
  | EmptyString => s
  end.

Definition starts_with_digit (s : string) : bool :=
  match s with
  | String c _ => is_digit c
  | EmptyString => false
  end.

Definition valid_exponent (s : string) : bool :=
  match s with
  | EmptyString => true
  | String c s' =>
      if (Ascii.eqb c "e" || Ascii.eqb c "E")%bool then
        let s'' := match s' with
                   | String d r => if (Ascii.eqb d "+" || Ascii.eqb d "-")%bool then r else s'
                   | EmptyString => s'
                   end in
        (starts_with_digit s'' && String.eqb (skip_digits s'') "")%bool
      else false
  end.

Definition valid_fraction (s : string) : bool :=
  match s with
  | String c s' =>
      if Ascii.eqb c "." then (starts_with_digit s' && valid_exponent (skip_digits s'))%bool
      else valid_exponent s
  | EmptyString => true
  end.

(** The numeric literals of JSON: an optional minus, an integer part without
    leading zeros, an optional fraction, an optional exponent. *)
Definition valid_number (s : string) : bool :=
  let s' := match s with
            | String c r => if Ascii.eqb c "-" then r else s
            | EmptyString => s
            end in
  match s' with
  | String c r =>
      if Ascii.eqb c "0" then valid_fraction r
      else if is_digit c then valid_fraction (skip_digits r)
      else false
  | EmptyString => false
  end.

(** The character a one-letter escape stands for. *)
Definition unescape (c : ascii) : option ascii :=
  if Ascii.eqb c quote then Some quote
  else if Ascii.eqb c backslash then Some backslash
  else if Ascii.eqb c "/" then Some "/"%char
  else if Ascii.eqb c "b" then Some (ascii_of_nat 8)
  else if Ascii.eqb c "f" then Some (ascii_of_nat 12)
  else if Ascii.eqb c "n" then Some (ascii_of_nat 10)
  else if Ascii.eqb c "r" then Some (ascii_of_nat 13)
  else if Ascii.eqb c "t" then Some (ascii_of_nat 9)
  else None.

Definition hex_value (c : ascii) : option N :=
  let n := N_of_ascii c in
  if ((48 <=? n) && (n <=? 57))%N then Some (n - 48)%N
  else if ((65 <=? n) && (n <=? 70))%N then Some (n - 55)%N
  else if ((97 <=? n) && (n <=? 102))%N then Some (n - 87)%N
  else None.

(** Text is kept as bytes: the code unit of a [\u] escape is written in
    UTF-8. *)
Definition utf8 (n : N) : string :=
  if (n <? 128)%N then String (ascii_of_N n) ""
  else if (n <? 2048)%N then
    String (ascii_of_N (192 + n / 64)) (String (ascii_of_N (128 + n mod 64)) "")
  else
    String (ascii_of_N (224 + n / 4096))
      (String (ascii_of_N (128 + (n / 64) mod 64))
         (String (ascii_of_N (128 + n mod 64)) "")).

Definition code_unit (digits : list N) : N :=
  fold_left (fun acc d => 16 * acc + d)%N digits 0%N.

(** After a value: at the top level another document may follow; inside a
    container a comma or the closing bracket must. *)
Definition after_value (st : list Container) : Expect :=
  match st with
  | [] => AnyValue
  | _ => CommaOrClose
  end.

(** The outcome of scanning one character: the new stack and scanner state
    and the chunks that are complete, or a failure (with the chunks that
    were complete before the offending token). *)
Inductive Scan : Type :=
| Scanned (st : list Container) (sc : Scanner) (out : list JsonChunk)
| Malformed (out : list JsonChunk) (reason : string).

Definition unexpected : Scan := Malformed [] "unexpected character".

Definition scan_value (st : list Container) (e : Expect) (c : ascii) : Scan :=
  if Ascii.eqb c quote then Scanned st (InString VALUE) [STRING_START VALUE]
  else if Ascii.eqb c "{" then Scanned (InObject :: st) (Between KeyOrClose) [OBJECT_START]
  else if Ascii.eqb c "[" then Scanned (InArray :: st) (Between ValueOrClose) [ARRAY_START]
  else if Ascii.eqb c "t" then Scanned st (InKeyword "rue" (BOOLEAN_VALUE true)) []
  else if Ascii.eqb c "f" then Scanned st (InKeyword "alse" (BOOLEAN_VALUE false)) []
  else if Ascii.eqb c "n" then Scanned st (InKeyword "ull" NULL_VALUE) []
  else if (is_digit c || Ascii.eqb c "-")%bool then Scanned st (InNumber (String c "")) []
  else if Ascii.eqb c "]" then
    match e, st with
    | ValueOrClose, InArray :: st' => Scanned st' (Between (after_value st')) [ARRAY_END]
    | _, _ => unexpected
    end
  else unexpected.

Definition scan_between (st : list Container) (e : Expect) (c : ascii) : Scan :=
  if is_whitespace c then Scanned st (Between e) []
  else
    match e with
    | AnyValue | ValueOrClose => scan_value st e c
    | KeyOrClose =>
        if Ascii.eqb c quote then Scanned st (InString KEY) [STRING_START KEY]
        else if Ascii.eqb c "}" then
          match st with
          | InObject :: st' => Scanned st' (Between (after_value st')) [OBJECT_END]
          | _ => unexpected
          end
        else unexpected
    | AnyKey =>
        if Ascii.eqb c quote then Scanned st (InString KEY) [STRING_START KEY]
        else unexpected
    | Colon =>
        if Ascii.eqb c ":" then Scanned st (Between AnyValue) [] else unexpected
    | CommaOrClose =>
        match st with
        | InObject :: st' =>
            if Ascii.eqb c "," then Scanned st (Between AnyKey) []
            else if Ascii.eqb c "}" then Scanned st' (Between (after_value st')) [OBJECT_END]
            else unexpected
        | InArray :: st' =>
            if Ascii.eqb c "," then Scanned st (Between AnyValue) []
            else if Ascii.eqb c "]" then Scanned st' (Between (after_value st')) [ARRAY_END]
            else unexpected
        | [] => unexpected
        end
    end.

(** One character.  Inside a string every character of the text is a piece
    of its own here; [merge_pieces] below puts the pieces of one fragment
    together. *)
Definition scan (st : list Container) (sc : Scanner) (c : ascii) : Scan :=
  match sc with
  | Between e => scan_between st e c
  | InString role =>
      if Ascii.eqb c quote then
        Scanned st (Between (match role with KEY => Colon | VALUE => after_value st end))
                [STRING_END role]
      else if Ascii.eqb c backslash then Scanned st (InEscape role) []
      else if (N_of_ascii c <? 32)%N then unexpected
      else Scanned st (InString role) [STRING_CHUNK role (String c "")]
  | InEscape role =>
      match unescape c with
      | Some d => Scanned st (InString role) [STRING_CHUNK role (String d "")]
      | None =>
          if Ascii.eqb c "u" then Scanned st (InUnicode role []) []
          else Malformed [] "invalid escape"
      end
  | InUnicode role digits =>
      match hex_value c with
      | Some d =>
          if Nat.eqb (List.length digits) 3
          then Scanned st (InString role) [STRING_CHUNK role (utf8 (code_unit (digits ++ [d])))]
          else Scanned st (InUnicode role (digits ++ [d])) []
      | None => Malformed [] "invalid escape"
      end
  | InNumber literal =>
      if is_number_char c then Scanned st (InNumber (literal ++ String c "")) []
      else if valid_number literal then
        match scan_between st (after_value st) c with
        | Scanned st' sc' out =>
            Scanned st' sc' (NUMBER_VALUE (Number_of_literal literal) :: out)
        | Malformed out reason =>
            Malformed (NUMBER_VALUE (Number_of_literal literal) :: out) reason
        end
      else Malformed [] "invalid number"
  | InKeyword rest token =>
      match rest with
      | String r rest' =>
          if Ascii.eqb c r then
            match rest' with
            | EmptyString => Scanned st (Between (after_value st)) [token]
            | _ => Scanned st (InKeyword rest' token) []
            end
          else unexpected
      | EmptyString => unexpected
      end
  end.

(** The characters of a text, one after the other, until one is malformed. *)
Fixpoint scan_text (t : Tokenizer) (text : string)
  : Tokenizer * list JsonChunk * option StreamError :=
  match text with
  | EmptyString => (t, [], None)
  | String c text' =>
      match scan (stack t) (scanner t) c with
      | Scanned st sc out =>
          let '(t', out', err) :=
            scan_text {| stack := st; scanner := sc; offset := offset t + 1 |} text' in
          (t', out ++ out', err)
      | Malformed out reason => (t, out, Some (ParseError reason (offset t)))
      end
  end.

Definition role_eqb (a b : StringRole) : bool :=
  match a, b with
  | KEY, KEY | VALUE, VALUE => true
  | _, _ => false
  end.

(** Neighbouring pieces of one string become one chunk. *)
Fixpoint merge_pieces (cs : list JsonChunk) : list JsonChunk :=
  match cs with
  | [] => []
  | c :: cs' =>
      match c, merge_pieces cs' with
      | STRING_CHUNK r p, STRING_CHUNK r' q :: rest =>
          if role_eqb r r' then STRING_CHUNK r (p ++ q) :: rest
          else c :: STRING_CHUNK r' q :: rest
      | _, rest => c :: rest
      end
  end.

(** The pieces at the end of what was scanned: the text of a string that has
    not ended. *)
Fixpoint without_pending_rev (rev : list JsonChunk) : list JsonChunk :=
  match rev with
  | STRING_CHUNK _ _ :: rev' => without_pending_rev rev'
  | _ => rev
  end.

Definition without_pending (cs : list JsonChunk) : list JsonChunk :=
  rev (without_pending_rev (rev cs)).

(** One fragment: the text of a string that the fragment holds is delivered
    as one chunk, whether or not the string ends in the fragment.  When the
    fragment is malformed, the text of the offending token is not
    delivered. *)
Definition tokenize_fragment (t : Tokenizer) (fragment : string)
  : Tokenizer * list JsonChunk * option StreamError :=
  let '(t', out, err) := scan_text t fragment in
  match err with
  | None => (t', merge_pieces out, None)
  | Some e => (t', merge_pieces (without_pending out), Some e)
  end.

Fixpoint tokenize_fragments (t : Tokenizer) (fragments : list string)
  : Tokenizer * list JsonChunk * option StreamError :=
  match fragments with
  | [] => (t, [], None)
  | f :: fragments' =>
      let '(t', out, err) := tokenize_fragment t f in
      match err with
      | Some e => (t', out, Some e)
      | None =>
          let '(t'', out', err') := tokenize_fragments t' fragments' in
          (t'', out ++ out', err')
      end
  end.

(** The end of the input: a numeric literal under way is complete; a string
    or a keyword under way is not. *)
Definition end_of_input (t : Tokenizer) : list JsonChunk * option StreamError :=
  match scanner t with
  | Between _ => ([], None)
  | InNumber literal =>
      if valid_number literal then ([NUMBER_VALUE (Number_of_literal literal)], None)
      else ([], Some (ParseError "invalid number" (offset t)))
  | InString _ | InEscape _ | InUnicode _ _ =>
      ([], Some (ParseError "unterminated string" (offset t)))
  | InKeyword _ _ => ([], Some (ParseError "unexpected end of input" (offset t)))
  end.

(** Modelled from the spec: [JsonParser] (section 4.1): the chunks of a
    sequence of text fragments, and the failure that ended them, if any. *)
Definition JsonParser (fragments : list string) : list JsonChunk * option StreamError :=
  let '(t, out, err) := tokenize_fragments initial_tokenizer fragments in
  match err with
  | Some e => (out, Some e)
  | None => let (out', err') := end_of_input t in (out ++ out', err')
  end.

(** ** Path tracker *)

(** Modelled from the spec: one entry of the path tracker's stack (section
    4.2): for an object the key that is complete (none before the key and
    after the value) and the text of the key under way, for an array the
    index of the next item. *)
Inductive Frame : Type :=
| ObjectFrame (key : option string) (key_under_way : string)
| ArrayFrame (next : N).

Definition frame_segment (f : Frame) : list PathSegment :=
  match f with
  | ObjectFrame (Some k) _ => [Key k]
  | ObjectFrame None _ => []
  | ArrayFrame n => [Index n]
  end.

(** The path a chunk gets: the segments of the open containers, outermost
    first (the stack has the innermost first). *)
Definition path_of (frames : list Frame) : JsonPath :=
  flat_map frame_segment (rev frames).

(** A value has closed: the key of the enclosing object is over, the index
    of the enclosing array moves on. *)
Definition value_closed (frames : list Frame) : list Frame :=
  match frames with
  | ObjectFrame _ _ :: rest => ObjectFrame None "" :: rest
  | ArrayFrame n :: rest => ArrayFrame (n + 1) :: rest
  | [] => []
  end.

Definition annotate (frames : list Frame) (c : JsonChunk) : JsonChunkWithPath :=
  WithPath c (Some (path_of frames)).

(** Modelled from the spec: one step of [JsonPathDetector], whose code is
    not among the sources (section 4.2): the chunk is re-emitted with the
    path of the place it lives at.  A start chunk of a container carries the
    path of the container and then opens it; an end chunk closes it and
    carries the same path; the chunks of a key carry the path of the object,
    and the key is part of the path from the end of the key to the end of
    its value. *)
Definition track (frames : list Frame) (c : JsonChunk) : list Frame * JsonChunkWithPath :=
  match c with
  | OBJECT_START => (ObjectFrame None "" :: frames, annotate frames c)
  | ARRAY_START => (ArrayFrame 0 :: frames, annotate frames c)
  | OBJECT_END | ARRAY_END => (value_closed (tl frames), annotate (tl frames) c)
  | STRING_START KEY =>
      (match frames with
       | ObjectFrame k _ :: rest => ObjectFrame k "" :: rest
       | _ => frames
       end, annotate frames c)
  | STRING_CHUNK KEY text =>
      (match frames with
       | ObjectFrame k under_way :: rest => ObjectFrame k (under_way ++ text) :: rest
       | _ => frames
       end, annotate frames c)
  | STRING_END KEY =>
      (match frames with
       | ObjectFrame _ under_way :: rest => ObjectFrame (Some under_way) "" :: rest
       | _ => frames
       end, annotate frames c)
  | STRING_START VALUE | STRING_CHUNK VALUE _ => (frames, annotate frames c)
  | STRING_END VALUE | NUMBER_VALUE _ | BOOLEAN_VALUE _ | NULL_VALUE =>
      (value_closed frames, annotate frames c)
  end.

Fixpoint JsonPathDetector_from (frames : list Frame) (cs : list JsonChunk)
  : list JsonChunkWithPath :=
  match cs with
  | [] => []
  | c :: cs' => snd (track frames c) :: JsonPathDetector_from (fst (track frames c)) cs'
  end.

Definition JsonPathDetector (cs : list JsonChunk) : list JsonChunkWithPath :=
  JsonPathDetector_from [] cs.

(** ** Path selector *)

(** Modelled from the spec: a segment of a path pattern (section 3): a
    literal key or index, or the wildcard. *)
Inductive PatternSegment : Type :=
| Literal (s : PathSegment)
| Wildcard.

Definition segment_eqb (a b : PathSegment) : bool :=
  match a, b with
  | Key k, Key k' => String.eqb k k'
  | Index i, Index j => N.eqb i j
  | _, _ => false
  end.

(** A pattern matches a path on the first segments of the path; a path
    shorter than the pattern does not match. *)
Fixpoint matches (pattern : list PatternSegment) (p : JsonPath) : bool :=
  match pattern, p with
  | [], _ => true
  | _ :: _, [] => false
  | Literal s :: pattern', s' :: p' => (segment_eqb s s' && matches pattern' p')%bool
  | Wildcard :: pattern', _ :: p' => matches pattern' p'
  end.

Definition matches_chunk (pattern : list PatternSegment) (c : JsonChunkWithPath) : bool :=
  match chunk_path c with
  | Some p => matches pattern p
  | None => false
  end.

(** The nesting depth after a chunk. *)
Definition depth_after (d : nat) (c : JsonChunkWithPath) : nat :=
  match chunk c with
  | OBJECT_START | ARRAY_START | STRING_START _ => S d
  | OBJECT_END | ARRAY_END | STRING_END _ => pred d
  | _ => d
  end.

(** Modelled from the spec: one step of [JsonPathSelector], whose code is not
    among the sources (section 4.3).  The state is the depth inside the
    matched region (0 outside of one).  Outside, a chunk is forwarded when
    its path matches; inside, every chunk is forwarded until the boundary
    that closes the region. *)
Definition select (pattern : list PatternSegment) (inside : nat) (c : JsonChunkWithPath)
  : nat * list JsonChunkWithPath :=
  match inside with
  | O => if matches_chunk pattern c then (depth_after 0 c, [c]) else (0, [])
  | S _ => (depth_after inside c, [c])
  end.

Fixpoint JsonPathSelector_from (pattern : list PatternSegment) (inside : nat)
    (cs : list JsonChunkWithPath) : list JsonChunkWithPath :=
  match cs with
  | [] => []
  | c :: cs' =>
      snd (select pattern inside c)
      ++ JsonPathSelector_from pattern (fst (select pattern inside c)) cs'
  end.

Definition JsonPathSelector (pattern : list PatternSegment) (cs : list JsonChunkWithPath)
  : list JsonChunkWithPath :=
  JsonPathSelector_from pattern 0 cs.

(** ** Stream splitter *)

(** Modelled from the spec: the status flag of a sub-stream (section 9). *)
Inductive SubStatus : Type := pending | active | cancelled | completed.

(** Modelled from the spec: one entry of the splitter's table of sub-streams
    (sections 3 and 9): the matched path, the chunks not yet delivered to
    the consumer, whether the closing boundary has arrived, the status flag,
    and the failure delivered to it, if any. *)
Record SubStream : Type := {
  sub_path : option JsonPath;
  buffered : list JsonChunkWithPath;
  closing_seen : bool;
  status : SubStatus;
  failure : option StreamError
}.

Inductive SourceState : Type :=
| Live
| Ended
| Aborted (e : StreamError).

(** Modelled from the spec: [JsonPathStreamSplitter], whose code is not among
    the sources (section 4.4).  The table holds every sub-stream emitted so
    far, in the order of emission; [handed_out] counts the descriptors the
    consumer of the main sequence has read; [depth] is the nesting depth
    inside the run being received (0 between runs).  A buffer holds
    [buffer_limit] chunks at most: see [ready]. *)
Record Splitter : Type := {
  subs : list SubStream;
  handed_out : nat;
  depth : nat;
  source : SourceState
}.

Definition initial_splitter : Splitter :=
  {| subs := []; handed_out := 0; depth := 0; source := Live |}.

(** What happens at the splitter: the upstream offers a chunk, ends or
    fails; the consumer reads the main sequence, reads a sub-stream, or
    cancels one.  A chunk that is offered is read only when the splitter is
    [ready]; otherwise it stays with the upstream, which is to offer it
    again.  A chunk that arrives between two runs and cannot begin a value
    belongs to no run and is dropped. *)
Inductive Event : Type :=
| Upstream (c : JsonChunkWithPath)
| UpstreamEnd
| UpstreamAbort (e : StreamError)
| ReadMain
| ReadSub (i : nat)
| CancelSub (i : nat).

(** The outcome of a read: an item, the end of the sequence, a failure, or
    nothing yet. *)
Inductive ReadResult (A : Type) : Type :=
| Item (a : A)
| Done
| Failed (e : StreamError)
| NotYet.

#[global] Arguments Item {A} a.
#[global] Arguments Done {A}.
#[global] Arguments Failed {A} e.
#[global] Arguments NotYet {A}.

(** A sub-stream descriptor: the matched path and the handle of the chunk
    sequence (its index in the table). *)
Record Descriptor : Type := {
  descriptor_path : option JsonPath;
  handle : nat
}.

Inductive Response : Type :=
| NoResponse
| MainResponse (r : ReadResult Descriptor)
| SubResponse (r : ReadResult JsonChunkWithPath).

(** The chunks a value can begin with. *)
Definition opens_value (c : JsonChunkWithPath) : bool :=
  match chunk c with
  | OBJECT_START | ARRAY_START | STRING_START _
  | NUMBER_VALUE _ | BOOLEAN_VALUE _ | NULL_VALUE => true
  | _ => false
  end.

(** The first chunk of a run opens a sub-stream, whose path is the
    chunk's. *)
Definition open_sub (c : JsonChunkWithPath) : SubStream :=
  {| sub_path := chunk_path c;
     buffered := [c];
     closing_seen := Nat.eqb (depth_after 0 c) 0;
     status := pending;
     failure := None |}.

(** A chunk that the splitter reads inside a run goes to the buffer of the
    sub-stream being received, unless its consumer has discarded it.  The
    splitter reads a chunk only while that buffer has room (see [ready]), so
    that no buffer ever holds more than [buffer_limit] chunks
    ([buffers_within_the_limit]). *)
Definition feed_sub (d : nat) (c : JsonChunkWithPath) (sub : SubStream) : SubStream :=
  {| sub_path := sub_path sub;
     buffered := match status sub with
                 | cancelled => []
                 | _ => buffered sub ++ [c]
                 end;
     closing_seen := Nat.eqb (depth_after d c) 0;
     status := status sub;
     failure := failure sub |}.

Fixpoint update_last {A} (f : A -> A) (l : list A) : list A :=
  match l with
  | [] => []
  | [x] => [f x]
  | x :: l' => x :: update_last f l'
  end.

Definition fail_sub (e : StreamError) (sub : SubStream) : SubStream :=
  {| sub_path := sub_path sub;
     buffered := [];
     closing_seen := closing_seen sub;
     status := status sub;
     failure := Some e |}.

Definition cancel_sub (sub : SubStream) : SubStream :=
  {| sub_path := sub_path sub;
     buffered := [];
     closing_seen := closing_seen sub;
     status := cancelled;
     failure := failure sub |}.

(** Reading a sub-stream: a failure delivered to it comes first; then what is
    buffered; then the end, once the closing boundary has been delivered. *)
Definition read_sub_stream (sub : SubStream) : SubStream * ReadResult JsonChunkWithPath :=
  match failure sub with
  | Some e => (sub, Failed e)
  | None =>
      match status sub with
      | cancelled => (sub, Done)
      | _ =>
          match buffered sub with
          | c :: rest =>
              ({| sub_path := sub_path sub;
                  buffered := rest;
                  closing_seen := closing_seen sub;
                  status := active;
                  failure := None |}, Item c)
          | [] =>
              if closing_seen sub
              then ({| sub_path := sub_path sub;
                       buffered := [];
                       closing_seen := true;
                       status := completed;
                       failure := None |}, Done)
              else (sub, NotYet)
          end
      end
  end.

(** Modelled from the spec: whether the splitter reads from its upstream
    (sections 4.4 and 5).  It does not once the chunk it would read belongs
    to a sub-stream whose buffer has reached its limit; the chunks of a
    sub-stream that was discarded are dropped and need no room.  A
    consumer that pulls takes a chunk out of the buffer, which makes room
    again. *)
Definition room (sub : SubStream) : bool :=
  match status sub with
  | cancelled => true
  | _ => Nat.ltb (List.length (buffered sub)) buffer_limit
  end.

Definition ready (s : Splitter) : bool :=
  match depth s with
  | O => Nat.ltb 0 buffer_limit
  | S _ => last (map room (subs s)) true
  end.

(** The splitter reads a chunk: between two runs it opens a sub-stream,
    inside a run it goes to the sub-stream being received. *)
Definition receive (s : Splitter) (c : JsonChunkWithPath) : Splitter :=
  match source s with
  | Live =>
      match depth s with
      | O =>
          if opens_value c
          then {| subs := subs s ++ [open_sub c];
                  handed_out := handed_out s;
                  depth := depth_after 0 c;
                  source := Live |}
          else s
      | S _ =>
          {| subs := update_last (feed_sub (depth s) c) (subs s);
             handed_out := handed_out s;
             depth := depth_after (depth s) c;
             source := Live |}
      end
  | _ => s
  end.

(** Modelled from the spec: one event at the splitter (sections 4.4 and
    5).  A chunk that the upstream offers is read only when the splitter is
    [ready]; the end and the failure of the source are taken at once; a
    read of the main sequence hands over the next descriptor; a read of a
    sub-stream hands over its next chunk. *)
Definition step (s : Splitter) (ev : Event) : Splitter * Response :=
  match ev with
  | Upstream c => (if ready s then receive s c else s, NoResponse)
  | UpstreamEnd =>
      match source s with
      | Live =>
          ({| subs := subs s; handed_out := handed_out s; depth := depth s;
              source := Ended |}, NoResponse)
      | _ => (s, NoResponse)
      end
  | UpstreamAbort e =>
      match source s with
      | Live =>
          ({| subs := map (fail_sub e) (subs s); handed_out := handed_out s;
              depth := depth s; source := Aborted e |}, NoResponse)
      | _ => (s, NoResponse)
      end
  | ReadMain =>
      match source s with
      | Aborted e => (s, MainResponse (Failed e))
      | _ =>
          match nth_error (subs s) (handed_out s) with
          | Some sub =>
              ({| subs := subs s; handed_out := S (handed_out s); depth := depth s;
                  source := source s |},
               MainResponse (Item {| descriptor_path := sub_path sub;
                                     handle := handed_out s |}))
          | None =>
              match source s with
              | Ended => (s, MainResponse Done)
              | _ => (s, MainResponse NotYet)
              end
          end
      end
  | ReadSub i =>
      match nth_error (subs s) i with
      | Some sub =>
          ({| subs := update_nth i (fun sub => fst (read_sub_stream sub)) (subs s);
              handed_out := handed_out s; depth := depth s; source := source s |},
           SubResponse (snd (read_sub_stream sub)))
      | None => (s, NoResponse)
      end
  | CancelSub i =>
      ({| subs := update_nth i cancel_sub (subs s); handed_out := handed_out s;
          depth := depth s; source := source s |}, NoResponse)
  end.

(** The splitter after a history of events, and what the consumer was
    answered on the way. *)
Fixpoint run_splitter (s : Splitter) (evs : list Event) : Splitter * list Response :=
  match evs with
  | [] => (s, [])
  | ev :: evs' =>
      let (s', r) := step s ev in
      let (s'', rs) := run_splitter s' evs' in
      (s'', r :: rs)
  end.

Definition after (s : Splitter) (evs : list Event) : Splitter := fst (run_splitter s evs).

Definition read_main (s : Splitter) : Response := snd (step s ReadMain).

Definition read_sub (s : Splitter) (i : nat) : Response := snd (step s (ReadSub i)).

(** ** Chunk sequences that differ in how text is cut into pieces *)

Section SameText.

Variable X : Type.

(** [merge a b] is the one chunk that stands for the two neighbouring pieces
    [a] and [b], when they are pieces of one string. *)
Variable merge : X -> X -> option X.

(** Two sequences are the same up to the cutting of text when one is
    obtained from the other by merging neighbouring pieces and cutting
    pieces in two. *)
Inductive same_text : list X -> list X -> Prop :=
| same_refl l : same_text l l
| same_merge pre a b m post :
    merge a b = Some m -> same_text (pre ++ a :: b :: post) (pre ++ m :: post)
| same_sym l l' : same_text l l' -> same_text l' l
| same_trans l l' l'' : same_text l l' -> same_text l' l'' -> same_text l l''.

Lemma same_text_app_l c l l' : same_text l l' -> same_text (c ++ l) (c ++ l').
Proof.
  induction 1 as [l|pre a b m post Hm|l l' _ IH|l l' l'' _ IH1 _ IH2].
  - apply same_refl.
  - rewrite !app_assoc. now apply same_merge.
  - now apply same_sym.
  - now apply same_trans with (c ++ l').
Qed.

Lemma same_text_app_r c l l' : same_text l l' -> same_text (l ++ c) (l' ++ c).
Proof.
  induction 1 as [l|pre a b m post Hm|l l' _ IH|l l' l'' _ IH1 _ IH2].
  - apply same_refl.
  - rewrite <- !app_assoc. simpl. now apply same_merge.
  - now apply same_sym.
  - now apply same_trans with (l' ++ c).
Qed.

Lemma same_text_app l1 l1' l2 l2' :
  same_text l1 l1' -> same_text l2 l2' -> same_text (l1 ++ l2) (l1' ++ l2').
Proof.
  intros H1 H2. apply same_trans with (l1' ++ l2).
  - now apply same_text_app_r.
  - now apply same_text_app_l.
Qed.

(** A machine that cannot tell two pieces from their merge cannot tell two
    sequences apart that are the same up to the cutting of text.  [related]
    is what the machine's states may differ in. *)
Section Machine.

Variable S : Type.
Variable next : S -> X -> S.
Variable related : S -> S -> Prop.

Hypothesis related_sym : forall s t, related s t -> related t s.
Hypothesis related_trans : forall s t u, related s t -> related t u -> related s u.
Hypothesis related_next : forall s t c, related s t -> related (next s c) (next t c).
Hypothesis related_merge : forall s t a b m,
  merge a b = Some m -> related s t -> related (next (next s a) b) (next t m).

Lemma related_fold l : forall s t,
  related s t -> related (fold_left next l s) (fold_left next l t).
Proof.
  induction l as [|c l IH]; intros s t H; simpl; [exact H|].
  apply IH. now apply related_next.
Qed.

Lemma same_text_related l l' :
  same_text l l' ->
  forall s t, related s t -> related (fold_left next l s) (fold_left next l' t).
Proof.
  induction 1 as [l|pre a b m post Hm|l l' _ IH|l l' l'' _ IH1 _ IH2]; intros s t H.
  - now apply related_fold.
  - rewrite !fold_left_app. simpl. apply related_fold.
    apply (related_merge _ _ _ _ _ Hm). now apply related_fold.
  - apply related_sym, IH, related_sym, H.
  - apply related_trans with (fold_left next l' s).
    + apply IH1. apply related_trans with t; [exact H | apply related_sym, H].
    + now apply IH2.
Qed.

End Machine.

End SameText.

#[global] Arguments same_text {X} merge l l'.

(** Neighbouring pieces of the same role are pieces of one string. *)
Definition merge_tokens (a b : JsonChunk) : option JsonChunk :=
  match a, b with
  | STRING_CHUNK r p, STRING_CHUNK r' q =>
      if role_eqb r r' then Some (STRING_CHUNK r (p ++ q)) else None
  | _, _ => None
  end.

Definition path_eqb (p q : option JsonPath) : bool :=
  match p, q with
  | Some p', Some q' =>
      (Nat.eqb (List.length p') (List.length q')
       && forallb (fun sq => segment_eqb (fst sq) (snd sq)) (combine p' q'))%bool
  | None, None => true
  | _, _ => false
  end.

(** With paths: the two pieces are at the same place. *)
Definition merge_chunks (a b : JsonChunkWithPath) : option JsonChunkWithPath :=
  if path_eqb (chunk_path a) (chunk_path b) then
    match merge_tokens (chunk a) (chunk b) with
    | Some m => Some (WithPath m (chunk_path a))
    | None => None
    end
  else None.

(** *** The tokenizer *)

Lemma merge_pieces_same_text cs : same_text merge_tokens (merge_pieces cs) cs.
Proof.
  induction cs as [|c cs IH]; simpl; [apply same_refl|].
  assert (Hcons : same_text merge_tokens (c :: merge_pieces cs) (c :: cs))
    by apply (same_text_app_l _ _ [c] _ _ IH).
  destruct c as [| | | |r|r p|r|n|b|]; try exact Hcons.
  destruct (merge_pieces cs) as [|[| | | |r'|r' q|r'|n'|b'|] rest]; try exact Hcons.
  destruct (role_eqb r r') eqn:E; [|exact Hcons].
  eapply same_trans; [|exact Hcons].
  apply same_sym. apply (same_merge _ _ []). simpl. now rewrite E.
Qed.

Fixpoint concat_text (fragments : list string) : string :=
  match fragments with
  | [] => ""
  | f :: fragments' => f ++ concat_text fragments'
  end.

Lemma scan_text_app a : forall t b,
  scan_text t (a ++ b) =
  let '(t1, out1, err1) := scan_text t a in
  match err1 with
  | Some e => (t1, out1, Some e)
  | None =>
      let '(t2, out2, err2) := scan_text t1 b in
      (t2, out1 ++ out2, err2)
  end.
Proof.
  induction a as [|c a IH]; intros t b; simpl.
  - now destruct (scan_text t b) as [[t2 out2] err2].
  - destruct (scan (stack t) (scanner t) c) as [st sc out|out reason]; [|reflexivity].
    rewrite IH.
    destruct (scan_text _ a) as [[t1 out1] [e|]]; [reflexivity|].
    destruct (scan_text t1 b) as [[t2 out2] err2].
    now rewrite app_assoc.
Qed.

(** Scanning fragment by fragment comes to the same as scanning the whole
    text, up to the cutting of text. *)
Lemma tokenize_fragments_same_text fragments : forall t t' fine,
  scan_text t (concat_text fragments) = (t', fine, None) ->
  exists out,
    tokenize_fragments t fragments = (t', out, None) /\ same_text merge_tokens out fine.
Proof.
  induction fragments as [|f fragments IH]; intros t t' fine Hscan; simpl in *.
  - injection Hscan as <- <-. eexists. split; [reflexivity | apply same_refl].
  - rewrite scan_text_app in Hscan. unfold tokenize_fragment.
    destruct (scan_text t f) as [[t1 out1] [e|]]; [discriminate|].
    destruct (scan_text t1 (concat_text fragments)) as [[t2 out2] err2] eqn:E2.
    injection Hscan as <- <- ->.
    destruct (IH _ _ _ E2) as (out & -> & Hout).
    eexists. split; [reflexivity|].
    apply same_text_app; [apply merge_pieces_same_text | exact Hout].
Qed.

(** However a text is cut into fragments, the tokenizer accepts the
    fragments if it accepts the text, and the chunks are the same up to the
    cutting of text. *)
Lemma JsonParser_fragments fragments whole :
  JsonParser [concat_text fragments] = (whole, None) ->
  exists out,
    JsonParser fragments = (out, None) /\ same_text merge_tokens out whole.
Proof.
  unfold JsonParser. simpl. unfold tokenize_fragment.
  destruct (scan_text initial_tokenizer (concat_text fragments)) as [[t fine] [e|]] eqn:E;
    [discriminate|].
  destruct (tokenize_fragments_same_text fragments _ _ _ E) as (out & -> & Hout).
  destruct (end_of_input t) as [fin err]. intros [= <- ->].
  eexists. split; [reflexivity|].
  rewrite app_nil_r. apply same_text_app_r.
  eapply same_trans; [exact Hout|]. apply same_sym, merge_pieces_same_text.
Qed.

(** *** The materializer *)

Lemma role_eqb_eq r r' : role_eqb r r' = true -> r = r'.
Proof. now destruct r, r'. Qed.

Lemma segment_eqb_eq a b : segment_eqb a b = true -> a = b.
Proof.
  destruct a as [k|i], b as [k'|j]; simpl; try discriminate.
  - intros H. apply String.eqb_eq in H. now subst.
  - intros H. apply N.eqb_eq in H. now subst.
Qed.

Lemma path_eqb_eq p q : path_eqb p q = true -> p = q.
Proof.
  destruct p as [p|], q as [q|]; simpl; try discriminate; [|reflexivity].
  intros H. apply andb_true_iff in H as [Hlen Hall]. apply Nat.eqb_eq in Hlen.
  f_equal. revert q Hlen Hall.
  induction p as [|a p IH]; intros [|b q] Hlen Hall; try discriminate; [reflexivity|].
  simpl in *. apply andb_true_iff in Hall as [Hab Hall].
  apply segment_eqb_eq in Hab as ->. f_equal. apply IH; [now injection Hlen | exact Hall].
Qed.

Lemma segment_eqb_refl a : segment_eqb a a = true.
Proof. destruct a; simpl; [apply String.eqb_refl | apply N.eqb_refl]. Qed.

Lemma path_eqb_refl p : path_eqb p p = true.
Proof.
  destruct p as [p|]; simpl; [|reflexivity].
  rewrite Nat.eqb_refl. simpl.
  induction p as [|a p IH]; simpl; [reflexivity|].
  now rewrite segment_eqb_refl.
Qed.

(** What merging is: two pieces of the same role at the same place, and the
    piece with their texts joined. *)
Lemma merge_chunks_inv a b m :
  merge_chunks a b = Some m ->
  exists r p q where_,
    a = WithPath (STRING_CHUNK r p) where_ /\
    b = WithPath (STRING_CHUNK r q) where_ /\
    m = WithPath (STRING_CHUNK r (p ++ q)) where_.
Proof.
  unfold merge_chunks. destruct a as [ca pa], b as [cb pb]; simpl.
  destruct (path_eqb pa pb) eqn:Ep; [|discriminate].
  apply path_eqb_eq in Ep as <-.
  destruct ca as [| | | |r|r p|r|n|x|]; try discriminate.
  destruct cb as [| | | |r'|r' q|r'|n'|x'|]; try discriminate.
  simpl. destruct (role_eqb r r') eqn:Er; [|discriminate].
  apply role_eqb_eq in Er as <-. intros [= <-].
  now exists r, p, q, pa.
Qed.

(** The materializer as a machine that carries its output along. *)
Definition materialize (o : option (State * list JsonValueAndPath)) (c : JsonChunkWithPath)
  : option (State * list JsonValueAndPath) :=
  match o with
  | Some (st, out) =>
      match transform st c with
      | Some (st', out') => Some (st', out ++ out')
      | None => None
      end
  | None => None
  end.

Lemma materialize_run cs : forall st out,
  fold_left materialize cs (Some (st, out)) =
  match run st cs with
  | Some (st', out') => Some (st', out ++ out')
  | None => None
  end.
Proof.
  induction cs as [|c cs IH]; intros st out; simpl.
  - now rewrite app_nil_r.
  - destruct (transform st c) as [[st1 out1]|].
    + rewrite IH. destruct (run st1 cs) as [[st2 out2]|]; [|reflexivity].
      now rewrite app_assoc.
    + clear. induction cs as [|c cs IH]; [reflexivity | exact IH].
Qed.

Lemma materialize_merge o a b m :
  merge_chunks a b = Some m ->
  materialize (materialize o a) b = materialize o m.
Proof.
  intros Hm. apply merge_chunks_inv in Hm as (r & p & q & w & -> & -> & ->).
  destruct o as [[st out]|]; [|reflexivity].
  unfold materialize, transform; cbn [chunk chunk_path].
  destruct r.
  - destruct st as [v pth|o k v parent|a v parent]; simpl;
      rewrite ?app_nil_r; try reflexivity.
    now rewrite string_append_assoc.
  - destruct (state_value st) as [[s|n|x| |o|a]|] eqn:E; simpl; try reflexivity;
      rewrite state_value_set_value; simpl;
      rewrite set_value_set_value, app_nil_r, ?string_append_assoc; reflexivity.
Qed.

(** The materializer delivers the same for two inputs that are the same up
    to the cutting of text. *)
Lemma JsonDeserializer_same_text cs cs' :
  same_text merge_chunks cs cs' -> JsonDeserializer cs = JsonDeserializer cs'.
Proof.
  intros H.
  assert (E : fold_left materialize cs (Some (initial_state, []))
              = fold_left materialize cs' (Some (initial_state, []))).
  { apply (same_text_related _ merge_chunks _ materialize eq); try congruence.
    all: try exact H.
    intros s t a b m Hm ->. now apply materialize_merge. }
  rewrite !materialize_run in E. unfold JsonDeserializer.
  destruct (run initial_state cs) as [[st out]|], (run initial_state cs') as [[st' out']|];
    simpl in E; congruence.
Qed.

(** *** Tracker, selector and splitter *)

(** The splitter after it has read several chunks. *)
Definition feed (s : Splitter) (cs : list JsonChunkWithPath) : Splitter :=
  fold_left receive cs s.

Lemma run_splitter_cons s ev evs :
  run_splitter s (ev :: evs) =
  (fst (run_splitter (fst (step s ev)) evs),
   snd (step s ev) :: snd (run_splitter (fst (step s ev)) evs)).
Proof.
  cbn [run_splitter]. destruct (step s ev) as [s1 r]. cbn [fst snd].
  now destruct (run_splitter s1 evs).
Qed.

Lemma after_cons s ev evs : after s (ev :: evs) = after (fst (step s ev)) evs.
Proof. unfold after. now rewrite run_splitter_cons. Qed.

Lemma after_app evs : forall s evs', after s (evs ++ evs') = after (after s evs) evs'.
Proof.
  induction evs as [|ev evs IH]; intros s evs'; [reflexivity|].
  rewrite <- app_comm_cons, !after_cons. apply IH.
Qed.


(** Tracker, selector and splitter as one machine over the tokenizer's
    chunks. *)
Definition downstream (pattern : list PatternSegment)
    (d : list Frame * nat * Splitter) (c : JsonChunk) : list Frame * nat * Splitter :=
  let '(frames, inside, s) := d in
  (fst (track frames c),
   fst (select pattern inside (snd (track frames c))),
   feed s (snd (select pattern inside (snd (track frames c))))).

Lemma downstream_stages pattern cs : forall frames inside s,
  snd (fold_left (downstream pattern) cs (frames, inside, s)) =
  feed s (JsonPathSelector_from pattern inside (JsonPathDetector_from frames cs)).
Proof.
  induction cs as [|c cs IH]; intros frames inside s; [reflexivity|].
  simpl fold_left. rewrite IH. simpl. unfold feed. now rewrite fold_left_app.
Qed.

(** Splitters that differ only in how the buffered text is cut. *)
Definition alike_sub (a b : SubStream) : Prop :=
  sub_path a = sub_path b /\ closing_seen a = closing_seen b /\
  status a = status b /\ failure a = failure b /\
  same_text merge_chunks (buffered a) (buffered b).

Definition alike (s t : Splitter) : Prop :=
  handed_out s = handed_out t /\ depth s = depth t /\ source s = source t /\
  Forall2 alike_sub (subs s) (subs t).

Definition alike_downstream (d d' : list Frame * nat * Splitter) : Prop :=
  fst (fst d) = fst (fst d') /\ snd (fst d) = snd (fst d') /\ alike (snd d) (snd d').

Lemma alike_sub_sym a b : alike_sub a b -> alike_sub b a.
Proof.
  intros (H1 & H2 & H3 & H4 & H5). repeat split; try congruence. now apply same_sym.
Qed.

Lemma alike_sub_trans a b c : alike_sub a b -> alike_sub b c -> alike_sub a c.
Proof.
  intros (H1 & H2 & H3 & H4 & H5) (K1 & K2 & K3 & K4 & K5).
  repeat split; try congruence. now apply same_trans with (buffered b).
Qed.

Lemma Forall2_sym {A} (R : A -> A -> Prop) l l' :
  (forall a b, R a b -> R b a) -> Forall2 R l l' -> Forall2 R l' l.
Proof. intros HR. induction 1; constructor; auto. Qed.

Lemma Forall2_trans {A} (R : A -> A -> Prop) l l' l'' :
  (forall a b c, R a b -> R b c -> R a c) ->
  Forall2 R l l' -> Forall2 R l' l'' -> Forall2 R l l''.
Proof.
  intros HR H. revert l''. induction H; intros l'' H'; inversion H'; subst; constructor; eauto.
Qed.

Lemma alike_sym s t : alike s t -> alike t s.
Proof.
  intros (H1 & H2 & H3 & H4). repeat split; try congruence.
  apply Forall2_sym; [exact alike_sub_sym | exact H4].
Qed.

Lemma alike_trans s t u : alike s t -> alike t u -> alike s u.
Proof.
  intros (H1 & H2 & H3 & H4) (K1 & K2 & K3 & K4). repeat split; try congruence.
  eapply Forall2_trans; [exact alike_sub_trans | exact H4 | exact K4].
Qed.

Lemma Forall2_update_last {A} (R : A -> A -> Prop) (f g : A -> A) l l' :
  (forall a b, R a b -> R (f a) (g b)) ->
  Forall2 R l l' -> Forall2 R (update_last f l) (update_last g l').
Proof.
  intros Hfg. induction 1 as [|a b l l' Hab Hl IH]; [constructor|].
  simpl. destruct Hl as [|a' b' l l' Hab' Hl]; [repeat constructor; auto|].
  constructor; [exact Hab | exact IH].
Qed.

Lemma update_last_twice {A} (f g : A -> A) l :
  update_last f (update_last g l) = update_last (fun x => f (g x)) l.
Proof.
  induction l as [|a l IH]; [reflexivity|].
  destruct l as [|b l]; [reflexivity|].
  change (update_last g (a :: b :: l)) with (a :: update_last g (b :: l)).
  change (update_last (fun x => f (g x)) (a :: b :: l))
    with (a :: update_last (fun x => f (g x)) (b :: l)).
  rewrite <- IH. destruct (update_last g (b :: l)) eqn:E; [|reflexivity].
  destruct l; discriminate.
Qed.

Lemma feed_sub_alike d c a b : alike_sub a b -> alike_sub (feed_sub d c a) (feed_sub d c b).
Proof.
  intros (H1 & H2 & H3 & H4 & H5). unfold feed_sub, alike_sub; simpl.
  repeat split; try congruence. rewrite <- H3.
  destruct (status a); try apply same_refl; now apply same_text_app_r.
Qed.

Lemma receive_alike s t c : alike s t -> alike (receive s c) (receive t c).
Proof.
  intros H. pose proof H as (H1 & H2 & H3 & H4).
  unfold receive. rewrite <- H3, <- H2.
  destruct (source s) eqn:Esrc; [|exact H..].
  destruct (depth s) as [|d] eqn:Ed.
  - destruct (opens_value c); [|exact H].
    repeat split; simpl; auto. apply Forall2_app; [exact H4|].
    repeat constructor; apply same_refl.
  - repeat split; simpl; auto.
    apply Forall2_update_last; [apply feed_sub_alike | exact H4].
Qed.

Lemma feed_alike cs : forall s t, alike s t -> alike (feed s cs) (feed t cs).
Proof.
  unfold feed. induction cs as [|c cs IH]; intros s t H; simpl; [exact H|].
  apply IH. now apply receive_alike.
Qed.

Lemma pieces_same_text buf r p q w :
  same_text merge_chunks
    ((buf ++ [WithPath (STRING_CHUNK r p) w]) ++ [WithPath (STRING_CHUNK r q) w])
    (buf ++ [WithPath (STRING_CHUNK r (p ++ q)) w]).
Proof.
  rewrite <- app_assoc. simpl. apply (same_merge _ merge_chunks buf _ _ _ []).
  unfold merge_chunks; simpl. rewrite path_eqb_refl. now destruct r.
Qed.

(** Two pieces, received one after the other, leave the splitter as their
    merge does. *)
Lemma receive_merge s t a b m :
  merge_chunks a b = Some m -> alike s t ->
  alike (receive (receive s a) b) (receive t m).
Proof.
  intros Hm H. pose proof H as (H1 & H2 & H3 & H4).
  apply merge_chunks_inv in Hm as (r & p & q & w & -> & -> & ->).
  unfold receive. rewrite <- H3, <- H2.
  destruct (source s) eqn:Esrc; simpl; rewrite ?Esrc; [|exact H..].
  destruct (depth s) as [|d] eqn:Ed; simpl; rewrite ?Esrc, ?Ed; simpl.
  - exact H.
  - repeat split; simpl; auto. rewrite update_last_twice.
    apply Forall2_update_last; [|exact H4].
    intros x y (K1 & K2 & K3 & K4 & K5). unfold feed_sub, alike_sub; simpl.
    repeat split; try congruence. rewrite <- K3.
    destruct (status x); try apply same_refl;
      (eapply same_trans; [apply pieces_same_text | now apply same_text_app_r]).
Qed.

Lemma merge_tokens_inv a b m :
  merge_tokens a b = Some m ->
  exists r p q, a = STRING_CHUNK r p /\ b = STRING_CHUNK r q /\ m = STRING_CHUNK r (p ++ q).
Proof.
  destruct a as [| | | |r|r p|r|n|x|]; try discriminate.
  destruct b as [| | | |r'|r' q|r'|n'|x'|]; try discriminate.
  simpl. destruct (role_eqb r r') eqn:Er; [|discriminate].
  apply role_eqb_eq in Er as <-. intros [= <-]. now exists r, p, q.
Qed.

(** A piece does not move the tracker along, apart from the text of a key
    under way. *)
Lemma track_piece frames r p :
  snd (track frames (STRING_CHUNK r p)) = WithPath (STRING_CHUNK r p) (Some (path_of frames)) /\
  path_of (fst (track frames (STRING_CHUNK r p))) = path_of frames.
Proof.
  split; [now destruct r|].
  destruct r; [|reflexivity].
  destruct frames as [|[k u|n] rest]; try reflexivity.
  unfold path_of. simpl. rewrite !flat_map_app. reflexivity.
Qed.

Lemma track_pieces frames r p q :
  fst (track (fst (track frames (STRING_CHUNK r p))) (STRING_CHUNK r q))
  = fst (track frames (STRING_CHUNK r (p ++ q))).
Proof.
  destruct r; [|reflexivity].
  destruct frames as [|[k u|n] rest]; try reflexivity.
  simpl. now rewrite string_append_assoc.
Qed.

(** Nor the selector: it stays where it is, and forwards the piece or not
    by where it is and by the path. *)
Lemma select_piece pattern inside r p w :
  select pattern inside (WithPath (STRING_CHUNK r p) w) =
  (inside,
   if (negb (Nat.eqb inside 0) || matches_chunk pattern (WithPath (STRING_CHUNK r p) w))%bool
   then [WithPath (STRING_CHUNK r p) w] else []).
Proof.
  destruct inside as [|n]; simpl; [|reflexivity].
  unfold matches_chunk; simpl. now destruct w as [w|]; [destruct (matches pattern w)|].
Qed.

Lemma downstream_alike pattern d d' c :
  alike_downstream d d' ->
  alike_downstream (downstream pattern d c) (downstream pattern d' c).
Proof.
  destruct d as [[frames inside] s], d' as [[frames' inside'] s'].
  intros (Hf & Hi & Hs). simpl in Hf, Hi, Hs. subst frames' inside'.
  unfold alike_downstream; cbn [fst snd downstream].
  split; [reflexivity | split; [reflexivity | now apply feed_alike]].
Qed.

Lemma downstream_merge pattern d d' a b m :
  merge_tokens a b = Some m ->
  alike_downstream d d' ->
  alike_downstream (downstream pattern (downstream pattern d a) b) (downstream pattern d' m).
Proof.
  intros Hm. apply merge_tokens_inv in Hm as (r & p & q & -> & -> & ->).
  destruct d as [[frames inside] s], d' as [[frames' inside'] s'].
  intros (Hf & Hi & Hs). simpl in Hf, Hi, Hs. subst frames' inside'.
  unfold alike_downstream, downstream; cbn [fst snd].
  destruct (track_piece frames r p) as [-> Hpath].
  destruct (track_piece (fst (track frames (STRING_CHUNK r p))) r q) as [-> _].
  destruct (track_piece frames r (p ++ q)) as [-> _].
  rewrite Hpath, track_pieces, !select_piece. cbn [fst snd].
  split; [reflexivity | split; [reflexivity|]].
  assert (Hsame : matches_chunk pattern (WithPath (STRING_CHUNK r p) (Some (path_of frames)))
                  = matches_chunk pattern (WithPath (STRING_CHUNK r q) (Some (path_of frames)))
                  /\ matches_chunk pattern (WithPath (STRING_CHUNK r p) (Some (path_of frames)))
                  = matches_chunk pattern (WithPath (STRING_CHUNK r (p ++ q)) (Some (path_of frames))))
    by now split.
  destruct Hsame as [<- <-].
  destruct (negb (Nat.eqb inside 0) || matches_chunk pattern _)%bool.
  - simpl. apply receive_merge; [|exact Hs].
    unfold merge_chunks; cbn [chunk chunk_path]. rewrite path_eqb_refl. now destruct r.
  - exact Hs.
Qed.

(** The splitter after all the chunks of the pipeline have arrived. *)
Definition split (pattern : list PatternSegment) (tokens : list JsonChunk) : Splitter :=
  feed initial_splitter (JsonPathSelector pattern (JsonPathDetector tokens)).

(** Chunk sequences from the tokenizer that are the same up to the cutting
    of text leave the splitter with the same sub-streams, up to the cutting
    of text. *)
Lemma split_same_text pattern tokens tokens' :
  same_text merge_tokens tokens tokens' ->
  alike (split pattern tokens) (split pattern tokens').
Proof.
  intros H. unfold split, JsonPathSelector, JsonPathDetector.
  rewrite <- !downstream_stages.
  assert (Hd : alike_downstream
                 (fold_left (downstream pattern) tokens ([], 0, initial_splitter))
                 (fold_left (downstream pattern) tokens' ([], 0, initial_splitter))).
  { apply (same_text_related _ merge_tokens _ (downstream pattern) alike_downstream).
    - intros d d' (H1 & H2 & H3).
      split; [congruence | split; [congruence | now apply alike_sym]].
    - intros d d' d'' (H1 & H2 & H3) (K1 & K2 & K3).
      split; [congruence | split; [congruence | now apply alike_trans with (snd d')]].
    - intros d d' c. apply downstream_alike.
    - intros d d' a b m. apply downstream_merge.
    - exact H.
    - split; [reflexivity | split; [reflexivity|]].
      repeat split. constructor. }
  apply Hd.
Qed.

(** ** Reading in any order *)

(** What the consumer has been given from sub-stream [i] during a history
    of events that starts in [s]. *)
Fixpoint delivered (s : Splitter) (history : list Event) (i : nat) : list JsonChunkWithPath :=
  match history with
  | [] => []
  | ev :: history' =>
      match ev, snd (step s ev) with
      | ReadSub j, SubResponse (Item c) => if Nat.eqb j i then [c] else []
      | _, _ => []
      end ++ delivered (fst (step s ev)) history' i
  end.

(** The descriptors the consumer has been given from the main sequence. *)
Fixpoint descriptors_read (s : Splitter) (history : list Event) : list Descriptor :=
  match history with
  | [] => []
  | ev :: history' =>
      match ev, snd (step s ev) with
      | ReadMain, MainResponse (Item d) => [d]
      | _, _ => []
      end ++ descriptors_read (fst (step s ev)) history'
  end.

(** What the upstream did during a history that starts in [s]: the chunks
    it offered that were read, its end, its failure. *)
Definition took (s : Splitter) (ev : Event) : list Event :=
  match ev with
  | Upstream _ => if ready s then [ev] else []
  | UpstreamEnd | UpstreamAbort _ => [ev]
  | _ => []
  end.

Fixpoint taken (s : Splitter) (history : list Event) : list Event :=
  match history with
  | [] => []
  | ev :: history' => took s ev ++ taken (fst (step s ev)) history'
  end.

(** A history in which the source does not fail and the consumer discards
    nothing. *)
Definition undisturbed (history : list Event) : Prop :=
  Forall (fun ev => match ev with
                    | CancelSub _ | UpstreamAbort _ => False
                    | _ => True
                    end) history.

Definition undisturbedb (history : list Event) : bool :=
  forallb (fun ev => match ev with
                     | CancelSub _ | UpstreamAbort _ => false
                     | _ => true
                     end) history.

Lemma undisturbedb_sound history : undisturbedb history = true -> undisturbed history.
Proof.
  unfold undisturbedb, undisturbed. rewrite forallb_forall, Forall_forall.
  intros H ev Hin. specialize (H ev Hin). now destruct ev.
Qed.

Lemma nth_error_update_last {A} (f : A -> A) l : forall i,
  nth_error (update_last f l) i =
  if Nat.eqb (S i) (List.length l) then option_map f (nth_error l i) else nth_error l i.
Proof.
  induction l as [|x l IH]; intros i; [now destruct i|].
  destruct l as [|y l].
  - destruct i as [|[|i]]; reflexivity.
  - change (update_last f (x :: y :: l)) with (x :: update_last f (y :: l)).
    destruct i as [|i]; [reflexivity|].
    simpl nth_error. rewrite IH. reflexivity.
Qed.

Lemma update_last_length {A} (f : A -> A) l :
  List.length (update_last f l) = List.length l.
Proof.
  induction l as [|x l IH]; [reflexivity|].
  destruct l as [|y l]; [reflexivity|].
  change (update_last f (x :: y :: l)) with (x :: update_last f (y :: l)).
  cbn [List.length]. now rewrite IH.
Qed.

(** [s] is [s0] after the consumer has read [given i] from each sub-stream
    [i], the upstream having delivered the same to both. *)
Definition read_ahead (given : nat -> list JsonChunkWithPath) (s s0 : Splitter) : Prop :=
  depth s = depth s0 /\ source s = source s0 /\
  List.length (subs s) = List.length (subs s0) /\
  (forall i, List.length (subs s) <= i -> given i = []) /\
  forall i sub sub0,
    nth_error (subs s) i = Some sub -> nth_error (subs s0) i = Some sub0 ->
    sub_path sub = sub_path sub0 /\ closing_seen sub = closing_seen sub0 /\
    given i ++ buffered sub = buffered sub0 /\
    status sub <> cancelled /\ status sub0 <> cancelled /\ failure sub = None.

(** What sub-stream [i] is given by the event [ev] in state [s]. *)
Definition given_by (s : Splitter) (ev : Event) (i : nat) : list JsonChunkWithPath :=
  match ev, snd (step s ev) with
  | ReadSub j, SubResponse (Item c) => if Nat.eqb j i then [c] else []
  | _, _ => []
  end.

Lemma read_ahead_ext given given' s s0 :
  (forall i, given' i = given i) -> read_ahead given s s0 -> read_ahead given' s s0.
Proof.
  intros E (Hd & Hsrc & Hlen & Hout & Hsub).
  split; [exact Hd | split; [exact Hsrc | split; [exact Hlen | split]]].
  - intros i Hi. rewrite E. now apply Hout.
  - intros i sub sub0 Hx Hy. rewrite E. now apply Hsub.
Qed.

(** Only the table, the depth and the source matter. *)
Lemma read_ahead_same given s s' s0 :
  depth s' = depth s -> source s' = source s -> subs s' = subs s ->
  read_ahead given s s0 -> read_ahead given s' s0.
Proof.
  intros E1 E2 E3 (Hd & Hsrc & Hlen & Hout & Hsub).
  unfold read_ahead. rewrite E1, E2, E3. auto.
Qed.

Lemma receive_read_ahead given s s0 c :
  read_ahead given s s0 -> read_ahead given (receive s c) (receive s0 c).
Proof.
  intros H. pose proof H as (Hd & Hsrc & Hlen & Hout & Hsub).
  unfold receive. rewrite <- Hsrc, <- Hd.
  destruct (source s) eqn:Esrc; [|exact H..].
  destruct (depth s) as [|d] eqn:Ed.
  - destruct (opens_value c); [|exact H].
    split; [reflexivity | split; [reflexivity | split; [|split]]]; simpl.
    + rewrite !length_app. simpl. lia.
    + intros i Hi. rewrite length_app in Hi. simpl in Hi. apply Hout. lia.
    + intros i sub sub0 Hx Hy.
      apply nth_error_snoc in Hx as [[Hlt Hx]|[-> ->]];
        apply nth_error_snoc in Hy as [[Hlt' Hy]|[Hi ->]]; try lia.
      * now apply Hsub.
      * simpl. rewrite Hout by lia. repeat split; discriminate.
  - split; [reflexivity | split; [reflexivity | split; [|split]]]; simpl.
    + now rewrite !update_last_length.
    + intros i Hi. rewrite update_last_length in Hi. now apply Hout.
    + intros i sub sub0. rewrite !nth_error_update_last, <- Hlen.
      destruct (Nat.eqb (S i) (List.length (subs s))); [|apply Hsub].
      destruct (nth_error (subs s) i) as [x|] eqn:Ex; [|discriminate].
      destruct (nth_error (subs s0) i) as [y|] eqn:Ey; [|discriminate].
      intros [= <-] [= <-].
      destruct (Hsub i x y Ex Ey) as (K1 & K2 & K3 & K4 & K5 & K6).
      unfold feed_sub; simpl. repeat split; auto.
      destruct (status x), (status y); try contradiction; now rewrite app_assoc, K3.
Qed.

Lemma end_read_ahead given s s0 :
  read_ahead given s s0 ->
  read_ahead given (fst (step s UpstreamEnd)) (fst (step s0 UpstreamEnd)).
Proof.
  intros H. pose proof H as (Hd & Hsrc & Hlen & Hout & Hsub).
  unfold step. rewrite <- Hsrc.
  destruct (source s) eqn:Esrc; [|exact H..].
  split; [exact Hd | split; [reflexivity | split; [exact Hlen | split; assumption]]].
Qed.

Lemma read_main_read_ahead given s s0 :
  read_ahead given s s0 -> read_ahead given (fst (step s ReadMain)) s0.
Proof.
  intros H. apply (read_ahead_same given s); [..|exact H]; unfold step;
    destruct (source s) eqn:E; simpl; try congruence;
    destruct (nth_error (subs s) (handed_out s)); simpl; congruence.
Qed.

(** What a read of sub-stream [j] hands to sub-stream [i]. *)
Definition handed (r : ReadResult JsonChunkWithPath) (j i : nat) : list JsonChunkWithPath :=
  match r with
  | Item c => if Nat.eqb j i then [c] else []
  | _ => []
  end.

Lemma read_sub_stream_ahead pre x y :
  sub_path x = sub_path y -> closing_seen x = closing_seen y ->
  pre ++ buffered x = buffered y ->
  status x <> cancelled -> status y <> cancelled -> failure x = None ->
  sub_path (fst (read_sub_stream x)) = sub_path y /\
  closing_seen (fst (read_sub_stream x)) = closing_seen y /\
  (pre ++ match snd (read_sub_stream x) with Item c => [c] | _ => [] end)
    ++ buffered (fst (read_sub_stream x)) = buffered y /\
  status (fst (read_sub_stream x)) <> cancelled /\ status y <> cancelled /\
  failure (fst (read_sub_stream x)) = None.
Proof.
  intros K1 K2 K3 K4 K5 K6. unfold read_sub_stream. rewrite K6.
  destruct (status x) eqn:Est; try contradiction;
    destruct (buffered x) as [|c rest] eqn:Eb; simpl;
    try (destruct (closing_seen x) eqn:Ec; simpl);
    rewrite ?Est, ?Eb, ?app_nil_r, <- ?app_assoc; rewrite ?app_nil_r in K3; simpl;
    repeat split; auto; try discriminate; congruence.
Qed.

Lemma read_sub_read_ahead given s s0 j :
  read_ahead given s s0 ->
  read_ahead (fun i => given i ++ given_by s (ReadSub j) i) (fst (step s (ReadSub j))) s0.
Proof.
  intros H. pose proof H as (Hd & Hsrc & Hlen & Hout & Hsub).
  unfold given_by, step.
  destruct (nth_error (subs s) j) as [x|] eqn:Ex; cbn [fst snd].
  - fold (handed (snd (read_sub_stream x)) j).
    split; [exact Hd | split; [exact Hsrc | split; [|split]]]; simpl.
    + now rewrite update_nth_length.
    + intros i Hi. rewrite update_nth_length in Hi. rewrite (Hout i Hi).
      unfold handed. destruct (snd (read_sub_stream x)); try reflexivity.
      destruct (Nat.eqb j i) eqn:E; [|reflexivity].
      apply Nat.eqb_eq in E as ->.
      assert (Hn : nth_error (subs s) i <> None) by congruence.
      apply nth_error_Some in Hn. lia.
    + intros i sub sub0. rewrite nth_error_update_nth.
      destruct (Nat.eqb i j) eqn:Eij.
      * apply Nat.eqb_eq in Eij as ->. rewrite Ex. simpl. intros [= <-] Ey.
        destruct (Hsub j x sub0 Ex Ey) as (K1 & K2 & K3 & K4 & K5 & K6).
        unfold handed. rewrite Nat.eqb_refl.
        replace (match snd (read_sub_stream x) with
                 | Item c => [c] | _ => [] end)
          with (match snd (read_sub_stream x) with
                | Item c => [c] | Done | Failed _ | NotYet => [] end)
          by now destruct (snd (read_sub_stream x)).
        now apply read_sub_stream_ahead.
      * intros Hx Hy. unfold handed. rewrite Nat.eqb_sym, Eij.
        destruct (snd (read_sub_stream x)); rewrite app_nil_r; now apply Hsub.
  - apply (read_ahead_ext given); [|exact H]. intros i. apply app_nil_r.
Qed.

(** The splitter that reads whatever the upstream has, is never read and so
    keeps everything: what the sub-streams are to deliver. *)
Definition upstream_step (s0 : Splitter) (ev : Event) : Splitter :=
  match ev with
  | Upstream c => receive s0 c
  | UpstreamEnd | UpstreamAbort _ => fst (step s0 ev)
  | _ => s0
  end.

Definition absorb (s0 : Splitter) (evs : list Event) : Splitter :=
  fold_left upstream_step evs s0.

Lemma absorb_app evs evs' s0 : absorb s0 (evs ++ evs') = absorb (absorb s0 evs) evs'.
Proof. apply fold_left_app. Qed.

Lemma absorb_upstream cs : forall s0, absorb s0 (map Upstream cs) = feed s0 cs.
Proof.
  induction cs as [|c cs IH]; intros s0; [reflexivity|]. simpl. apply IH.
Qed.

Lemma step_read_ahead given s s0 ev :
  match ev with CancelSub _ | UpstreamAbort _ => False | _ => True end ->
  read_ahead given s s0 ->
  read_ahead (fun i => given i ++ given_by s ev i) (fst (step s ev)) (absorb s0 (took s ev)).
Proof.
  intros Hev H. destruct ev as [c| |e| |j|j]; try contradiction.
  - apply (read_ahead_ext given); [intros i; apply app_nil_r|].
    simpl. destruct (ready s); [now apply receive_read_ahead | exact H].
  - apply (read_ahead_ext given); [intros i; apply app_nil_r|].
    now apply end_read_ahead.
  - apply (read_ahead_ext given).
    + intros i. unfold given_by. now rewrite app_nil_r.
    + now apply read_main_read_ahead.
  - now apply read_sub_read_ahead.
Qed.

(** Whatever the consumer reads and whenever it reads it, what it has been
    given from a sub-stream, followed by what is still buffered for it, is
    what the splitter has read for that sub-stream. *)
Lemma reading_in_any_order history : forall given s s0,
  undisturbed history ->
  read_ahead given s s0 ->
  read_ahead (fun i => given i ++ delivered s history i)
             (after s history) (absorb s0 (taken s history)).
Proof.
  induction history as [|ev history IH]; intros given s s0 Hh H.
  - apply (read_ahead_ext given); [intros i; apply app_nil_r | exact H].
  - inversion Hh as [|? ? Hev Hh']; subst.
    rewrite after_cons. simpl taken. rewrite absorb_app.
    apply (read_ahead_ext (fun i => (given i ++ given_by s ev i)
                                    ++ delivered (fst (step s ev)) history i)).
    + intros i. simpl delivered. fold (given_by s ev i). now rewrite app_assoc.
    + apply IH; [exact Hh'|]. now apply step_read_ahead.
Qed.

(** *** The main sequence *)

Fixpoint descriptors_from (i : nat) (l : list SubStream) : list Descriptor :=
  match l with
  | [] => []
  | sub :: l' =>
      {| descriptor_path := sub_path sub; handle := i |} :: descriptors_from (S i) l'
  end.

(** The descriptors of the sub-streams of the table, in the order of
    emission. *)
Definition descriptors (s : Splitter) : list Descriptor := descriptors_from 0 (subs s).

Lemma descriptors_from_length l : forall i,
  List.length (descriptors_from i l) = List.length l.
Proof. induction l as [|x l IH]; intros i; simpl; [reflexivity | now rewrite IH]. Qed.

Lemma descriptors_from_paths l : forall l' i,
  map sub_path l = map sub_path l' -> descriptors_from i l = descriptors_from i l'.
Proof.
  induction l as [|x l IH]; intros [|y l'] i E; try discriminate; [reflexivity|].
  simpl in *. injection E as -> E. f_equal. now apply IH.
Qed.

Lemma descriptors_from_app l : forall l' i,
  descriptors_from i (l ++ l') = descriptors_from i l ++ descriptors_from (i + List.length l) l'.
Proof.
  induction l as [|x l IH]; intros l' i; simpl.
  - now rewrite Nat.add_0_r.
  - rewrite IH. now rewrite Nat.add_succ_r.
Qed.

Lemma firstn_S_descriptors l : forall i k sub,
  nth_error l k = Some sub ->
  firstn (S k) (descriptors_from i l)
  = firstn k (descriptors_from i l)
    ++ [{| descriptor_path := sub_path sub; handle := i + k |}].
Proof.
  induction l as [|x l IH]; intros i [|k] sub H; try discriminate.
  - injection H as ->. simpl. now rewrite Nat.add_0_r.
  - simpl in H. change (firstn (S (S k)) (descriptors_from i (x :: l)))
      with ({| descriptor_path := sub_path x; handle := i |}
            :: firstn (S k) (descriptors_from (S i) l)).
    rewrite (IH (S i) k sub H). simpl. now rewrite Nat.add_succ_r.
Qed.

Lemma map_update_last {A B} (g : A -> B) (f : A -> A) l :
  (forall x, g (f x) = g x) -> map g (update_last f l) = map g l.
Proof.
  intros H. induction l as [|x l IH]; [reflexivity|].
  destruct l as [|y l]; [simpl; now rewrite H|].
  change (update_last f (x :: y :: l)) with (x :: update_last f (y :: l)).
  change (map g (x :: update_last f (y :: l))) with (g x :: map g (update_last f (y :: l))).
  rewrite IH. reflexivity.
Qed.

Lemma map_update_nth {A B} (g : A -> B) (f : A -> A) l :
  (forall x, g (f x) = g x) -> forall i, map g (update_nth i f l) = map g l.
Proof.
  intros H. induction l as [|x l IH]; intros [|i]; simpl; try reflexivity.
  - now rewrite H.
  - now rewrite IH.
Qed.

Lemma read_sub_stream_path sub : sub_path (fst (read_sub_stream sub)) = sub_path sub.
Proof.
  unfold read_sub_stream.
  destruct (failure sub); [reflexivity|].
  destruct (status sub); try reflexivity;
    destruct (buffered sub); try reflexivity; destruct (closing_seen sub); reflexivity.
Qed.

(** No event takes a descriptor back or changes one. *)
Lemma step_descriptors s ev :
  exists more, descriptors (fst (step s ev)) = descriptors s ++ more.
Proof.
  unfold descriptors.
  destruct ev as [c| |e| |j|j]; unfold step.
  - cbn [fst]. destruct (ready s); [unfold receive | exists []; now rewrite app_nil_r].
    destruct (source s); try (exists []; now rewrite app_nil_r).
    destruct (depth s).
    + destruct (opens_value c); [|exists []; now rewrite app_nil_r].
      eexists. simpl. apply descriptors_from_app.
    + exists []. rewrite app_nil_r. simpl. apply descriptors_from_paths.
      now apply map_update_last.
  - destruct (source s); exists []; now rewrite app_nil_r.
  - destruct (source s); try (exists []; now rewrite app_nil_r).
    exists []. rewrite app_nil_r. simpl. apply descriptors_from_paths.
    rewrite map_map. reflexivity.
  - destruct (source s); try (exists []; now rewrite app_nil_r);
      destruct (nth_error (subs s) (handed_out s)); exists []; now rewrite app_nil_r.
  - destruct (nth_error (subs s) j); exists []; rewrite app_nil_r; [|reflexivity].
    simpl. apply descriptors_from_paths. apply map_update_nth, read_sub_stream_path.
  - exists []. rewrite app_nil_r. simpl. apply descriptors_from_paths.
    now apply map_update_nth.
Qed.

Lemma firstn_app_le {A} (l l' : list A) k :
  k <= List.length l -> firstn k (l ++ l') = firstn k l.
Proof.
  intros H. rewrite firstn_app. replace (k - List.length l) with 0 by lia.
  simpl. apply app_nil_r.
Qed.

(** Only a read of the main sequence hands a descriptor out. *)
Lemma step_handed_out s ev :
  match ev with
  | ReadMain => True
  | _ => handed_out (fst (step s ev)) = handed_out s
  end.
Proof.
  destruct ev as [c| |e| |j|j]; unfold step; try exact I.
  - cbn [fst]. destruct (ready s); [unfold receive | reflexivity].
    destruct (source s); try reflexivity.
    destruct (depth s); [destruct (opens_value c)|]; reflexivity.
  - destruct (source s); reflexivity.
  - destruct (source s); reflexivity.
  - destruct (nth_error (subs s) j); reflexivity.
  - reflexivity.
Qed.

Definition given_descriptor (s : Splitter) (ev : Event) : list Descriptor :=
  match ev, snd (step s ev) with
  | ReadMain, MainResponse (Item d) => [d]
  | _, _ => []
  end.

Lemma read_main_step s :
  handed_out s <= List.length (subs s) ->
  handed_out (fst (step s ReadMain)) <= List.length (subs (fst (step s ReadMain))) /\
  firstn (handed_out (fst (step s ReadMain))) (descriptors (fst (step s ReadMain)))
  = firstn (handed_out s) (descriptors s) ++ given_descriptor s ReadMain.
Proof.
  intros Hle. unfold given_descriptor, step.
  assert (Hitem : forall sub,
            nth_error (subs s) (handed_out s) = Some sub ->
            S (handed_out s) <= List.length (subs s) /\
            firstn (S (handed_out s)) (descriptors s)
            = firstn (handed_out s) (descriptors s)
              ++ [{| descriptor_path := sub_path sub; handle := handed_out s |}]).
  { intros sub E. split.
    - assert (Hn : nth_error (subs s) (handed_out s) <> None) by congruence.
      apply nth_error_Some in Hn. lia.
    - apply (firstn_S_descriptors _ 0 _ _ E). }
  destruct (source s) eqn:Esrc; cbn [fst snd];
    try (split; [exact Hle | now rewrite app_nil_r]);
    destruct (nth_error (subs s) (handed_out s)) as [sub|] eqn:E; cbn [fst snd];
    try (split; [exact Hle | now rewrite app_nil_r]);
    apply (Hitem sub eq_refl).
Qed.

(** One event: what the consumer has from the main sequence grows by the
    descriptor it is given, if it is given one. *)
Lemma step_main s ev :
  handed_out s <= List.length (subs s) ->
  handed_out (fst (step s ev)) <= List.length (subs (fst (step s ev))) /\
  firstn (handed_out (fst (step s ev))) (descriptors (fst (step s ev)))
  = firstn (handed_out s) (descriptors s) ++ given_descriptor s ev.
Proof.
  intros Hle.
  destruct (step_descriptors s ev) as [more Hd].
  assert (Hl : List.length (subs s) <= List.length (subs (fst (step s ev)))).
  { apply (f_equal (@List.length _)) in Hd.
    unfold descriptors in Hd. rewrite length_app, !descriptors_from_length in Hd. lia. }
  pose proof (step_handed_out s ev) as Hh.
  destruct ev as [c| |e| |j|j]; try (now apply read_main_step);
    (split; [lia|]); rewrite Hh, Hd; unfold given_descriptor; rewrite app_nil_r;
    apply firstn_app_le; unfold descriptors; now rewrite descriptors_from_length.
Qed.

(** The main sequence delivers the descriptors in the order of emission,
    each once. *)
Lemma main_sequence_in_order history : forall s,
  handed_out s <= List.length (subs s) ->
  firstn (handed_out (after s history)) (descriptors (after s history))
  = firstn (handed_out s) (descriptors s) ++ descriptors_read s history.
Proof.
  induction history as [|ev history IH]; intros s Hle.
  - unfold after; simpl. now rewrite app_nil_r.
  - rewrite after_cons. destruct (step_main s ev Hle) as [Hle' E].
    rewrite (IH _ Hle'), E. simpl descriptors_read. fold (given_descriptor s ev).
    now rewrite app_assoc.
Qed.

(** *** What the reads answer *)

(** The answers to the reads of sub-stream [i] during a history, and to the
    reads of the main sequence. *)
Fixpoint sub_answers (s : Splitter) (history : list Event) (i : nat)
  : list (ReadResult JsonChunkWithPath) :=
  match history with
  | [] => []
  | ev :: history' =>
      match ev, snd (step s ev) with
      | ReadSub j, SubResponse r => if Nat.eqb j i then [r] else []
      | _, _ => []
      end ++ sub_answers (fst (step s ev)) history' i
  end.

Fixpoint main_answers (s : Splitter) (history : list Event) : list (ReadResult Descriptor) :=
  match history with
  | [] => []
  | ev :: history' =>
      match ev, snd (step s ev) with
      | ReadMain, MainResponse r => [r]
      | _, _ => []
      end ++ main_answers (fst (step s ev)) history'
  end.

Lemma taken_app h1 : forall s h2,
  taken s (h1 ++ h2) = taken s h1 ++ taken (after s h1) h2.
Proof.
  induction h1 as [|ev h1 IH]; intros s h2; [reflexivity|].
  simpl. rewrite after_cons, IH. now rewrite app_assoc.
Qed.

(** A sub-stream whose closing boundary has been read, and that has not
    failed and was not discarded, hands out what is buffered, chunk by
    chunk, and then answers that it has ended, as often as it is asked. *)
Lemma reading_to_the_end n : forall s i sub,
  nth_error (subs s) i = Some sub ->
  failure sub = None -> status sub <> cancelled -> closing_seen sub = true ->
  sub_answers s (repeat (ReadSub i) (List.length (buffered sub) + n)) i
  = map Item (buffered sub) ++ repeat Done n.
Proof.
  assert (Hdone : forall n s i sub,
            nth_error (subs s) i = Some sub ->
            failure sub = None -> status sub <> cancelled -> closing_seen sub = true ->
            buffered sub = [] ->
            sub_answers s (repeat (ReadSub i) n) i = repeat Done n).
  { clear n. induction n as [|n IH]; intros s i sub Hnth Hf Hst Hc Hb; [reflexivity|].
    cbn [repeat sub_answers]. unfold step at 1. rewrite Hnth. cbn [snd].
    rewrite Nat.eqb_refl.
    assert (E : read_sub_stream sub
                = ({| sub_path := sub_path sub; buffered := []; closing_seen := true;
                      status := completed; failure := None |}, Done)).
    { unfold read_sub_stream. rewrite Hf, Hb, Hc. now destruct (status sub). }
    rewrite E. cbn [snd app]. f_equal.
    apply (IH _ i {| sub_path := sub_path sub; buffered := []; closing_seen := true;
                     status := completed; failure := None |}); try reflexivity;
      try discriminate.
    unfold step. rewrite Hnth. cbn [fst subs].
    rewrite (nth_error_update_nth_same _ _ _ _ Hnth). now rewrite E. }
  intros s i sub. remember (buffered sub) as buf eqn:Hbuf. revert s sub Hbuf.
  induction buf as [|c buf IH]; intros s sub Hbuf Hnth Hf Hst Hc.
  - simpl. now apply (Hdone n s i sub).
  - cbn [List.length Nat.add repeat sub_answers map app]. unfold step at 1. rewrite Hnth.
    cbn [snd]. rewrite Nat.eqb_refl.
    assert (E : read_sub_stream sub
                = ({| sub_path := sub_path sub; buffered := buf;
                      closing_seen := closing_seen sub;
                      status := active; failure := None |}, Item c)).
    { unfold read_sub_stream. rewrite Hf, <- Hbuf. now destruct (status sub). }
    rewrite E. cbn [snd app]. f_equal.
    apply (IH _ {| sub_path := sub_path sub; buffered := buf;
                   closing_seen := closing_seen sub;
                   status := active; failure := None |}); try reflexivity;
      try discriminate; try exact Hc.
    unfold step. rewrite Hnth. cbn [fst subs].
    rewrite (nth_error_update_nth_same _ _ _ _ Hnth). now rewrite E.
Qed.

(** Once the source has ended, the main sequence hands out the descriptors
    it has not handed out yet, in order, and then answers that it has
    ended, as often as it is asked. *)
Lemma reading_main_to_the_end n : forall k s,
  source s = Ended ->
  handed_out s + k = List.length (subs s) ->
  main_answers s (repeat ReadMain (k + n))
  = map Item (skipn (handed_out s) (descriptors s)) ++ repeat Done n.
Proof.
  assert (Hskip : forall s, List.length (subs s) <= handed_out s ->
                            skipn (handed_out s) (descriptors s) = []).
  { intros s Hle. apply skipn_all2. unfold descriptors.
    now rewrite descriptors_from_length. }
  assert (Hdone : forall n s, source s = Ended -> List.length (subs s) <= handed_out s ->
                              main_answers s (repeat ReadMain n) = repeat Done n).
  { clear n. induction n as [|n IH]; intros s Hsrc Hle; [reflexivity|].
    cbn [repeat main_answers]. unfold step at 1 2. rewrite Hsrc.
    destruct (nth_error (subs s) (handed_out s)) as [sub|] eqn:E.
    - assert (Hn : nth_error (subs s) (handed_out s) <> None) by congruence.
      apply nth_error_Some in Hn. lia.
    - cbn [fst snd app]. f_equal. now apply IH. }
  induction k as [|k IH]; intros s Hsrc Hk.
  - rewrite Hskip by lia. simpl. apply Hdone; [exact Hsrc | lia].
  - cbn [Nat.add repeat main_answers]. unfold step at 1 2. rewrite Hsrc.
    destruct (nth_error (subs s) (handed_out s)) as [sub|] eqn:E.
    + cbn [fst snd app].
      rewrite (IH {| subs := subs s; handed_out := S (handed_out s); depth := depth s;
                     source := Ended |}); [|reflexivity | simpl; lia].
      cbn [handed_out]. unfold descriptors at 2. cbn [subs]. fold (descriptors s).
      assert (Hd : skipn (handed_out s) (descriptors s)
                   = {| descriptor_path := sub_path sub; handle := handed_out s |}
                     :: skipn (S (handed_out s)) (descriptors s)).
      { pose proof (firstn_S_descriptors (subs s) 0 (handed_out s) sub E) as F.
        fold (descriptors s) in F. cbn [Nat.add] in F.
        pose proof (firstn_skipn (S (handed_out s)) (descriptors s)) as A.
        pose proof (firstn_skipn (handed_out s) (descriptors s)) as B.
        rewrite F, <- app_assoc in A.
        apply (app_inv_head (firstn (handed_out s) (descriptors s))).
        rewrite B. symmetry. exact A. }
      now rewrite Hd.
    + apply nth_error_None in E. lia.
Qed.

(** *** Sub-streams that are complete *)

(** While a run is being received, the closing boundary of the sub-stream
    that receives it has not been seen. *)
Definition last_is_open (s : Splitter) : Prop :=
  forall sub,
    nth_error (subs s) (pred (List.length (subs s))) = Some sub ->
    closing_seen sub = true -> depth s = 0.

Lemma receive_last_is_open s c : last_is_open s -> last_is_open (receive s c).
Proof.
  intros H. unfold receive.
  destruct (source s); [|exact H..].
  destruct (depth s) as [|d] eqn:Ed.
  - destruct (opens_value c); [|exact H].
    intros sub. cbn [subs depth]. rewrite length_app. cbn [List.length].
    replace (pred (List.length (subs s) + 1)) with (List.length (subs s)) by lia.
    rewrite nth_error_app2, Nat.sub_diag by lia. intros [= <-]. simpl.
    now intros E%Nat.eqb_eq.
  - intros sub. cbn [subs depth]. rewrite update_last_length, nth_error_update_last.
    destruct (subs s) as [|x l] eqn:Es; [now destruct d|].
    cbn [List.length pred]. rewrite Nat.eqb_refl.
    destruct (nth_error (x :: l) (List.length l)) as [y|]; [|discriminate].
    intros [= <-]. simpl. now intros E%Nat.eqb_eq.
Qed.

(** A sub-stream whose closing boundary has been read takes no further
    chunk. *)
Lemma receive_closed s c i sub :
  last_is_open s ->
  nth_error (subs s) i = Some sub -> closing_seen sub = true ->
  nth_error (subs (receive s c)) i = Some sub.
Proof.
  intros H Hnth Hc. unfold receive.
  destruct (source s); [|exact Hnth..].
  destruct (depth s) as [|d] eqn:Ed.
  - destruct (opens_value c); [|exact Hnth].
    cbn [subs]. rewrite nth_error_app1; [exact Hnth|].
    apply nth_error_Some. congruence.
  - cbn [subs]. rewrite nth_error_update_last.
    destruct (Nat.eqb (S i) (List.length (subs s))) eqn:E; [|exact Hnth].
    apply Nat.eqb_eq in E.
    assert (Hlast : nth_error (subs s) (pred (List.length (subs s))) = Some sub)
      by (rewrite <- E; exact Hnth).
    specialize (H sub Hlast Hc). congruence.
Qed.

Lemma absorb_closed evs : forall s i sub,
  Forall (fun ev => match ev with UpstreamAbort _ => False | _ => True end) evs ->
  last_is_open s ->
  nth_error (subs s) i = Some sub -> closing_seen sub = true ->
  nth_error (subs (absorb s evs)) i = Some sub.
Proof.
  induction evs as [|ev evs IH]; intros s i sub Hevs H Hnth Hc; [exact Hnth|].
  inversion Hevs as [|? ? Hev Hevs']; subst.
  change (absorb s (ev :: evs)) with (absorb (upstream_step s ev) evs).
  assert (Hstep : last_is_open (upstream_step s ev) /\
                  nth_error (subs (upstream_step s ev)) i = Some sub).
  { destruct ev as [c| |e| |j|j]; try contradiction; simpl; auto.
    - split; [now apply receive_last_is_open | now apply receive_closed].
    - destruct (source s); auto. }
  destruct Hstep as [H' Hnth']. now apply IH.
Qed.

Lemma absorb_last_is_open evs : forall s,
  Forall (fun ev => match ev with UpstreamAbort _ => False | _ => True end) evs ->
  last_is_open s -> last_is_open (absorb s evs).
Proof.
  induction evs as [|ev evs IH]; intros s Hevs H; [exact H|].
  inversion Hevs as [|? ? Hev Hevs']; subst.
  change (absorb s (ev :: evs)) with (absorb (upstream_step s ev) evs).
  apply IH; [exact Hevs'|].
  destruct ev as [c| |e| |j|j]; try contradiction; simpl; auto.
  - now apply receive_last_is_open.
  - destruct (source s); auto.
Qed.

(** What was read from the upstream in an undisturbed history holds no
    failure. *)
Lemma taken_undisturbed history : forall s,
  undisturbed history ->
  Forall (fun ev => match ev with UpstreamAbort _ => False | _ => True end) (taken s history).
Proof.
  induction history as [|ev history IH]; intros s Hh; [constructor|].
  inversion Hh as [|? ? Hev Hh']; subst. simpl. apply Forall_app. split; [|now apply IH].
  destruct ev as [c| |e| |j|j]; try contradiction; simpl; try (repeat constructor).
  destruct (ready s); repeat constructor.
Qed.

(** The source has ended only when its end was read. *)
Lemma absorb_ended evs : forall s,
  source s = Live -> source (absorb s evs) = Ended -> In UpstreamEnd evs.
Proof.
  induction evs as [|ev evs IH]; intros s Hlive Hend; [simpl in Hend; congruence|].
  change (absorb s (ev :: evs)) with (absorb (upstream_step s ev) evs) in Hend.
  destruct ev as [c| |e| |j|j]; try (right; now apply (IH s)).
  - right. apply (IH (receive s c)); [|exact Hend].
    unfold receive. rewrite Hlive. destruct (depth s); [destruct (opens_value c)|]; auto.
  - now left.
  - exfalso. simpl in Hend. rewrite Hlive in Hend. simpl in Hend.
    assert (Hab : forall evs s, (exists e', source s = Aborted e') ->
                                exists e', source (absorb s evs) = Aborted e').
    { clear. induction evs as [|ev evs IH]; intros s Hs; [exact Hs|].
      change (absorb s (ev :: evs)) with (absorb (upstream_step s ev) evs).
      apply IH. destruct Hs as [e' Hs].
      destruct ev; simpl; unfold receive; rewrite ?Hs; eauto. }
    match type of Hend with
    | source (absorb ?s' evs) = Ended =>
        destruct (Hab evs s' (ex_intro _ e eq_refl)) as [e' He']
    end.
    congruence.
Qed.

(** The end of the input is the last thing read from the upstream. *)
Lemma end_is_last (t1 t2 : list Event) cs :
  t1 ++ t2 = map Upstream cs ++ [UpstreamEnd] -> In UpstreamEnd t1 -> t2 = [].
Proof.
  intros E Hin. destruct t2 as [|ev t2] using rev_ind; [reflexivity|].
  rewrite app_assoc in E. apply app_inj_tail in E as [E ->].
  exfalso. assert (Hin' : In UpstreamEnd (map Upstream cs)).
  { rewrite <- E. apply in_or_app. now left. }
  apply in_map_iff in Hin' as (c & Hc & _). discriminate.
Qed.

(** *** A history from the first chunk on *)

Lemma last_is_open_initial : last_is_open initial_splitter.
Proof. intros sub H. now destruct (pred (List.length (subs initial_splitter))). Qed.

Lemma undisturbed_app h1 h2 : undisturbed (h1 ++ h2) -> undisturbed h1 /\ undisturbed h2.
Proof. apply Forall_app. Qed.

(** The splitter after a history is the splitter that has only read what
    was taken from the upstream, less what the consumer was given. *)
Lemma read_ahead_after history :
  undisturbed history ->
  read_ahead (delivered initial_splitter history)
             (after initial_splitter history)
             (absorb initial_splitter (taken initial_splitter history)).
Proof.
  intros Hh.
  apply (read_ahead_ext (fun i => [] ++ delivered initial_splitter history i));
    [reflexivity|].
  apply (reading_in_any_order history (fun _ => [])); [exact Hh|].
  split; [reflexivity | split; [reflexivity | split; [reflexivity | split]]].
  - reflexivity.
  - intros i sub sub0 H. now destruct i.
Qed.

Lemma read_ahead_descriptors given s s0 :
  read_ahead given s s0 -> descriptors s = descriptors s0.
Proof.
  intros (_ & _ & Hlen & _ & Hsub). unfold descriptors. apply descriptors_from_paths.
  assert (Hpath : forall i sub sub0,
             nth_error (subs s) i = Some sub -> nth_error (subs s0) i = Some sub0 ->
             sub_path sub = sub_path sub0).
  { intros i sub sub0 H H0. now destruct (Hsub i sub sub0 H H0). }
  revert Hlen Hpath. generalize (subs s) (subs s0). clear.
  induction l as [|a l IH]; intros [|b l'] Hlen Hpath; try discriminate; [reflexivity|].
  simpl. f_equal.
  - exact (Hpath 0 a b eq_refl eq_refl).
  - apply IH; [simpl in Hlen; congruence|].
    intros i sub sub0 H H0. exact (Hpath (S i) sub sub0 H H0).
Qed.

(** The descriptors read in a history are the first descriptors of the
    table. *)
Lemma descriptors_read_after history :
  handed_out (after initial_splitter history)
    <= List.length (subs (after initial_splitter history)) /\
  descriptors_read initial_splitter history
  = firstn (handed_out (after initial_splitter history))
           (descriptors (after initial_splitter history)).
Proof.
  split.
  - assert (H : forall history s, handed_out s <= List.length (subs s) ->
                handed_out (after s history) <= List.length (subs (after s history))).
    { clear. induction history as [|ev history IH]; intros s Hle; [exact Hle|].
      rewrite after_cons. apply IH. now apply step_main. }
    apply H. apply Nat.le_0_l.
  - now rewrite (main_sequence_in_order history initial_splitter (Nat.le_0_l _)).
Qed.

(** The main sequence does not answer that it has ended before the source
    has ended and every descriptor was read. *)
Lemma main_ends_last before later cs :
  undisturbed (before ++ later) ->
  taken initial_splitter (before ++ later) = map Upstream cs ++ [UpstreamEnd] ->
  read_main (after initial_splitter before) = MainResponse Done ->
  descriptors_read initial_splitter before
  = descriptors (absorb initial_splitter (taken initial_splitter (before ++ later))).
Proof.
  intros Hh Htaken Hdone.
  apply undisturbed_app in Hh as [Hb _].
  pose proof (read_ahead_after before Hb) as Hra.
  pose proof Hra as (_ & Hsrc & _).
  rewrite taken_app in Htaken |- *.
  assert (Hend : source (after initial_splitter before) = Ended /\
                 List.length (subs (after initial_splitter before))
                 <= handed_out (after initial_splitter before)).
  { unfold read_main, step in Hdone.
    destruct (source (after initial_splitter before)); [| |discriminate].
    - now destruct (nth_error (subs (after initial_splitter before))
                              (handed_out (after initial_splitter before))).
    - destruct (nth_error (subs (after initial_splitter before))
                          (handed_out (after initial_splitter before))) eqn:E;
        [discriminate|].
      apply nth_error_None in E. now split. }
  destruct Hend as [Hended Hall].
  rewrite Hended in Hsrc. symmetry in Hsrc.
  apply absorb_ended in Hsrc; [|reflexivity].
  rewrite (end_is_last _ _ _ Htaken Hsrc), app_nil_r.
  rewrite <- (read_ahead_descriptors _ _ _ Hra).
  destruct (descriptors_read_after before) as [_ ->].
  apply firstn_all2. unfold descriptors. now rewrite descriptors_from_length.
Qed.

(** A sub-stream does not answer that it has ended before the consumer was
    given every chunk of its run. *)
Lemma sub_stream_ends_last before later i :
  undisturbed (before ++ later) ->
  read_sub (after initial_splitter before) i = SubResponse Done ->
  exists sub0,
    nth_error (subs (absorb initial_splitter (taken initial_splitter (before ++ later)))) i
    = Some sub0 /\
    closing_seen sub0 = true /\
    delivered initial_splitter before i = buffered sub0.
Proof.
  intros Hh Hdone.
  pose proof (taken_undisturbed _ initial_splitter Hh) as Htaken.
  apply undisturbed_app in Hh as [Hb _].
  pose proof (read_ahead_after before Hb) as (_ & _ & Hlen & _ & Hsub).
  rewrite taken_app, absorb_app. rewrite taken_app in Htaken.
  apply Forall_app in Htaken as [Ht1 Ht2].
  unfold read_sub, step in Hdone.
  destruct (nth_error (subs (after initial_splitter before)) i) as [sub|] eqn:E;
    [|discriminate].
  destruct (nth_error (subs (absorb initial_splitter (taken initial_splitter before))) i)
    as [sub0|] eqn:E0.
  2:{ apply nth_error_None in E0.
      assert (Hn : nth_error (subs (after initial_splitter before)) i <> None) by congruence.
      apply nth_error_Some in Hn. lia. }
  destruct (Hsub i sub sub0 E E0) as (_ & Hc & Hb0 & Hst & _ & Hf).
  assert (Hsub_done : buffered sub = [] /\ closing_seen sub = true).
  { cbn [snd] in Hdone. unfold read_sub_stream in Hdone. rewrite Hf in Hdone.
    destruct (status sub); try contradiction;
      (destruct (buffered sub); [|discriminate]);
      (destruct (closing_seen sub); [now split | discriminate]). }
  destruct Hsub_done as [Hnil Hclosed].
  exists sub0. rewrite Hnil, app_nil_r in Hb0. rewrite Hclosed in Hc.
  split; [|split; [now symmetry | exact Hb0]].
  apply absorb_closed; auto.
  apply absorb_last_is_open; [exact Ht1 | exact last_is_open_initial].
Qed.

(** ** The example of the tests *)

(** JSON text written with apostrophes in place of the quotation marks. *)
Definition json_text (s : string) : string :=
  string_of_list_ascii
    (map (fun c => if Ascii.eqb c "'" then quote else c) (list_ascii_of_string s)).

Definition example_text : string :=
  json_text
    "{'apples':{'results':['apple1','apple2']},'cherries':{'results':{'1':'cherry1','2':'cherry2'}}}".

(** [[undefined, "results"]] *)
Definition example_pattern : list PatternSegment := [Wildcard; Literal (Key "results")].

Definition apples_path : option JsonPath := Some [Key "apples"; Key "results"].
Definition cherries_path : option JsonPath := Some [Key "cherries"; Key "results"].

Definition apples_value : JsonValue := JArray [JString "apple1"; JString "apple2"].
Definition cherries_value : JsonValue :=
  JObject (mkObject ObjectPrototype [("1", JString "cherry1"); ("2", JString "cherry2")]).

(** What reaches the splitter: the chunks of the fragments, tracked and
    selected. *)
Definition selected (pattern : list PatternSegment) (fragments : list string)
  : list JsonChunkWithPath :=
  JsonPathSelector pattern (JsonPathDetector (fst (JsonParser fragments))).

Lemma Forall2_two {A} (R : A -> A -> Prop) l a b :
  Forall2 R l [a; b] -> exists x y, l = [x; y] /\ R x a /\ R y b.
Proof.
  intros H. inversion H as [|x ? l1 ? Hx H1]; subst.
  inversion H1 as [|y ? l2 ? Hy H2]; subst. inversion H2; subst.
  now exists x, y.
Qed.

(** The example, whole: what the splitter holds once the text has gone
    through tokenizer, tracker and selector in one fragment. *)
Lemma example_whole :
  exists whole a b,
    JsonParser [example_text] = (whole, None) /\
    subs (split example_pattern whole) = [a; b] /\
    source (split example_pattern whole) = Live /\
    sub_path a = apples_path /\ sub_path b = cherries_path /\
    closing_seen a = true /\ closing_seen b = true /\
    JsonDeserializer (buffered a) = Some [Emit apples_value apples_path] /\
    JsonDeserializer (buffered b) = Some [Emit cherries_value cherries_path].
Proof.
  eexists _, _, _. split; [vm_compute; reflexivity|].
  split; [vm_compute; reflexivity|].
  repeat split; vm_compute; reflexivity.
Qed.

Definition apples_descriptor : Descriptor :=
  {| descriptor_path := apples_path; handle := 0 |}.
Definition cherries_descriptor : Descriptor :=
  {| descriptor_path := cherries_path; handle := 1 |}.


(** ** Failure of the source *)

(** A splitter that has passed the failure [e] on: the source is marked and
    so is every sub-stream of the table. *)
Definition aborted (e : StreamError) (s : Splitter) : Prop :=
  source s = Aborted e /\ Forall (fun sub => failure sub = Some e) (subs s).

Lemma update_nth_Forall {A} (P : A -> Prop) (f : A -> A) (l : list A) :
  (forall x, P x -> P (f x)) ->
  forall i, Forall P l -> Forall P (update_nth i f l).
Proof.
  intros Hf. induction l as [|x l IH]; intros [|i] H; simpl; auto;
    inversion H; subst; constructor; auto.
Qed.

Lemma step_aborted e s ev :
  aborted e s ->
  aborted e (fst (step s ev)) /\
  List.length (subs (fst (step s ev))) = List.length (subs s).
Proof.
  intros [Hsrc Hsubs]. unfold aborted.
  destruct ev as [c| |e'| |i|i]; simpl; rewrite ?Hsrc; simpl; auto.
  - unfold receive. rewrite Hsrc. destruct (ready s); auto.
  - destruct (nth_error (subs s) i) as [sub|]; simpl; [|auto].
    rewrite update_nth_length. repeat split; auto.
    apply update_nth_Forall; [|exact Hsubs].
    intros x Hx. unfold read_sub_stream. now rewrite Hx.
  - rewrite update_nth_length. repeat split; auto.
    apply update_nth_Forall; [|exact Hsubs]. intros x Hx. exact Hx.
Qed.

Lemma after_aborted e evs : forall s,
  aborted e s ->
  aborted e (after s evs) /\
  List.length (subs (after s evs)) = List.length (subs s).
Proof.
  unfold after. induction evs as [|ev evs IH]; intros s Hs; simpl; [auto|].
  destruct (step s ev) as [s' r] eqn:E.
  destruct (step_aborted e s ev Hs) as [Hs' Hlen]. rewrite E in Hs', Hlen. simpl in Hs', Hlen.
  specialize (IH s' Hs'). destruct (run_splitter s' evs) as [s'' rs]. simpl in *.
  destruct IH as [IH1 IH2]. split; [exact IH1 | congruence].
Qed.

Lemma reads_of_aborted e s :
  aborted e s ->
  read_main s = MainResponse (Failed e) /\
  forall i, i < List.length (subs s) -> read_sub s i = SubResponse (Failed e).
Proof.
  intros [Hsrc Hsubs]. unfold read_main, read_sub. simpl. rewrite Hsrc. split; [reflexivity|].
  intros i Hi. destruct (nth_error (subs s) i) as [sub|] eqn:E.
  - simpl. rewrite Forall_forall in Hsubs.
    unfold read_sub_stream. now rewrite (Hsubs sub (nth_error_In _ _ E)).
  - apply nth_error_None in E. lia.
Qed.

Lemma abort_of_live e s :
  source s = Live ->
  aborted e (fst (step s (UpstreamAbort e))) /\
  List.length (subs (fst (step s (UpstreamAbort e)))) = List.length (subs s).
Proof.
  intros Hlive. unfold aborted, step. rewrite Hlive. simpl.
  repeat split; [|apply length_map].
  apply Forall_forall. intros sub Hsub.
  apply in_map_iff in Hsub as (sub0 & <- & _). reflexivity.
Qed.

(** C8.  When the source fails with [e] while N sub-streams have been
    emitted, whatever the consumer had read of them before, the next read
    of the main sequence fails with [e], the next read of each of the N
    sub-streams fails with [e], and no further descriptor is produced; this
    stays so whatever happens afterwards. *)
Theorem abort_reaches_main_and_every_sub_stream (history : list Event) (e : StreamError) :
  source (after initial_splitter history) = Live ->
  forall later : list Event,
    let s := after initial_splitter history in
    let s' := after (fst (step s (UpstreamAbort e))) later in
    List.length (subs s') = List.length (subs s) /\
    read_main s' = MainResponse (Failed e) /\
    forall i, i < List.length (subs s) -> read_sub s' i = SubResponse (Failed e).
Proof.
  intros Hlive later s s'.
  destruct (abort_of_live e s Hlive) as [Hab Hlen].
  destruct (after_aborted e later _ Hab) as [Hab' Hlen'].
  destruct (reads_of_aborted e _ Hab') as [Hmain Hsub].
  fold s' in Hlen', Hmain, Hsub.
  split; [congruence | split; [exact Hmain|]].
  intros i Hi. apply Hsub. congruence.
Qed.

(** ** The buffers are bounded *)

Definition within_limit (sub : SubStream) : Prop :=
  List.length (buffered sub) <= buffer_limit.

Lemma update_last_within_limit d c l :
  Forall within_limit l -> last (map room l) true = true ->
  Forall within_limit (update_last (feed_sub d c) l).
Proof.
  induction l as [|x l IH]; intros H Hroom; [constructor|].
  inversion H as [|? ? Hx Hl]; subst. destruct l as [|y l].
  - constructor; [|constructor]. unfold within_limit, feed_sub. cbn [buffered].
    cbn [map last] in Hroom. unfold room in Hroom.
    destruct (status x); try (apply Nat.ltb_lt in Hroom; rewrite length_app;
                              cbn [List.length]; lia).
    cbn [List.length]. lia.
  - change (update_last (feed_sub d c) (x :: y :: l))
      with (x :: update_last (feed_sub d c) (y :: l)).
    constructor; [exact Hx|]. apply IH; [exact Hl | exact Hroom].
Qed.

(** Whatever the upstream offers and whatever the consumer does, no
    sub-stream holds more than [buffer_limit] chunks. *)
Lemma buffers_within_the_limit history :
  Forall within_limit (subs (after initial_splitter history)).
Proof.
  assert (Hstep : forall s ev, Forall within_limit (subs s) ->
                               Forall within_limit (subs (fst (step s ev)))).
  { intros s ev H. destruct ev as [c| |e| |i|i]; cbn [step fst].
    - destruct (ready s) eqn:Eready; [|exact H]. unfold receive.
      destruct (source s); [|exact H..]. unfold ready in Eready.
      destruct (depth s) as [|d].
      + destruct (opens_value c); [|exact H]. cbn [subs].
        apply Forall_app. split; [exact H|]. constructor; [|constructor].
        apply Nat.ltb_lt in Eready. unfold within_limit. simpl. lia.
      + cbn [subs]. now apply update_last_within_limit.
    - now destruct (source s).
    - destruct (source s); [|exact H..]. cbn [fst subs].
      apply Forall_forall. intros sub Hin. apply in_map_iff in Hin as (sub0 & <- & _).
      unfold within_limit. simpl. lia.
    - destruct (source s); [| |exact H];
        now destruct (nth_error (subs s) (handed_out s)).
    - destruct (nth_error (subs s) i) as [sub|]; [|exact H]. cbn [fst subs].
      apply update_nth_Forall; [|exact H].
      intros x Hx. unfold within_limit in *. unfold read_sub_stream.
      destruct (failure x); [exact Hx|]. destruct (status x); try exact Hx;
        (destruct (buffered x) as [|c rest] eqn:E;
         [destruct (closing_seen x); cbn [fst buffered]; rewrite ?E; simpl; lia
         | simpl in *; lia]).
    - cbn [subs]. apply update_nth_Forall; [|exact H].
      intros x _. unfold within_limit. simpl. lia. }
  assert (Hafter : forall history s, Forall within_limit (subs s) ->
                                     Forall within_limit (subs (after s history))).
  { clear history. induction history as [|ev history IH]; intros s H; [exact H|].
    rewrite after_cons. apply IH. now apply Hstep. }
  apply Hafter. constructor.
Qed.

(** ** The stages connected *)

(** Modelled from the spec: the four stages connected through bounded
    hand-offs (section 5), with what waits between two stages.  A stage is
    not asked for more while what it has produced has not been accepted
    downstream: it takes its next item only while fewer than [hand_off]
    items of its own wait at the next stage.  [unread] holds the fragments
    the source has not handed over yet; [input] tells whether the input is
    still coming, has ended, or has failed. *)
Record Pipeline : Type := {
  unread : list string;
  tokenizer : Tokenizer;
  tokens_waiting : list JsonChunk;
  tracker : list Frame;
  tracked_waiting : list JsonChunkWithPath;
  selector : nat;
  selected_waiting : list JsonChunkWithPath;
  input : SourceState;
  splitter : Splitter
}.

Definition initial_pipeline (fragments : list string) : Pipeline :=
  {| unread := fragments;
     tokenizer := initial_tokenizer;
     tokens_waiting := [];
     tracker := [];
     tracked_waiting := [];
     selector := 0;
     selected_waiting := [];
     input := Live;
     splitter := initial_splitter |}.

(** Modelled from the spec: what happens in the pipeline (section 5).  A
    stage takes its next item, the source fails, or the consumer reads the
    main sequence, reads a sub-stream or discards one; the stages suspend
    and resume in any order. *)
Inductive Move : Type :=
| Tokenize
| Track
| Select
| Split
| SourceFails (e : StreamError)
| ReadDescriptor
| ReadChunk (i : nat)
| Discard (i : nat).

Definition has_room {A} (waiting : list A) : bool :=
  Nat.ltb (List.length waiting) hand_off.

(** Modelled from the spec: a failure is passed on at once (section 5):
    what waits between the stages is dropped and the splitter is told. *)
Definition fail_pipeline (e : StreamError) (p : Pipeline) : Pipeline :=
  {| unread := unread p;
     tokenizer := tokenizer p;
     tokens_waiting := [];
     tracker := tracker p;
     tracked_waiting := [];
     selector := selector p;
     selected_waiting := [];
     input := Aborted e;
     splitter := fst (step (splitter p) (UpstreamAbort e)) |}.

Definition with_splitter (p : Pipeline) (s : Splitter) : Pipeline :=
  {| unread := unread p;
     tokenizer := tokenizer p;
     tokens_waiting := tokens_waiting p;
     tracker := tracker p;
     tracked_waiting := tracked_waiting p;
     selector := selector p;
     selected_waiting := selected_waiting p;
     input := input p;
     splitter := s |}.

(** The tokenizer takes the next fragment from the source, or its end. *)
Definition tokenize_next (p : Pipeline) : Pipeline :=
  match unread p with
  | fragment :: fragments =>
      let '(t, out, err) := tokenize_fragment (tokenizer p) fragment in
      let p' := {| unread := fragments;
                   tokenizer := t;
                   tokens_waiting := tokens_waiting p ++ out;
                   tracker := tracker p;
                   tracked_waiting := tracked_waiting p;
                   selector := selector p;
                   selected_waiting := selected_waiting p;
                   input := Live;
                   splitter := splitter p |} in
      match err with
      | None => p'
      | Some e => fail_pipeline e p'
      end
  | [] =>
      let (out, err) := end_of_input (tokenizer p) in
      match err with
      | None =>
          {| unread := [];
             tokenizer := tokenizer p;
             tokens_waiting := tokens_waiting p ++ out;
             tracker := tracker p;
             tracked_waiting := tracked_waiting p;
             selector := selector p;
             selected_waiting := selected_waiting p;
             input := Ended;
             splitter := splitter p |}
      | Some e => fail_pipeline e p
      end
  end.

(** The path tracker takes the next chunk of the tokenizer. *)
Definition track_next (p : Pipeline) : Pipeline :=
  match tokens_waiting p with
  | c :: waiting =>
      {| unread := unread p;
         tokenizer := tokenizer p;
         tokens_waiting := waiting;
         tracker := fst (track (tracker p) c);
         tracked_waiting := tracked_waiting p ++ [snd (track (tracker p) c)];
         selector := selector p;
         selected_waiting := selected_waiting p;
         input := input p;
         splitter := splitter p |}
  | [] => p
  end.

(** The path selector takes the next chunk of the tracker. *)
Definition select_next (pattern : list PatternSegment) (p : Pipeline) : Pipeline :=
  match tracked_waiting p with
  | c :: waiting =>
      {| unread := unread p;
         tokenizer := tokenizer p;
         tokens_waiting := tokens_waiting p;
         tracker := tracker p;
         tracked_waiting := waiting;
         selector := fst (select pattern (selector p) c);
         selected_waiting := selected_waiting p ++ snd (select pattern (selector p) c);
         input := input p;
         splitter := splitter p |}
  | [] => p
  end.

(** The splitter reads the next chunk of the selector, when it is [ready];
    when nothing is left on the way and the input has ended, it reads the
    end. *)
Definition split_next (p : Pipeline) : Pipeline :=
  match selected_waiting p with
  | c :: waiting =>
      if ready (splitter p)
      then {| unread := unread p;
              tokenizer := tokenizer p;
              tokens_waiting := tokens_waiting p;
              tracker := tracker p;
              tracked_waiting := tracked_waiting p;
              selector := selector p;
              selected_waiting := waiting;
              input := input p;
              splitter := fst (step (splitter p) (Upstream c)) |}
      else p
  | [] =>
      match input p, tokens_waiting p, tracked_waiting p with
      | Ended, [], [] => with_splitter p (fst (step (splitter p) UpstreamEnd))
      | _, _, _ => p
      end
  end.

(** Modelled from the spec: one move of the pipeline (section 5).  The
    tokenizer, the tracker and the selector take their next item only while
    the hand-off to the next stage has room; the tokenizer takes nothing
    once the input has ended or failed. *)
Definition pipeline_step (pattern : list PatternSegment) (p : Pipeline) (m : Move)
  : Pipeline * Response :=
  match m with
  | Tokenize =>
      match input p with
      | Live => (if has_room (tokens_waiting p) then tokenize_next p else p, NoResponse)
      | _ => (p, NoResponse)
      end
  | Track => (if has_room (tracked_waiting p) then track_next p else p, NoResponse)
  | Select =>
      (if has_room (selected_waiting p) then select_next pattern p else p, NoResponse)
  | Split => (split_next p, NoResponse)
  | SourceFails e =>
      match input p with
      | Live => (fail_pipeline e p, NoResponse)
      | _ => (p, NoResponse)
      end
  | ReadDescriptor =>
      (with_splitter p (fst (step (splitter p) ReadMain)), snd (step (splitter p) ReadMain))
  | ReadChunk i =>
      (with_splitter p (fst (step (splitter p) (ReadSub i))),
       snd (step (splitter p) (ReadSub i)))
  | Discard i =>
      (with_splitter p (fst (step (splitter p) (CancelSub i))), NoResponse)
  end.

Definition pipeline_after (pattern : list PatternSegment) (p : Pipeline) (moves : list Move)
  : Pipeline :=
  fold_left (fun p m => fst (pipeline_step pattern p m)) moves p.

(** The number of fragments the source has handed over. *)
Definition consumed (fragments : list string) (p : Pipeline) : nat :=
  List.length fragments - List.length (unread p).

(** A consumer that reads the main sequence only: it reads no sub-stream
    and discards none. *)
Definition only_main (moves : list Move) : Prop :=
  Forall (fun m => match m with
                   | ReadChunk _ | Discard _ => False
                   | _ => True
                   end) moves.

Definition only_mainb (moves : list Move) : bool :=
  forallb (fun m => match m with
                    | ReadChunk _ | Discard _ => false
                    | _ => true
                    end) moves.

Lemma only_mainb_sound moves : only_mainb moves = true -> only_main moves.
Proof.
  unfold only_mainb, only_main. rewrite forallb_forall, Forall_forall.
  intros H m Hin. specialize (H m Hin). now destruct m.
Qed.

(** The chunks of the fragments, before the end of the input. *)
Definition tokens_of (fragments : list string) : list JsonChunk :=
  snd (fst (tokenize_fragments initial_tokenizer fragments)).

(** How many of the chunks [cs] the splitter reads while no sub-stream is
    read: it reads until it is not [ready]. *)
Fixpoint absorbable (s : Splitter) (cs : list JsonChunkWithPath) : nat :=
  match cs with
  | [] => 0
  | c :: cs' => if ready s then S (absorbable (receive s c) cs') else 0
  end.

(** *** The stages, chunk after chunk *)

Definition frames_after (frames : list Frame) (cs : list JsonChunk) : list Frame :=
  fold_left (fun frames c => fst (track frames c)) cs frames.

Definition inside_after (pattern : list PatternSegment) (inside : nat)
    (cs : list JsonChunkWithPath) : nat :=
  fold_left (fun inside c => fst (select pattern inside c)) cs inside.

Lemma tokenize_fragments_app done : forall t t' out rest,
  tokenize_fragments t done = (t', out, None) ->
  tokenize_fragments t (done ++ rest)
  = (fst (fst (tokenize_fragments t' rest)),
     out ++ snd (fst (tokenize_fragments t' rest)),
     snd (tokenize_fragments t' rest)).
Proof.
  induction done as [|f done IH]; intros t t' out rest H.
  - injection H as <- <-. simpl. now destruct (tokenize_fragments t rest) as [[? ?] ?].
  - simpl in H |- *. destruct (tokenize_fragment t f) as [[t1 out1] [e|]]; [discriminate|].
    destruct (tokenize_fragments t1 done) as [[t2 out2] err2] eqn:E.
    injection H as <- <- ->. rewrite (IH t1 t2 out2 rest E).
    destruct (tokenize_fragments t2 rest) as [[? ?] ?]. simpl. now rewrite app_assoc.
Qed.

Lemma JsonPathDetector_from_app cs : forall frames cs',
  JsonPathDetector_from frames (cs ++ cs')
  = JsonPathDetector_from frames cs ++ JsonPathDetector_from (frames_after frames cs) cs'.
Proof.
  induction cs as [|c cs IH]; intros frames cs'; [reflexivity|].
  simpl. now rewrite IH.
Qed.

Lemma JsonPathDetector_from_length cs : forall frames,
  List.length (JsonPathDetector_from frames cs) = List.length cs.
Proof. induction cs as [|c cs IH]; intros frames; simpl; [reflexivity | now rewrite IH]. Qed.

Lemma JsonPathSelector_from_app pattern cs : forall inside cs',
  JsonPathSelector_from pattern inside (cs ++ cs')
  = JsonPathSelector_from pattern inside cs
    ++ JsonPathSelector_from pattern (inside_after pattern inside cs) cs'.
Proof.
  induction cs as [|c cs IH]; intros inside cs'; [reflexivity|].
  simpl. now rewrite IH, app_assoc.
Qed.

(** Splitters that differ only in what the main sequence has handed out. *)
Definition same_buffers (s s' : Splitter) : Prop :=
  subs s = subs s' /\ depth s = depth s' /\ source s = source s'.

Lemma ready_same_buffers s s' : same_buffers s s' -> ready s = ready s'.
Proof. intros (H1 & H2 & _). unfold ready. now rewrite H1, H2. Qed.

Lemma receive_same_buffers s s' c :
  same_buffers s s' -> same_buffers (receive s c) (receive s' c).
Proof.
  intros (H1 & H2 & H3). unfold receive. rewrite H1, H2, H3.
  destruct (source s') eqn:E; [|repeat split; congruence..].
  destruct (depth s') eqn:D; [destruct (opens_value c)|]; repeat split; congruence.
Qed.

Lemma read_main_same_buffers s : same_buffers (fst (step s ReadMain)) s.
Proof.
  unfold step. destruct (source s) eqn:E; [| |now split];
    destruct (nth_error (subs s) (handed_out s)); repeat split; cbn; congruence.
Qed.

Lemma absorbable_app cs : forall s cs',
  absorbable s cs = List.length cs ->
  absorbable s (cs ++ cs') = List.length cs + absorbable (feed s cs) cs'.
Proof.
  induction cs as [|c cs IH]; intros s cs' H; [reflexivity|].
  simpl in H |- *. destruct (ready s); [|discriminate].
  injection H as H. now rewrite (IH _ _ H).
Qed.

Lemma feed_app cs : forall s cs', feed s (cs ++ cs') = feed (feed s cs) cs'.
Proof. intros s cs'. unfold feed. apply fold_left_app. Qed.

(** *** A consumer that reads the main sequence only *)

(** The pipeline while the first fragments, [before], are being handed
    over: the stages have worked on a part of them, and the splitter has
    read, with no sub-stream read, the first chunks that were selected. *)
Definition throttled (pattern : list PatternSegment) (before rest : list string) (n : nat)
    (p : Pipeline) : Prop :=
  exists done left,
    before = done ++ left /\ unread p = left ++ rest /\ input p <> Ended /\
    (input p = Live ->
     exists tracked chosen fed,
       tokenize_fragments initial_tokenizer done
         = (tokenizer p, tracked ++ tokens_waiting p, None) /\
       tracker p = frames_after [] tracked /\
       JsonPathDetector tracked = chosen ++ tracked_waiting p /\
       selector p = inside_after pattern 0 chosen /\
       JsonPathSelector pattern chosen = fed ++ selected_waiting p /\
       absorbable initial_splitter fed = List.length fed /\
       same_buffers (splitter p) (feed initial_splitter fed) /\
       List.length chosen <= n /\
       List.length (tracked_waiting p) <= hand_off).

Lemma throttled_initial pattern before rest n :
  throttled pattern before rest n (initial_pipeline (before ++ rest)).
Proof.
  exists [], before. split; [reflexivity | split; [reflexivity | split; [discriminate|]]].
  intros _. exists [], [], []. simpl. repeat split; lia.
Qed.

Lemma throttled_step pattern before rest n p m :
  rest <> [] ->
  absorbable initial_splitter
    (JsonPathSelector pattern (firstn n (JsonPathDetector (tokens_of before)))) + hand_off
  <= List.length (JsonPathSelector pattern (firstn n (JsonPathDetector (tokens_of before)))) ->
  n + 2 * hand_off <= List.length (JsonPathDetector (tokens_of before)) ->
  match m with ReadChunk _ | Discard _ => False | _ => True end ->
  throttled pattern before rest n p ->
  throttled pattern before rest n (fst (pipeline_step pattern p m)).
Proof.
  intros Hrest Hreach Hlong Hm Hp.
  pose proof Hp as (done & left & Hbefore & Hunread & Hnot_ended & Hlive).
  destruct m as [| | | |e| |i|i]; try contradiction; cbn [pipeline_step fst].
  - (* Tokenize *)
    destruct (input p) eqn:Einput; [|exact Hp..].
    destruct (has_room (tokens_waiting p)) eqn:Eroom; [|exact Hp].
    specialize (Hlive eq_refl).
    destruct Hlive as (tracked & chosen & fed & Htok & Htr & Hdet & Hsel & Hfed & Habs & Hsame
                       & Hn & Hwait).
    unfold has_room in Eroom. apply Nat.ltb_lt in Eroom.
    unfold tokenize_next. rewrite Hunread.
    destruct left as [|f left].
    + (* every fragment of [before] was handed over: the tokenizer is not asked *)
      exfalso. rewrite app_nil_r in Hbefore. subst done.
      unfold tokens_of in Hlong. rewrite Htok in Hlong. cbn [fst snd] in Hlong.
      unfold JsonPathDetector in Hlong. rewrite JsonPathDetector_from_length, length_app in Hlong.
      apply (f_equal (@List.length _)) in Hdet.
      unfold JsonPathDetector in Hdet.
      rewrite JsonPathDetector_from_length, length_app in Hdet. lia.
    + cbn [app].
      pose proof (tokenize_fragments_app done initial_tokenizer (tokenizer p) _ [f] Htok) as Happ.
      cbn [tokenize_fragments] in Happ.
      destruct (tokenize_fragment (tokenizer p) f) as [[t out] [e|]] eqn:Ef.
      * exists (done ++ [f]), left. cbn [fst unread input fail_pipeline].
        split; [now rewrite <- app_assoc|].
        split; [reflexivity | split; discriminate].
      * exists (done ++ [f]), left. cbn [fst unread input].
        split; [now rewrite <- app_assoc|].
        split; [reflexivity | split; [discriminate|]].
        intros _. exists tracked, chosen, fed. cbn [fst tokenizer tokens_waiting tracker
          tracked_waiting selector selected_waiting splitter].
        split; [|repeat split; auto; apply Hsame].
        rewrite Happ. cbn [fst snd]. now rewrite app_nil_r, app_assoc.
  - (* Track *)
    destruct (has_room (tracked_waiting p)) eqn:Eroom; [|exact Hp].
    unfold has_room in Eroom. apply Nat.ltb_lt in Eroom.
    unfold track_next. destruct (tokens_waiting p) as [|c waiting] eqn:Ew; [exact Hp|].
    exists done, left. cbn [fst unread input].
    split; [exact Hbefore | split; [exact Hunread | split; [exact Hnot_ended|]]].
    intros Hl. specialize (Hlive Hl).
    destruct Hlive as (tracked & chosen & fed & Htok & Htr & Hdet & Hsel & Hfed & Habs & Hsame
                       & Hn & Hwait).
    exists (tracked ++ [c]), chosen, fed. cbn [fst tokenizer tokens_waiting tracker
      tracked_waiting selector selected_waiting splitter].
    split; [now rewrite <- app_assoc|].
    split; [unfold frames_after; rewrite fold_left_app; cbn [fold_left]; now rewrite Htr|].
    split.
    { unfold JsonPathDetector in Hdet |- *. rewrite JsonPathDetector_from_app, Hdet.
      cbn [JsonPathDetector_from]. rewrite <- Htr. now rewrite app_assoc. }
    split; [exact Hsel | split; [exact Hfed | split; [exact Habs | split; [exact Hsame|]]]].
    split; [exact Hn|]. rewrite length_app. cbn [List.length]. lia.
  - (* Select *)
    destruct (has_room (selected_waiting p)) eqn:Eroom; [|exact Hp].
    unfold has_room in Eroom. apply Nat.ltb_lt in Eroom.
    unfold select_next. destruct (tracked_waiting p) as [|c waiting] eqn:Ew; [exact Hp|].
    exists done, left. cbn [fst unread input].
    split; [exact Hbefore | split; [exact Hunread | split; [exact Hnot_ended|]]].
    intros Hl. specialize (Hlive Hl).
    destruct Hlive as (tracked & chosen & fed & Htok & Htr & Hdet & Hsel & Hfed & Habs & Hsame
                       & Hn & Hwait).
    exists tracked, (chosen ++ [c]), fed. cbn [fst tokenizer tokens_waiting tracker
      tracked_waiting selector selected_waiting splitter].
    split; [exact Htok|]. split; [exact Htr|].
    split; [now rewrite <- app_assoc|].
    split; [unfold inside_after; rewrite fold_left_app; cbn [fold_left]; now rewrite Hsel|].
    split.
    { unfold JsonPathSelector in Hfed |- *. rewrite JsonPathSelector_from_app, Hfed.
      cbn [JsonPathSelector_from]. rewrite <- Hsel. now rewrite app_nil_r, app_assoc. }
    split; [exact Habs|]. split; [exact Hsame|].
    split; [|cbn [List.length] in Hwait; lia].
    (* the selector is not asked once [n] chunks went through it *)
    rewrite length_app. cbn [List.length].
    destruct (Nat.eq_dec (List.length chosen) n) as [En|]; [exfalso | lia].
    pose proof (tokenize_fragments_app done initial_tokenizer (tokenizer p) _ left Htok) as Happ.
    rewrite <- Hbefore in Happ.
    assert (Hfirst : firstn n (JsonPathDetector (tokens_of before)) = chosen).
    { unfold tokens_of. rewrite Happ. cbn [fst snd].
      unfold JsonPathDetector in Hdet |- *.
      rewrite <- app_assoc, JsonPathDetector_from_app, Hdet, <- app_assoc, <- En.
      rewrite firstn_app, firstn_all, Nat.sub_diag. cbn [firstn]. apply app_nil_r. }
    rewrite Hfirst, Hfed in Hreach.
    rewrite (absorbable_app _ _ _ Habs), length_app in Hreach. lia.
  - (* Split *)
    unfold split_next. destruct (selected_waiting p) as [|c waiting] eqn:Ew.
    + destruct (input p) eqn:Einput; [| contradiction |];
        destruct (tokens_waiting p), (tracked_waiting p); exact Hp.
    + destruct (ready (splitter p)) eqn:Eready; [|exact Hp].
      exists done, left. cbn [fst unread input].
      split; [exact Hbefore | split; [exact Hunread | split; [exact Hnot_ended|]]].
      intros Hl. specialize (Hlive Hl).
      destruct Hlive as (tracked & chosen & fed & Htok & Htr & Hdet & Hsel & Hfed & Habs
                         & Hsame & Hn & Hwait).
      exists tracked, chosen, (fed ++ [c]). cbn [fst tokenizer tokens_waiting tracker
        tracked_waiting selector selected_waiting splitter].
      split; [exact Htok|]. split; [exact Htr|]. split; [exact Hdet|].
      split; [exact Hsel|].
      split; [now rewrite <- app_assoc|].
      split.
      { rewrite (absorbable_app _ _ _ Habs), length_app. cbn [absorbable List.length].
        now rewrite <- (ready_same_buffers _ _ Hsame), Eready. }
      split; [|split; [exact Hn | exact Hwait]].
      cbn [step fst]. rewrite Eready, feed_app. now apply receive_same_buffers.
  - (* SourceFails *)
    destruct (input p) eqn:Einput; [|exact Hp..].
    exists done, left. cbn [fst unread input fail_pipeline].
    split; [exact Hbefore | split; [exact Hunread | split; discriminate]].
  - (* ReadDescriptor *)
    exists done, left. cbn [fst with_splitter unread input].
    split; [exact Hbefore | split; [exact Hunread | split; [exact Hnot_ended|]]].
    intros Hl. specialize (Hlive Hl).
    destruct Hlive as (tracked & chosen & fed & Htok & Htr & Hdet & Hsel & Hfed & Habs & Hsame
                       & Hn & Hwait).
    exists tracked, chosen, fed. cbn [fst tokenizer tokens_waiting tracker
      tracked_waiting selector selected_waiting splitter].
    split; [exact Htok|]. split; [exact Htr|]. split; [exact Hdet|].
    split; [exact Hsel|]. split; [exact Hfed|]. split; [exact Habs|].
    split; [|split; [exact Hn | exact Hwait]].
    destruct (read_main_same_buffers (splitter p)) as (R1 & R2 & R3).
    destruct Hsame as (S1 & S2 & S3). cbn [with_splitter splitter].
    repeat split; congruence.
Qed.

Lemma throttled_after pattern before rest n moves : forall p,
  rest <> [] ->
  absorbable initial_splitter
    (JsonPathSelector pattern (firstn n (JsonPathDetector (tokens_of before)))) + hand_off
  <= List.length (JsonPathSelector pattern (firstn n (JsonPathDetector (tokens_of before)))) ->
  n + 2 * hand_off <= List.length (JsonPathDetector (tokens_of before)) ->
  only_main moves ->
  throttled pattern before rest n p ->
  throttled pattern before rest n (pipeline_after pattern p moves).
Proof.
  induction moves as [|m moves IH]; intros p Hrest Hreach Hlong Hmoves Hp; [exact Hp|].
  inversion Hmoves as [|? ? Hm Hmoves']; subst.
  apply IH; auto. now apply throttled_step.
Qed.


End Pipeline.

(** * Concrete inputs *)

(** The closed statements below are evaluated on [IntegerHost], with buffers
    of two chunks in the splitter and one pending item between two
    stages. *)
#[local] Existing Instance IntegerHost.

Definition small_limits : Limits := {| buffer_limit := 2; hand_off := 1 |}.

#[local] Existing Instance small_limits.

Definition at_root : option JsonPath := Some [].

(** An integer as a Number of [IntegerHost]. *)
Definition integer (z : Z) : @number IntegerHost := z.

(** A string delivered in one piece. *)
Definition whole (text : string) : StringRun :=
  {| start_path := None; pieces := [(text, None)]; end_path := None |}.

(** A string delivered in the given pieces. *)
Definition in_pieces (texts : list string) : StringRun :=
  {| start_path := None; pieces := map (fun t => (t, None)) texts; end_path := None |}.

(** [{"b":null,"1":null}] *)
Definition doc_b_then_1 : Doc :=
  DObject at_root [(whole "b", DNull None); (whole "1", DNull None)] at_root.

(** [{"b":1,"1":2,"b":3}] *)
Definition doc_b_1_b : Doc :=
  DObject at_root
    [(whole "b", DNumber (integer 1) None); (whole "1", DNumber (integer 2) None);
     (whole "b", DNumber (integer 3) None)] at_root.

(** [{"__proto__":false}] *)
Definition doc_proto_false : Doc :=
  DObject at_root [(whole "__proto__", DBoolean false None)] at_root.

(** C4, as stated, fails on [{"b":null,"1":null}]: the key ["b"] is inserted
    first, and [Object.keys] of the result lists ["1"] first. *)
Lemma object_keys_not_in_insertion_order :
  JsonDeserializer (chunks_of doc_b_then_1)
    = Some [Emit (JObject (mkObject ObjectPrototype [("b", JNull); ("1", JNull)])) at_root] /\
  map member_key [(whole "b", DNull None); (whole "1", DNull None)] = ["b"; "1"] /\
  Object_keys (mkObject ObjectPrototype [("b", JNull); ("1", JNull)]) = ["1"; "b"] /\
  Object_keys (mkObject ObjectPrototype [("b", JNull); ("1", JNull)]) <> ["b"; "1"].
Proof.
  repeat split; try reflexivity. discriminate.
Qed.

Lemma object_keys_and_last_write_witness :
  Forall (fun m => member_key m <> "__proto__")
         [(whole "b", DNumber (integer 1) None); (whole "1", DNumber (integer 2) None);
          (whole "b", DNumber (integer 3) None)] /\
  exists o,
    JsonDeserializer (chunks_of doc_b_1_b) = Some [Emit (JObject o) at_root] /\
    NoDup (Object_keys o) /\
    (forall k, In k (Object_keys o) <->
               In k (map member_key [(whole "b", DNumber (integer 1) None); (whole "1", DNumber (integer 2) None);
                                     (whole "b", DNumber (integer 3) None)])) /\
    (forall k, own_property o k
               = last_value [(whole "b", DNumber (integer 1) None); (whole "1", DNumber (integer 2) None);
                             (whole "b", DNumber (integer 3) None)] k) /\
    exists indices,
      Object_keys o =
        map snd indices
        ++ filter (fun k => negb (is_array_index k))
             (first_occurrences
                (map member_key [(whole "b", DNumber (integer 1) None); (whole "1", DNumber (integer 2) None);
                                 (whole "b", DNumber (integer 3) None)])) /\
      StronglySorted N.le (map fst indices) /\
      Forall (fun ik => array_index (snd ik) = Some (fst ik)) indices.
Proof.
  assert (H : Forall (fun m => member_key m <> "__proto__")
                [(whole "b", DNumber (integer 1) None); (whole "1", DNumber (integer 2) None);
                 (whole "b", DNumber (integer 3) None)])
    by (repeat constructor; discriminate).
  split; [exact H|].
  exact (object_keys_and_last_write at_root _ at_root H).
Defined.

(** The violating chunk of the specification's example, [OBJECT_END] with no
    object open, is not fatal: the chunk after it is processed and its value
    delivered. *)
Lemma object_end_at_root_is_not_fatal :
  structural_violation initial_state OBJECT_END = true /\
  run initial_state [WithPath OBJECT_END None; WithPath NULL_VALUE at_root]
    = Some (ROOT None at_root, [Emit JNull at_root]) /\
  ~ fatal initial_state (WithPath OBJECT_END None).
Proof.
  split; [reflexivity | split; [reflexivity|]].
  intros H.
  specialize (H [WithPath NULL_VALUE at_root] _ _ eq_refl). discriminate.
Qed.

Lemma structural_violation_is_skipped_witness :
  structural_violation initial_state ARRAY_END = true /\
  transform initial_state (WithPath ARRAY_END None) = Some (initial_state, []) /\
  run initial_state [WithPath ARRAY_END None; WithPath NULL_VALUE at_root]
    = run initial_state [WithPath NULL_VALUE at_root].
Proof.
  split; [reflexivity|].
  apply (structural_violation_is_skipped initial_state ARRAY_END None
           [WithPath NULL_VALUE at_root]).
  reflexivity.
Defined.

Lemma string_value_independent_of_partition_witness :
  text_of (in_pieces ["ap"; "ple"; "1"]) = text_of (in_pieces ["apple1"]) /\
  start_path (in_pieces ["ap"; "ple"; "1"]) = start_path (in_pieces ["apple1"]) /\
  run initial_state (string_chunks VALUE (in_pieces ["ap"; "ple"; "1"]))
    = run initial_state (string_chunks VALUE (in_pieces ["apple1"])) /\
  run initial_state (string_chunks VALUE (in_pieces ["ap"; "ple"; "1"]))
    = Some (handleValueEnd
              (set_path_if_root
                 (set_value initial_state (Some (JString (text_of (in_pieces ["ap"; "ple"; "1"])))))
                 (start_path (in_pieces ["ap"; "ple"; "1"])))) /\
  run initial_state (removelast (string_chunks VALUE (in_pieces ["ap"; "ple"; "1"])))
    = Some (set_path_if_root
              (set_value initial_state (Some (JString (text_of (in_pieces ["ap"; "ple"; "1"])))))
              (start_path (in_pieces ["ap"; "ple"; "1"])), []).
Proof.
  split; [reflexivity | split; [reflexivity|]].
  apply (string_value_independent_of_partition initial_state
           (in_pieces ["ap"; "ple"; "1"]) (in_pieces ["apple1"])); reflexivity.
Defined.

(** [[1] null], cut after the [1]. *)
Lemma no_partial_value_is_emitted_witness :
  (completes_root_value (ARRAY_ITEM [JNumber (integer 1)] None (ROOT (Some (JArray [])) at_root)) ARRAY_END /\
   exists v p,
     [Emit (JArray [JNumber (integer 1)]) at_root] = [Emit v p] /\ ROOT None at_root = ROOT None p) /\
  exists k q,
    [WithPath ARRAY_START at_root; WithPath (NUMBER_VALUE (integer 1)) None]
      = flat_map chunks_of (firstn k [DArray at_root [DNumber (integer 1) None] None; DNull at_root]) ++ q /\
    JsonDeserializer [WithPath ARRAY_START at_root; WithPath (NUMBER_VALUE (integer 1)) None]
      = Some (map result_of (firstn k [DArray at_root [DNumber (integer 1) None] None; DNull at_root])).
Proof.
  split.
  - apply (proj1 no_partial_value_is_emitted
             (ARRAY_ITEM [JNumber (integer 1)] None (ROOT (Some (JArray [])) at_root))
             (WithPath ARRAY_END None)).
    + reflexivity.
    + discriminate.
  - apply (proj2 no_partial_value_is_emitted
             [DArray at_root [DNumber (integer 1) None] None; DNull at_root]
             [WithPath ARRAY_START at_root; WithPath (NUMBER_VALUE (integer 1)) None]
             [WithPath ARRAY_END None; WithPath NULL_VALUE at_root]).
    reflexivity.
Defined.

(** [{"__proto__":0}] and [{"__proto__":""}] *)
Definition doc_proto_zero : Doc :=
  DObject at_root [(whole "__proto__", DNumber (integer 0) None)] at_root.

Definition doc_proto_empty_string : Doc :=
  DObject at_root [(whole "__proto__", DString (in_pieces []))] at_root.

(** C10, on the host of the tests.  The values [false], [0] and [""] under
    the key [__proto__] are lost: the assignment runs the inherited setter,
    which ignores a value that is neither an object nor [null], and the
    object is delivered without the member.  Under any other key, such as
    ["a"], they are kept. *)
Lemma falsy_value_under_proto_key_is_dropped :
  JsonDeserializer (chunks_of doc_proto_false) = Some [Emit (JObject empty_object) at_root] /\
  JsonDeserializer (chunks_of doc_proto_zero) = Some [Emit (JObject empty_object) at_root] /\
  JsonDeserializer (chunks_of doc_proto_empty_string)
    = Some [Emit (JObject empty_object) at_root] /\
  Object_keys empty_object = [] /\
  JsonDeserializer (chunks_of (DObject at_root [(whole "a", DBoolean false None)] at_root))
    = Some [Emit (JObject (mkObject ObjectPrototype [("a", JBoolean false)])) at_root].
Proof.
  repeat split.
Qed.

(** The fragments of the tests. *)
Definition test_fragments : list string :=
  map json_text
    ["{'apples':{'results':[";
     "'apple1',";
     "'apple2'";
     "]},'cherries':{'results':{";
     "'1':'cherry1',";
     "'2':'cherry2'";
     "}}}"].

(** A consumer that, after every chunk that reaches the splitter, reads the
    main sequence, then the second sub-stream, then the first. *)
Definition eager_history : list Event :=
  flat_map (fun c => [Upstream c; ReadMain; ReadSub 1; ReadSub 0])
           (selected example_pattern test_fragments)
  ++ [UpstreamEnd; ReadMain; ReadSub 1; ReadSub 0].


(** The history of the test of abortion: the consumer has read the first
    sub-stream to its end and nothing of the second, whose buffer is full,
    and it has read both descriptors, when the source is aborted. *)
Definition aborted_history : list Event :=
  flat_map (fun c => [Upstream c; ReadSub 0]) (selected example_pattern test_fragments)
  ++ [ReadMain; ReadMain].

Lemma abort_reaches_main_and_every_sub_stream_witness :
  source (after initial_splitter aborted_history) = Live /\
  List.length
    (subs (after (fst (step (after initial_splitter aborted_history)
                            (UpstreamAbort (SourceAbort "test")))) []))
    = List.length (subs (after initial_splitter aborted_history)) /\
  read_main (after (fst (step (after initial_splitter aborted_history)
                              (UpstreamAbort (SourceAbort "test")))) [])
    = MainResponse (Failed (SourceAbort "test")) /\
  forall i, i < List.length (subs (after initial_splitter aborted_history)) ->
    read_sub (after (fst (step (after initial_splitter aborted_history)
                               (UpstreamAbort (SourceAbort "test")))) []) i
    = SubResponse (Failed (SourceAbort "test")).
Proof.
  assert (H : source (after initial_splitter aborted_history) = Live)
    by (vm_compute; reflexivity).
  split; [exact H|].
  exact (abort_reaches_main_and_every_sub_stream aborted_history (SourceAbort "test") H []).
Defined.

(** The stages work in turn, forty times over, and after each turn the
    consumer reads the main sequence; no sub-stream is read. *)
Definition idle_moves : list Move :=
  List.concat (repeat [Tokenize; Track; Select; Split; ReadDescriptor] 40).

(** The same, with a consumer that also reads both sub-streams. *)
Definition attentive_moves : list Move :=
  List.concat (repeat [Tokenize; Track; Select; Split; ReadDescriptor; ReadChunk 0; ReadChunk 1]
                 40).


(** The state in which the boolean [false] has arrived for the key
    [__proto__] of an object that has no member yet. *)
Lemma handleValueEnd_stores_under_the_key_unless_proto_witness :
  @legacy_proto_accessor IntegerHost = true /\
  handleValueEnd
    (OBJECT_PROPERTY empty_object "__proto__" (Some (JBoolean false)) (ROOT None at_root))
  = (OBJECT_PROPERTY empty_object "" None (ROOT None at_root), []) /\
  own_property empty_object "__proto__" = None.
Proof.
  split; [reflexivity|].
  apply (proj2 (proj2 (proj2 (proj2 (proj2 (proj2
           handleValueEnd_stores_under_the_key_unless_proto)))))).
  reflexivity.
Defined.

(** [{"a":[1,"x"],"b":null}] *)
Definition value_a_b : JsonValue :=
  JObject (mkObject ObjectPrototype
             [("a", JArray [JNumber (integer 1); JString "x"]); ("b", JNull)]).

Lemma plain_value_is_delivered_as_it_is_witness :
  plain value_a_b = true /\
  JsonDeserializer (chunks_of (encode at_root value_a_b)) = Some [Emit value_a_b at_root].
Proof.
  split; [reflexivity|].
  apply (plain_value_is_delivered_as_it_is at_root value_a_b). reflexivity.
Defined.

(** [{"b":1,"1":2,"b":3}] is read as the mapping of ["b"] to 3 and ["1"] to
    2. *)
Lemma document_without_proto_key_is_read_as_json_witness :
  proto_free doc_b_1_b = true /\
  JsonDeserializer (chunks_of doc_b_1_b)
    = Some [Emit (standard doc_b_1_b) (first_path doc_b_1_b)] /\
  standard doc_b_1_b
    = JObject (mkObject ObjectPrototype
                 [("b", JNumber (integer 3)); ("1", JNumber (integer 2))]).
Proof.
  split; [reflexivity | split; [|reflexivity]].
  apply (document_without_proto_key_is_read_as_json doc_b_1_b). reflexivity.
Defined.

(** [{"a":null,"__proto__":{"x":true}}] *)
Lemma proto_member_sets_the_prototype_witness :
  @legacy_proto_accessor IntegerHost = true /\
  text_of (whole "__proto__") = "__proto__" /\
  Forall (fun m => member_key m <> "__proto__") [(whole "a", DNull None)] /\
  exists o,
    JsonDeserializer
      (chunks_of (DObject at_root
                    ([(whole "a", DNull None)]
                     ++ [(whole "__proto__",
                          DObject None [(whole "x", DBoolean true None)] None)])
                    None))
      = Some [Emit (JObject o) at_root] /\
    props o = props (assign_members empty_object [(whole "a", DNull None)]) /\
    own_property o "__proto__" = None /\
    proto o = match denote (DObject None [(whole "x", DBoolean true None)] None) with
              | JObject _ | JArray _ =>
                  ValuePrototype (denote (DObject None [(whole "x", DBoolean true None)] None))
              | JNull => NullPrototype
              | _ => ObjectPrototype
              end.
Proof.
  assert (H : Forall (fun m => member_key m <> "__proto__") [(whole "a", DNull None)])
    by (repeat constructor; discriminate).
  split; [reflexivity | split; [reflexivity | split; [exact H|]]].
  exact (proto_member_sets_the_prototype at_root [(whole "a", DNull None)]
           (whole "__proto__") (DObject None [(whole "x", DBoolean true None)] None) None
           eq_refl eq_refl H).
Defined.

(** [[1]] with a path on every chunk, and with none. *)
Lemma values_do_not_depend_on_paths_witness :
  map chunk [WithPath ARRAY_START at_root;
             WithPath (NUMBER_VALUE (integer 1)) (Some [Index 0]);
             WithPath ARRAY_END at_root]
    = map chunk [WithPath ARRAY_START None;
                 WithPath (NUMBER_VALUE (integer 1)) None;
                 WithPath ARRAY_END None] /\
  option_map (map value)
    (JsonDeserializer [WithPath ARRAY_START at_root;
                       WithPath (NUMBER_VALUE (integer 1)) (Some [Index 0]);
                       WithPath ARRAY_END at_root])
  = option_map (map value)
      (JsonDeserializer [WithPath ARRAY_START None;
                         WithPath (NUMBER_VALUE (integer 1)) None;
                         WithPath ARRAY_END None]).
Proof.
  split; [reflexivity|].
  apply (values_do_not_depend_on_paths
           [WithPath ARRAY_START at_root;
            WithPath (NUMBER_VALUE (integer 1)) (Some [Index 0]);
            WithPath ARRAY_END at_root]
           [WithPath ARRAY_START None;
            WithPath (NUMBER_VALUE (integer 1)) None;
            WithPath ARRAY_END None]).
  reflexivity.
Defined.
